(** * UNCALLED: the branching seed-search mapper ([src/mapper.cpp])

    A shallow embedding of [Mapper::PathBuffer] and of the [Mapper] life cycle,
    and the properties of the specification checked against it.

    Conventions.
    - Fixed-width integers are [Z] with the wrap-around written out
      ([u8], [u16], [u32], [u64]).
    - [float] is IEEE binary32, modelled by [spec_float] with precision 24 and
      maximal exponent 128; every operation rounds to nearest even as the
      hardware does.
    - C++ arrays and vectors are lists, read and written by index with
      stdpp's lookup and insert.  An access out of range is undefined
      behaviour in the source; here a read yields a default and a write is
      dropped. *)

From Stdlib Require Import ZArith List Bool Lia.
From Stdlib Require Import Floats.SpecFloat.
From stdpp Require Import base list.

Open Scope Z_scope.

(** ** Machine integers *)

Definition u8 (x : Z) : Z := x mod 2 ^ 8.
Definition u16 (x : Z) : Z := x mod 2 ^ 16.
Definition u32 (x : Z) : Z := x mod 2 ^ 32.
Definition u64 (x : Z) : Z := x mod 2 ^ 64.

(** A C++ [bool] used as an integer. *)
Definition b2z (b : bool) : Z := if b then 1 else 0.

(** ** binary32 *)

Definition f32 : Type := spec_float.

Definition f32_zero : f32 := S754_zero false.
Definition f32_add : f32 -> f32 -> f32 := SFadd 24 128.
Definition f32_sub : f32 -> f32 -> f32 := SFsub 24 128.
Definition f32_mul : f32 -> f32 -> f32 := SFmul 24 128.
Definition f32_div : f32 -> f32 -> f32 := SFdiv 24 128.
Definition f32_lt : f32 -> f32 -> bool := SFltb.
Definition f32_le : f32 -> f32 -> bool := SFleb.
Definition f32_ge (a b : f32) : bool := SFleb b a.

(** Conversion of an integer operand to [float] in mixed arithmetic. *)
Definition f32_of_Z (z : Z) : f32 := binary_normalize 24 128 z 0 false.

(** ** Arrays *)

Definition zget {A} (d : A) (l : list A) (i : Z) : A :=
  if i <? 0 then d else default d (l !! Z.to_nat i).

Definition zset {A} (l : list A) (i : Z) (v : A) : list A :=
  if i <? 0 then l else <[Z.to_nat i := v]> l.

(** [std::memcpy(dst, src, n * sizeof(T))] on two arrays. *)
Definition memcpy {A} (dst src : list A) (n : Z) : list A :=
  take (Z.to_nat n) src ++ drop (Z.to_nat n) dst.

(** ** Range

    Modelled from the spec: the class [Range] is declared outside
    [mapper.cpp].  It is a closed integer interval [start, end], invalid when
    [start > end], of length [end - start + 1], ordered lexicographically on
    (start, end). *)

Record Range : Type := mkRange { start_ : Z; end_ : Z }.

Definition range_length (r : Range) : Z := end_ r - start_ r + 1.
Definition range_is_valid (r : Range) : bool := start_ r <=? end_ r.
Definition range_eq (a b : Range) : bool :=
  (start_ a =? start_ b) && (end_ a =? end_ b).
Definition range_lt (a b : Range) : bool :=
  (start_ a <? start_ b) || ((start_ a =? start_ b) && (end_ a <? end_ b)).

(** ** Event types

    [make_source] sets the count of [MATCH] and then clears the counts of the
    types [1 .. NUM_TYPES-1]: [MATCH] is enumerator 0, [STAY] is 1. *)

Inductive EventType : Type := MATCH | STAY.

Definition type_id (t : EventType) : Z :=
  match t with MATCH => 0 | STAY => 1 end.

Definition NUM_TYPES : Z := 2.

Definition is_stay (t : EventType) : bool :=
  match t with STAY => true | MATCH => false end.

(** ** The static layout of [PathBuffer]

    [MAX_PATH_LEN], [TYPE_MASK] and [TYPE_ADDS] are static members written
    once by the constructor of [Mapper]; they are passed explicitly. *)

Record PathStatics : Type := mkStatics {
  MAX_PATH_LEN : Z;          (* u8 *)
  TYPE_MASK : Z;             (* u8 *)
  TYPE_ADDS : list Z         (* u32 [NUM_TYPES] *)
}.

(** ** Collaborators read through [UncalledOpts]

    The k-mer model and the FM index are external; only the members that
    [mapper.cpp] calls appear. *)

Record KmerModel : Type := mkModel {
  kmer_count : Z;
  event_match_prob : f32 -> Z -> f32;
  model_get_neighbor : Z -> Z -> Z
}.

Record BaseFMI : Type := mkFMI {
  fmi_size : Z;                                   (* u64 *)
  fmi_get_neighbor : Range -> Z -> Range;
  fmi_sa : Z -> Z                                 (* u64 -> u64 *)
}.

Record UncalledOpts : Type := mkOpts {
  model_ : KmerModel;
  fmi_ : BaseFMI;
  seed_len_ : Z;
  max_paths_ : Z;
  max_consec_stay_ : Z;
  max_rep_copy_ : Z;
  min_rep_len_ : Z;
  max_events_proc_ : Z;
  max_chunks_proc_ : Z;
  max_stay_frac_ : f32;
  min_seed_prob_ : f32;
  get_prob_thresh : Z -> f32;
  get_source_prob : f32;
  kmer_fmranges_ : list Range
}.

Record PathBuffer : Type := mkPath {
  fm_range_ : Range;
  length_ : Z;               (* u8 *)
  consec_stays_ : Z;         (* u8 *)
  event_types_ : Z;          (* u32, as the TYPE_ADDS it is assembled from *)
  path_type_counts_ : list Z;(* u8 [NUM_TYPES] *)
  kmer_ : Z;                 (* u16 *)
  seed_prob_ : f32;
  prob_sums_ : list f32;     (* float [MAX_PATH_LEN + 1] *)
  sa_checked_ : bool
}.

Section PathBufferOps.

(** [TYPE_BITS] is a constant of the missing header (nominally 2). *)
Variable TYPE_BITS : Z.

(** The static initialisation in [Mapper::Mapper]. *)
Definition init_statics (seed_len : Z) : PathStatics :=
  let mpl := u8 seed_len in
  {| MAX_PATH_LEN := mpl;
     TYPE_ADDS :=
       map (fun t => u32 (Z.shiftl t ((mpl - 2) * TYPE_BITS)))
           [type_id MATCH; type_id STAY];
     TYPE_MASK := u8 (Z.shiftl 1 TYPE_BITS - 1) |}.

Variable G : PathStatics.

(** [PathBuffer::PathBuffer()] *)
Definition new_path : PathBuffer :=
  {| fm_range_ := mkRange 0 0; length_ := 0; consec_stays_ := 0;
     event_types_ := 0; path_type_counts_ := [0; 0]; kmer_ := 0;
     seed_prob_ := f32_zero;
     prob_sums_ := replicate (Z.to_nat (MAX_PATH_LEN G + 1)) f32_zero;
     sa_checked_ := false |}.

(** [PathBuffer::make_source]; [self] is the slot being overwritten. *)
Definition make_source (self : PathBuffer) (range : Range) (kmer : Z)
    (prob : f32) : PathBuffer :=
  {| length_ := 1;
     consec_stays_ := 0;
     event_types_ := 0;
     seed_prob_ := prob;
     fm_range_ := range;
     kmer_ := kmer;
     sa_checked_ := false;
     path_type_counts_ :=
       zset (zset (path_type_counts_ self) (type_id MATCH) 1) 1 0;
     prob_sums_ := zset (zset (prob_sums_ self) 0 f32_zero) 1 prob |}.

(** [PathBuffer::type_head] and [PathBuffer::type_tail] *)
Definition type_head (p : PathBuffer) : Z :=
  Z.land (Z.shiftr (event_types_ p) (TYPE_BITS * (MAX_PATH_LEN G - 2)))
         (TYPE_MASK G).

Definition type_tail (p : PathBuffer) : Z :=
  Z.land (event_types_ p) (TYPE_MASK G).

(** [PathBuffer::match_len] *)
Definition match_len (p : PathBuffer) : Z :=
  zget 0 (path_type_counts_ p) (type_id MATCH).

(** [PathBuffer::make_child]; [self] is the slot being overwritten, [p] the
    parent. *)
Definition make_child (self p : PathBuffer) (range : Range) (kmer : Z)
    (prob : f32) (type : EventType) : PathBuffer :=
  let M := MAX_PATH_LEN G in
  let len := u8 (length_ p + b2z (length_ p <=? M)) in
  let ets :=
    u32 (Z.lor (zget 0 (TYPE_ADDS G) (type_id type))
               (Z.shiftr (event_types_ p) TYPE_BITS)) in
  let stays :=
    u8 ((consec_stays_ p + b2z (is_stay type)) * b2z (is_stay type)) in
  let counts0 := memcpy (path_type_counts_ self) (path_type_counts_ p) NUM_TYPES in
  let counts1 :=
    zset counts0 (type_id type) (u8 (zget 0 counts0 (type_id type) + 1)) in
  if len >? M then
    let sums0 := memcpy (prob_sums_ self) (drop 1 (prob_sums_ p)) M in
    let sums1 := zset sums0 M (f32_add (zget f32_zero sums0 (M - 1)) prob) in
    {| length_ := len; fm_range_ := range; kmer_ := kmer;
       sa_checked_ := sa_checked_ p; event_types_ := ets;
       consec_stays_ := stays;
       prob_sums_ := sums1;
       seed_prob_ :=
         f32_div (f32_sub (zget f32_zero sums1 M) (zget f32_zero sums1 0))
                 (f32_of_Z M);
       path_type_counts_ :=
         zset counts1 (type_tail p) (u8 (zget 0 counts1 (type_tail p) - 1)) |}
  else
    let sums0 := memcpy (prob_sums_ self) (prob_sums_ p) len in
    let sums1 := zset sums0 len (f32_add (zget f32_zero sums0 (len - 1)) prob) in
    {| length_ := len; fm_range_ := range; kmer_ := kmer;
       sa_checked_ := sa_checked_ p; event_types_ := ets;
       consec_stays_ := stays;
       prob_sums_ := sums1;
       seed_prob_ := f32_div (zget f32_zero sums1 len) (f32_of_Z len);
       path_type_counts_ := counts1 |}.

(** [PathBuffer::invalidate] and [PathBuffer::is_valid] *)
Definition invalidate (p : PathBuffer) : PathBuffer :=
  {| length_ := 0; fm_range_ := fm_range_ p; kmer_ := kmer_ p;
     sa_checked_ := sa_checked_ p; event_types_ := event_types_ p;
     consec_stays_ := consec_stays_ p; prob_sums_ := prob_sums_ p;
     seed_prob_ := seed_prob_ p; path_type_counts_ := path_type_counts_ p |}.

Definition is_valid (p : PathBuffer) : bool := length_ p >? 0.

(** [PathBuffer::is_seed_valid] *)
Definition is_seed_valid (p : PathBuffer) (o : UncalledOpts) (path_ended : bool)
    : bool :=
  ((range_length (fm_range_ p) =? 1)
   || (path_ended
       && (range_length (fm_range_ p) <=? max_rep_copy_ o)
       && (match_len p >=? min_rep_len_ o)))
  && (length_ p >=? seed_len_ o)
  && (path_ended || (type_head p =? type_id MATCH))
  && (path_ended
      || f32_le (f32_of_Z (zget 0 (path_type_counts_ p) (type_id STAY)))
                (f32_mul (max_stay_frac_ o) (f32_of_Z (seed_len_ o))))
  && f32_ge (seed_prob_ p) (min_seed_prob_ o).

End PathBufferOps.

(** [operator<] on paths *)
Definition path_lt (p1 p2 : PathBuffer) : bool :=
  range_lt (fm_range_ p1) (fm_range_ p2)
  || (range_eq (fm_range_ p1) (fm_range_ p2)
      && f32_lt (seed_prob_ p1) (seed_prob_ p2)).

(** ** The mapper *)

Inductive State : Type := INACTIVE | MAPPING | SUCCESS | FAILURE.

Section MapperOps.

(** Constants of the missing header. *)
Variable TYPE_BITS : Z.
Variable ALPH_SIZE : Z.

(** [pdqsort] (pattern-defeating quicksort, [pdqsort.h]) applied to a
    range of paths with [operator<]. *)
Variable pdqsort : list PathBuffer -> list PathBuffer.

(** External classes: seed tracker and seed group, event detector,
    normaliser, chunk, and the location record of a read. *)
Context {SeedTracker SeedGroup EventDetector Normalizer Chunk ReadLoc : Type}.

Variable tracker_reset : SeedTracker -> SeedTracker.
Variable tracker_add_seed : SeedTracker -> Z -> Z -> Z -> SeedTracker.
Variable tracker_get_final : SeedTracker -> SeedGroup.
Variable sg_is_valid : SeedGroup -> bool.

Variable ed_add_sample : EventDetector -> f32 -> EventDetector * bool.
Variable ed_get_mean : EventDetector -> f32.
Variable ed_reset : EventDetector -> EventDetector.

Variable norm_add_event : Normalizer -> f32 -> Normalizer * bool.
Variable norm_skip_unread : Normalizer -> option Z -> Normalizer * Z.

Variable chunk_get_number : Chunk -> Z.
Variable chunk_clear : Chunk -> Chunk.

(** [ReadBuffer], with the members that [mapper.cpp] touches. *)
Record ReadBuffer : Type := mkRead {
  number_ : Z;               (* u32 *)
  num_chunks_ : Z;
  chunk_processed_ : bool;
  chunk_ : list f32;
  loc_ : ReadLoc
}.

Variable read_of_chunk : Chunk -> ReadBuffer.
Variable read_add_chunk : ReadBuffer -> Chunk -> ReadBuffer * Chunk * bool.

(** [Mapper::set_ref_loc] only writes [read_.loc_], from the seed group and
    the external [translate_loc]. *)
Variable set_mapped : UncalledOpts -> SeedGroup -> ReadBuffer -> ReadLoc.

Record Mapper : Type := mkMapper {
  state_ : State;
  reset_ : bool;
  last_chunk_ : bool;
  event_i_ : Z;                       (* u32 *)
  prev_size_ : Z;                     (* u32 *)
  prev_paths_ : list PathBuffer;      (* max_paths entries *)
  next_paths_ : list PathBuffer;      (* max_paths entries *)
  kmer_probs_ : list f32;             (* kmer_count entries *)
  sources_added_ : list bool;         (* kmer_count entries *)
  seed_tracker_ : SeedTracker;
  read_ : ReadBuffer;
  event_detector_ : EventDetector;
  norm_ : Normalizer
}.

Definition set_state (v : State) (m : Mapper) : Mapper :=
  mkMapper v (reset_ m) (last_chunk_ m) (event_i_ m) (prev_size_ m)
    (prev_paths_ m) (next_paths_ m) (kmer_probs_ m) (sources_added_ m)
    (seed_tracker_ m) (read_ m) (event_detector_ m) (norm_ m).
Definition set_reset (v : bool) (m : Mapper) : Mapper :=
  mkMapper (state_ m) v (last_chunk_ m) (event_i_ m) (prev_size_ m)
    (prev_paths_ m) (next_paths_ m) (kmer_probs_ m) (sources_added_ m)
    (seed_tracker_ m) (read_ m) (event_detector_ m) (norm_ m).
Definition set_last_chunk (v : bool) (m : Mapper) : Mapper :=
  mkMapper (state_ m) (reset_ m) v (event_i_ m) (prev_size_ m)
    (prev_paths_ m) (next_paths_ m) (kmer_probs_ m) (sources_added_ m)
    (seed_tracker_ m) (read_ m) (event_detector_ m) (norm_ m).
Definition set_event_i (v : Z) (m : Mapper) : Mapper :=
  mkMapper (state_ m) (reset_ m) (last_chunk_ m) v (prev_size_ m)
    (prev_paths_ m) (next_paths_ m) (kmer_probs_ m) (sources_added_ m)
    (seed_tracker_ m) (read_ m) (event_detector_ m) (norm_ m).
Definition set_prev_size (v : Z) (m : Mapper) : Mapper :=
  mkMapper (state_ m) (reset_ m) (last_chunk_ m) (event_i_ m) v
    (prev_paths_ m) (next_paths_ m) (kmer_probs_ m) (sources_added_ m)
    (seed_tracker_ m) (read_ m) (event_detector_ m) (norm_ m).
Definition set_prev_paths (v : list PathBuffer) (m : Mapper) : Mapper :=
  mkMapper (state_ m) (reset_ m) (last_chunk_ m) (event_i_ m) (prev_size_ m)
    v (next_paths_ m) (kmer_probs_ m) (sources_added_ m)
    (seed_tracker_ m) (read_ m) (event_detector_ m) (norm_ m).
Definition set_next_paths (v : list PathBuffer) (m : Mapper) : Mapper :=
  mkMapper (state_ m) (reset_ m) (last_chunk_ m) (event_i_ m) (prev_size_ m)
    (prev_paths_ m) v (kmer_probs_ m) (sources_added_ m)
    (seed_tracker_ m) (read_ m) (event_detector_ m) (norm_ m).
Definition set_kmer_probs (v : list f32) (m : Mapper) : Mapper :=
  mkMapper (state_ m) (reset_ m) (last_chunk_ m) (event_i_ m) (prev_size_ m)
    (prev_paths_ m) (next_paths_ m) v (sources_added_ m)
    (seed_tracker_ m) (read_ m) (event_detector_ m) (norm_ m).
Definition set_sources_added (v : list bool) (m : Mapper) : Mapper :=
  mkMapper (state_ m) (reset_ m) (last_chunk_ m) (event_i_ m) (prev_size_ m)
    (prev_paths_ m) (next_paths_ m) (kmer_probs_ m) v
    (seed_tracker_ m) (read_ m) (event_detector_ m) (norm_ m).
Definition set_seed_tracker (v : SeedTracker) (m : Mapper) : Mapper :=
  mkMapper (state_ m) (reset_ m) (last_chunk_ m) (event_i_ m) (prev_size_ m)
    (prev_paths_ m) (next_paths_ m) (kmer_probs_ m) (sources_added_ m)
    v (read_ m) (event_detector_ m) (norm_ m).
Definition set_read (v : ReadBuffer) (m : Mapper) : Mapper :=
  mkMapper (state_ m) (reset_ m) (last_chunk_ m) (event_i_ m) (prev_size_ m)
    (prev_paths_ m) (next_paths_ m) (kmer_probs_ m) (sources_added_ m)
    (seed_tracker_ m) v (event_detector_ m) (norm_ m).
Definition set_event_detector (v : EventDetector) (m : Mapper) : Mapper :=
  mkMapper (state_ m) (reset_ m) (last_chunk_ m) (event_i_ m) (prev_size_ m)
    (prev_paths_ m) (next_paths_ m) (kmer_probs_ m) (sources_added_ m)
    (seed_tracker_ m) (read_ m) v (norm_ m).
Definition set_norm (v : Normalizer) (m : Mapper) : Mapper :=
  mkMapper (state_ m) (reset_ m) (last_chunk_ m) (event_i_ m) (prev_size_ m)
    (prev_paths_ m) (next_paths_ m) (kmer_probs_ m) (sources_added_ m)
    (seed_tracker_ m) (read_ m) (event_detector_ m) v.

(** The options of the mapper ([opts_], never written) and the layout they
    induce. *)
Variable o : UncalledOpts.

Definition layout : PathStatics := init_statics TYPE_BITS (seed_len_ o).

(** [Mapper::Mapper]: [reset_], [last_chunk_] and [read_] are left as they
    are found; the collaborators arrive constructed. *)
Definition mapper_init (reset0 last0 : bool) (read0 : ReadBuffer)
    (trk : SeedTracker) (ed : EventDetector) (nm : Normalizer) : Mapper :=
  {| state_ := INACTIVE; reset_ := reset0; last_chunk_ := last0;
     event_i_ := 0; prev_size_ := 0;
     prev_paths_ := replicate (Z.to_nat (max_paths_ o)) (new_path layout);
     next_paths_ := replicate (Z.to_nat (max_paths_ o)) (new_path layout);
     kmer_probs_ := replicate (Z.to_nat (kmer_count (model_ o))) f32_zero;
     sources_added_ := replicate (Z.to_nat (kmer_count (model_ o))) false;
     seed_tracker_ := tracker_reset trk;
     read_ := read0; event_detector_ := ed; norm_ := nm |}.

(** [Mapper::deactivate] *)
Definition deactivate (m : Mapper) : Mapper :=
  set_reset false (set_state INACTIVE m).

(** [Mapper::prev_unfinished] *)
Definition prev_unfinished (m : Mapper) (next_number : Z) : bool :=
  match state_ m with
  | MAPPING => negb (number_ (read_ m) =? next_number)
  | _ => false
  end.

(** [Mapper::new_read]; the message on [std::cerr] and the timer are not
    part of the state. *)
Definition new_read (m : Mapper) (chunk : Chunk) : Mapper :=
  let m := set_read (read_of_chunk chunk) m in
  let m := set_prev_size 0 m in
  let m := set_event_i 0 m in
  let m := set_reset false m in
  let m := set_last_chunk false m in
  let m := set_state MAPPING m in
  let m := set_seed_tracker (tracker_reset (seed_tracker_ m)) m in
  let m := set_event_detector (ed_reset (event_detector_ m)) m in
  set_norm (fst (norm_skip_unread (norm_ m) None)) m.

(** [Mapper::finished] *)
Definition finished (m : Mapper) : bool :=
  match state_ m with SUCCESS | FAILURE => true | _ => false end.

(** [Mapper::skip_events] *)
Definition skip_events (m : Mapper) (n : Z) : Mapper :=
  set_prev_size 0 (set_event_i (u32 (event_i_ m + n)) m).

(** [Mapper::request_reset], [end_reset], [is_resetting] *)
Definition request_reset (m : Mapper) : Mapper := set_reset true m.
Definition end_reset (m : Mapper) : Mapper := set_reset false m.
Definition is_resetting (m : Mapper) : bool := reset_ m.

(** [Mapper::is_chunk_processed], [Mapper::get_state] *)
Definition is_chunk_processed (m : Mapper) : bool :=
  chunk_processed_ (read_ m).
Definition get_state (m : Mapper) : State := state_ m.

(** [Mapper::swap_chunk]; the chunk is passed by reference, so it is
    returned too. *)
Definition swap_chunk (m : Mapper) (chunk : Chunk) : Mapper * Chunk * bool :=
  if negb (is_chunk_processed m) || reset_ m then (m, chunk, false)
  else if (max_chunks_proc_ o >? 0)
          && (num_chunks_ (read_ m) =? max_chunks_proc_ o) then
    (set_reset true (set_state FAILURE m), chunk_clear chunk, true)
  else
    let '(rd, chunk', added) := read_add_chunk (read_ m) chunk in
    (set_read rd m, chunk', added).

(** [Mapper::end_read] *)
Definition end_read (m : Mapper) (number : Z) : Mapper * bool :=
  let r := number_ (read_ m) =? number in
  (set_reset r m, r).

(** The body of the sample loop of [Mapper::process_chunk].  The result is
    [inl] when the loop goes on and [inr] at the early [return nevents]. *)
Definition process_sample (m : Mapper) (nevents : Z) (sample : f32)
    : (Mapper * Z) + (Mapper * Z) :=
  let '(ed, emitted) := ed_add_sample (event_detector_ m) sample in
  let m := set_event_detector ed m in
  if emitted then
    let mean := ed_get_mean (event_detector_ m) in
    let '(nm, ok) := norm_add_event (norm_ m) mean in
    let m := set_norm nm m in
    if negb ok then
      let '(nm, nskip) := norm_skip_unread (norm_ m) (Some nevents) in
      let m := set_norm nm m in
      let m := skip_events m nskip in
      let '(nm, ok) := norm_add_event (norm_ m) mean in
      let m := set_norm nm m in
      if negb ok then inr (m, nevents)
      else inl (m, u16 (nevents + 1))
    else inl (m, u16 (nevents + 1))
  else inl (m, nevents).

Fixpoint process_samples (samples : list f32) (m : Mapper) (nevents : Z)
    : (Mapper * Z) + (Mapper * Z) :=
  match samples with
  | [] => inl (m, nevents)
  | s :: rest =>
      match process_sample m nevents s with
      | inl (m', n') => process_samples rest m' n'
      | inr r => inr r
      end
  end.

(** [Mapper::process_chunk] *)
Definition process_chunk (m : Mapper) : Mapper * Z :=
  if chunk_processed_ (read_ m) || reset_ m then (m, 0)
  else
    match process_samples (chunk_ (read_ m)) m 0 with
    | inr r => r
    | inl (m', nevents) =>
        let rd := read_ m' in
        (set_read (mkRead (number_ rd) (num_chunks_ rd) true [] (loc_ rd)) m',
         nevents)
    end.

(** [Mapper::update_seeds]: the body of the loop over the suffix-array
    interval, one call of [add_seed]. *)
Definition add_one_seed (p : PathBuffer) (evt : Z) (trk : SeedTracker)
    (s : Z) : SeedTracker :=
  let ref_en := u64 (fmi_size (fmi_ o) - fmi_sa (fmi_ o) s + 1) in
  tracker_add_seed trk ref_en (match_len p) evt.

(** The loop [for (u64 s = start_; s <= end_; s++)]. *)
Fixpoint seed_loop (fuel : nat) (s : Z) (p : PathBuffer) (evt : Z)
    (trk : SeedTracker) : SeedTracker :=
  match fuel with
  | O => trk
  | S fuel' =>
      if s <=? end_ (fm_range_ p) then
        seed_loop fuel' (s + 1) p evt (add_one_seed p evt trk s)
      else trk
  end.

(** A path is passed by reference; the updated path is returned with the
    mapper. *)
Definition update_seeds (m : Mapper) (p : PathBuffer) (path_ended : bool)
    : Mapper * PathBuffer :=
  if is_seed_valid TYPE_BITS layout p o path_ended then
    let p' := mkPath (fm_range_ p) (length_ p) (consec_stays_ p)
                (event_types_ p) (path_type_counts_ p) (kmer_ p)
                (seed_prob_ p) (prob_sums_ p) true in
    let trk :=
      seed_loop (Z.to_nat (range_length (fm_range_ p')))
        (start_ (fm_range_ p')) p' (u32 (event_i_ m - b2z path_ended))
        (seed_tracker_ m) in
    (set_seed_tracker trk m, p')
  else (m, p).

(** *** [Mapper::add_event]

    [np] is the position of the iterator [next_path] in [next_paths_];
    [next_paths_.end()] is the length of the vector. *)

Definition zrange (n : Z) : list Z := map Z.of_nat (seq 0 (Z.to_nat n)).

Definition next_end (m : Mapper) : Z := Z.of_nat (length (next_paths_ m)).

Definition next_at (m : Mapper) (i : Z) : PathBuffer :=
  zget (new_path layout) (next_paths_ m) i.

(** [Range()], the value of a declared and not yet assigned range.
    Modelled from the spec: an invalid range has [start > end]. *)
Definition range_default : Range := mkRange 1 0.

Definition kmer_fmrange (k : Z) : Range :=
  zget range_default (kmer_fmranges_ o) k.

(** [next_path->make_source(...); next_path++] *)
Definition push_source (m : Mapper) (np : Z) (r : Range) (kmer : Z)
    (prob : f32) : Mapper * Z :=
  (set_next_paths
     (zset (next_paths_ m) np (make_source (next_at m np) r kmer prob)) m,
   np + 1).

(** [next_path->make_child(...)] *)
Definition put_child (m : Mapper) (np : Z) (parent : PathBuffer) (r : Range)
    (kmer : Z) (prob : f32) (type : EventType) : Mapper :=
  set_next_paths
    (zset (next_paths_ m) np
       (make_child TYPE_BITS layout (next_at m np) parent r kmer prob type)) m.

(** Phase A: the emission table.  The counter of the loop is a [u16], as
    are the k-mers: [kmer_count] is taken to fit, so that it does not
    wrap. *)
Definition fill_kmer_probs (m : Mapper) (event : f32) : Mapper :=
  set_kmer_probs
    (fold_left
       (fun probs kmer =>
          zset probs kmer (event_match_prob (model_ o) event kmer))
       (zrange (kmer_count (model_ o))) (kmer_probs_ m)) m.

(** Phase B, the loop over the bases [b < ALPH_SIZE] for one parent.  The
    result carries [child_found]; the loop is left when [next_paths_] is
    full. *)
Fixpoint match_loop (fuel : nat) (b : Z) (parent : PathBuffer)
    (thresh : f32) (m : Mapper) (np : Z) (child_found : bool)
    : Mapper * Z * bool :=
  match fuel with
  | O => (m, np, child_found)
  | S fuel' =>
      let next_kmer := model_get_neighbor (model_ o) (kmer_ parent) b in
      if f32_lt (zget f32_zero (kmer_probs_ m) next_kmer) thresh then
        match_loop fuel' (b + 1) parent thresh m np child_found
      else
        let next_range := fmi_get_neighbor (fmi_ o) (fm_range_ parent) b in
        if negb (range_is_valid next_range) then
          match_loop fuel' (b + 1) parent thresh m np child_found
        else
          let m := put_child m np parent next_range next_kmer
                     (zget f32_zero (kmer_probs_ m) next_kmer) MATCH in
          if np + 1 =? next_end m then (m, np + 1, true)
          else match_loop fuel' (b + 1) parent thresh m (np + 1) true
  end.

(** Phase B, the body of the loop over [prev_paths_]; the boolean result
    tells that the loop is left. *)
Definition extend_path (m : Mapper) (pi : Z) (np : Z) : Mapper * Z * bool :=
  let prev_path := zget (new_path layout) (prev_paths_ m) pi in
  if negb (is_valid prev_path) then (m, np, false)
  else
    let prev_range := fm_range_ prev_path in
    let prev_kmer := kmer_ prev_path in
    let evpr_thresh := get_prob_thresh o (range_length prev_range) in
    let stay :=
      (consec_stays_ prev_path <? max_consec_stay_ o)
      && f32_ge (zget f32_zero (kmer_probs_ m) prev_kmer) evpr_thresh in
    let m1 :=
      if stay then
        put_child m np prev_path prev_range prev_kmer
          (zget f32_zero (kmer_probs_ m) prev_kmer) STAY
      else m in
    let np1 := if stay then np + 1 else np in
    if stay && (np1 =? next_end m1) then (m1, np1, true)
    else
      let '(m2, np2, child_found) :=
        match_loop (Z.to_nat ALPH_SIZE) 0 prev_path evpr_thresh m1 np1 stay in
      let m3 :=
        if negb child_found && negb (sa_checked_ prev_path) then
          let '(m', p') := update_seeds m2 prev_path true in
          set_prev_paths (zset (prev_paths_ m') pi p') m'
        else m2 in
      (m3, np2, np2 =? next_end m3).

Fixpoint extend_loop (fuel : nat) (pi : Z) (m : Mapper) (np : Z)
    : Mapper * Z :=
  match fuel with
  | O => (m, np)
  | S fuel' =>
      let '(m', np', stop) := extend_path m pi np in
      if stop then (m', np') else extend_loop fuel' (pi + 1) m' np'
  end.

(** Phase C, "add source for beginning of kmer range": the first block of
    the body of the loop over the sorted children
    [next_paths_[0 .. next_size)].  It works on the mapper, the iterator and
    [unchecked_range].  The coordinates of a range are [u64], as the counter
    that [update_seeds] runs over them: [start_ - 1] and [end_ + 1] wrap
    around at 0 and at [2^64 - 1]. *)
Definition source_before (m : Mapper) (np prev_kmer : Z)
    (unchecked_range : Range) (i source_kmer : Z) : Mapper * Z * Range :=
  let src_prob := zget f32_zero (kmer_probs_ m) source_kmer in
  if negb (source_kmer =? prev_kmer) && negb (np =? next_end m)
     && f32_ge src_prob (get_source_prob o) then
    let m := set_sources_added (zset (sources_added_ m) source_kmer true) m in
    let source_range :=
      mkRange (start_ (kmer_fmrange source_kmer))
              (u64 (start_ (fm_range_ (next_at m i)) - 1)) in
    let '(m, np) :=
      if range_is_valid source_range
      then push_source m np source_range source_kmer src_prob
      else (m, np) in
    (m, np,
     mkRange (u64 (end_ (fm_range_ (next_at m i)) + 1))
             (end_ (kmer_fmrange source_kmer)))
  else (m, np, unchecked_range).

(** Phase C, "start source after current path". *)
Definition source_after (next_size : Z) (m : Mapper) (np : Z)
    (unchecked_range : Range) (i source_kmer : Z) : Mapper * Z * Range :=
  let src_prob := zget f32_zero (kmer_probs_ m) source_kmer in
  if negb (np =? next_end m) && f32_ge src_prob (get_source_prob o) then
    let same_next :=
      (i <? next_size - 1) && (source_kmer =? kmer_ (next_at m (i + 1))) in
    let source_range :=
      if same_next
      then mkRange (start_ unchecked_range)
                   (u64 (start_ (fm_range_ (next_at m (i + 1))) - 1))
      else unchecked_range in
    let unchecked_range :=
      if same_next
         && (start_ unchecked_range <=? end_ (fm_range_ (next_at m (i + 1))))
      then mkRange (u64 (end_ (fm_range_ (next_at m (i + 1))) + 1))
                   (end_ unchecked_range)
      else unchecked_range in
    let '(m, np) :=
      if range_is_valid source_range
      then push_source m np source_range source_kmer src_prob
      else (m, np) in
    (m, np, unchecked_range)
  else (m, np, unchecked_range).

(** Phase C, the body of the loop.  The state of the loop is the mapper,
    the iterator, [prev_kmer] and [unchecked_range]. *)
Definition dedup_step (next_size : Z) (st : Mapper * Z * Z * Range) (i : Z)
    : Mapper * Z * Z * Range :=
  let '(m, np, prev_kmer, unchecked_range) := st in
  let source_kmer := kmer_ (next_at m i) in
  let '(m, np, unchecked_range) :=
    source_before m np prev_kmer unchecked_range i source_kmer in
  let prev_kmer := source_kmer in
  if (i <? next_size - 1)
     && range_eq (fm_range_ (next_at m i)) (fm_range_ (next_at m (i + 1)))
  then
    (set_next_paths (zset (next_paths_ m) i (invalidate (next_at m i))) m,
     np, prev_kmer, unchecked_range)
  else
    let '(m, np, unchecked_range) :=
      source_after next_size m np unchecked_range i source_kmer in
    let '(m, p') := update_seeds m (next_at m i) false in
    (set_next_paths (zset (next_paths_ m) i p') m,
     np, prev_kmer, unchecked_range).

(** Phase C: sort, then the loop. *)
Definition sort_children (m : Mapper) (np : Z) : Mapper :=
  set_next_paths
    (pdqsort (take (Z.to_nat np) (next_paths_ m))
     ++ drop (Z.to_nat np) (next_paths_ m)) m.

Definition dedup_phase (m : Mapper) (np : Z) : Mapper * Z :=
  if negb (np =? 0) then
    let next_size := np in
    let m := sort_children m np in
    let '(m, np, _, _) :=
      fold_left (dedup_step next_size) (zrange next_size)
        (m, np, u16 (kmer_count (model_ o)), range_default) in
    (m, np)
  else (m, np).

(** Phase D: sources for the k-mers without one.  The loop ends when the
    k-mers are exhausted or [next_paths_] is full; the fuel is the number
    of k-mers. *)
Fixpoint source_loop (fuel : nat) (kmer : Z) (m : Mapper) (np : Z)
    : Mapper * Z :=
  match fuel with
  | O => (m, np)
  | S fuel' =>
      if (kmer <? kmer_count (model_ o)) && negb (np =? next_end m) then
        let next_range := kmer_fmrange kmer in
        let prob := zget f32_zero (kmer_probs_ m) kmer in
        if negb (zget false (sources_added_ m) kmer)
           && f32_ge prob (get_source_prob o)
           && negb (np =? next_end m)
           && range_is_valid next_range
        then
          let '(m, np) := push_source m np next_range kmer prob in
          source_loop fuel' (kmer + 1) m np
        else
          source_loop fuel' (kmer + 1)
            (set_sources_added (zset (sources_added_ m) kmer false) m) np
      else (m, np)
  end.

(** [Mapper::set_ref_loc] *)
Definition set_ref_loc (m : Mapper) (sg : SeedGroup) : Mapper :=
  let rd := read_ m in
  set_read (mkRead (number_ rd) (num_chunks_ rd) (chunk_processed_ rd)
              (chunk_ rd) (set_mapped o sg rd)) m.

(** The event step proper, after the guard. *)
Definition event_step (m : Mapper) (event : f32) : Mapper * bool :=
  let m := fill_kmer_probs m event in
  let '(m, np) := extend_loop (Z.to_nat (prev_size_ m)) 0 m 0 in
  let '(m, np) := dedup_phase m np in
  let '(m, np) := source_loop (Z.to_nat (kmer_count (model_ o))) 0 m np in
  let m := set_prev_size np m in
  let m := set_next_paths (prev_paths_ m) (set_prev_paths (next_paths_ m) m) in
  let m := set_event_i (u32 (event_i_ m + 1)) m in
  let sg := tracker_get_final (seed_tracker_ m) in
  if sg_is_valid sg then (set_ref_loc (set_state SUCCESS m) sg, true)
  else (m, false).

Definition add_event (m : Mapper) (event : f32) : Mapper * bool :=
  if reset_ m || (event_i_ m >=? max_events_proc_ o) then
    (set_state FAILURE (set_reset false m), true)
  else event_step m event.

(** The loop of [Mapper::map_chunk], without its clock: the events popped
    from the normaliser go to [add_event] one after the other until it
    reports that the read is terminated. *)
Fixpoint add_events (m : Mapper) (events : list f32) : Mapper * bool :=
  match events with
  | [] => (m, false)
  | e :: rest =>
      let '(m', terminated) := add_event m e in
      if terminated then (m', true) else add_events m' rest
  end.

(** The members that an event step leaves alone when the tracker does not
    report a group. *)
Definition control (m : Mapper) :=
  (state_ m, reset_ m, last_chunk_ m, event_i_ m, prev_size_ m, read_ m,
   event_detector_ m, norm_ m).

(** The mapper in a result of [process_sample] or [process_samples]. *)
Definition sum_mapper (r : (Mapper * Z) + (Mapper * Z)) : Mapper :=
  match r with inl x => fst x | inr x => fst x end.

End MapperOps.

(** ** Notions used to state the properties *)

(** One call of [make_child]: the slot it overwrites and its arguments. *)
Record Extension : Type := mkExt {
  x_self : PathBuffer;
  x_range : Range;
  x_kmer : Z;
  x_prob : f32;
  x_type : EventType
}.

(** A path grown from [src] by successive calls of [make_child], the oldest
    extension first. *)
Definition extend (TB : Z) (G : PathStatics) (src : PathBuffer)
    (xs : list Extension) : PathBuffer :=
  fold_left
    (fun p x =>
       make_child TB G (x_self x) p (x_range x) (x_kmer x) (x_prob x) (x_type x))
    xs src.

(** The [j]-th field of [TYPE_BITS] bits of [event_types_], counted from the
    least-significant end; [type_tail] is field 0 and [type_head] is field
    [MAX_PATH_LEN - 2]. *)
Definition type_field (TB : Z) (G : PathStatics) (j : Z) (p : PathBuffer) : Z :=
  Z.land (Z.shiftr (event_types_ p) (TB * j)) (TYPE_MASK G).

(** The event types a window of [M - 1] entries retains of a history given
    oldest first, its oldest entry and its most recent one. *)
Definition retained (M : Z) (tys : list EventType) : list EventType :=
  drop (length tys - Z.to_nat (M - 1)) tys.

Definition oldest_retained (M : Z) (tys : list EventType) : EventType :=
  hd MATCH (retained M tys).

Definition most_recent (M : Z) (tys : list EventType) : EventType :=
  List.last (retained M tys) MATCH.

(** The five conditions of [is_seed_valid]; the third one, on the event type
    at the head of the window, is left open. *)
Definition seed_conditions (p : PathBuffer) (o : UncalledOpts)
    (path_ended : bool) (head_is_match : Prop) : Prop :=
  (range_length (fm_range_ p) = 1
   \/ (path_ended = true
       /\ range_length (fm_range_ p) <= max_rep_copy_ o
       /\ min_rep_len_ o <= match_len p))
  /\ seed_len_ o <= length_ p
  /\ (path_ended = true \/ head_is_match)
  /\ (path_ended = true
      \/ f32_le (f32_of_Z (zget 0 (path_type_counts_ p) (type_id STAY)))
                (f32_mul (max_stay_frac_ o) (f32_of_Z (seed_len_ o))) = true)
  /\ f32_ge (seed_prob_ p) (min_seed_prob_ o) = true.

(** The suffix-array indices of a range, in increasing order. *)
Definition range_indices (r : Range) : list Z :=
  map (fun i => start_ r + Z.of_nat i) (seq 0 (Z.to_nat (range_length r))).

(** ** Ranges of the FM index *)

Definition range_within (r k : Range) : Prop :=
  start_ k <= start_ r /\ end_ r <= end_ k.

Definition ranges_disjoint (a b : Range) : Prop :=
  forall x, ~ (start_ a <= x <= end_ a /\ start_ b <= x <= end_ b).

(** A path whose k-mer exists and whose range is a non-empty part of the
    range of its k-mer. *)
Definition in_kmer_range (o : UncalledOpts) (c : PathBuffer) : Prop :=
  0 <= kmer_ c < kmer_count (model_ o)
  /\ range_is_valid (fm_range_ c) = true
  /\ range_within (fm_range_ c) (kmer_fmrange o (kmer_ c)).

(** What the mapper expects of the FM index and of the k-mer model, which
    are external.  The ranges of distinct k-mers are disjoint.  No range of
    a k-mer reaches the coordinates 0 and [2^64 - 1], at which [start_ - 1]
    and [end_ + 1] wrap around.  The extension by a base [b] of a part of
    the range of a k-mer is, when it is not empty, a part of the range of
    the neighbour of the k-mer by [b]. *)
Definition fm_contract (ALPH_SIZE : Z) (o : UncalledOpts) : Prop :=
  (forall k1 k2,
     0 <= k1 < kmer_count (model_ o) -> 0 <= k2 < kmer_count (model_ o) ->
     k1 <> k2 -> ranges_disjoint (kmer_fmrange o k1) (kmer_fmrange o k2))
  /\ (forall k,
        0 <= k < kmer_count (model_ o) ->
        range_is_valid (kmer_fmrange o k) = true ->
        0 < start_ (kmer_fmrange o k)
        /\ end_ (kmer_fmrange o k) < 2 ^ 64 - 1)
  /\ (forall r k b,
        0 <= k < kmer_count (model_ o) -> 0 <= b < ALPH_SIZE ->
        range_is_valid r = true -> range_within r (kmer_fmrange o k) ->
        range_is_valid (fmi_get_neighbor (fmi_ o) r b) = true ->
        0 <= model_get_neighbor (model_ o) k b < kmer_count (model_ o)
        /\ range_within (fmi_get_neighbor (fmi_ o) r b)
             (kmer_fmrange o (model_get_neighbor (model_ o) k b))).


(** ** A list view of Phase C *)

Record Beam : Type := mkBeam {
  b_children : list PathBuffer;
  b_sources : list PathBuffer;
  b_free : list PathBuffer;
  b_prev_kmer : Z;
  b_unchecked : Range
}.

Definition beam_full (b : Beam) : bool :=
  match b_free b with [] => true | _ :: _ => false end.

Definition beam_push (b : Beam) (r : Range) (k : Z) (pr : f32) : Beam :=
  match b_free b with
  | [] => b
  | slot :: free =>
      mkBeam (b_children b) (b_sources b ++ [make_source slot r k pr]) free
        (b_prev_kmer b) (b_unchecked b)
  end.

Definition beam_push_valid (b : Beam) (r : Range) (k : Z) (pr : f32) : Beam :=
  if range_is_valid r then beam_push b r k pr else b.

Definition beam_set_unchecked (b : Beam) (u : Range) : Beam :=
  mkBeam (b_children b) (b_sources b) (b_free b) (b_prev_kmer b) u.

Definition beam_set_child (b : Beam) (i : nat) (c : PathBuffer) (pk : Z) : Beam :=
  mkBeam (<[i := c]> (b_children b)) (b_sources b) (b_free b) pk
    (b_unchecked b).

Definition mark_checked (TB : Z) (o : UncalledOpts) (p : PathBuffer) : PathBuffer :=
  if is_seed_valid TB (layout TB o) p o false then
    mkPath (fm_range_ p) (length_ p) (consec_stays_ p) (event_types_ p)
      (path_type_counts_ p) (kmer_ p) (seed_prob_ p) (prob_sums_ p) true
  else p.

Definition beam_before (o : UncalledOpts) (probs : list f32) (b : Beam)
    (cur : PathBuffer) : Beam :=
  let s := kmer_ cur in
  let pr := zget f32_zero probs s in
  if negb (s =? b_prev_kmer b) && negb (beam_full b)
     && f32_ge pr (get_source_prob o) then
    beam_set_unchecked
      (beam_push_valid b
         (mkRange (start_ (kmer_fmrange o s))
                  (u64 (start_ (fm_range_ cur) - 1)))
         s pr)
      (mkRange (u64 (end_ (fm_range_ cur) + 1)) (end_ (kmer_fmrange o s)))
  else b.

Definition beam_after (o : UncalledOpts) (probs : list f32) (b : Beam)
    (cur nxt : PathBuffer) (has_next : bool) : Beam :=
  let s := kmer_ cur in
  let pr := zget f32_zero probs s in
  if negb (beam_full b) && f32_ge pr (get_source_prob o) then
    let same_next := has_next && (s =? kmer_ nxt) in
    let u := b_unchecked b in
    let r :=
      if same_next then mkRange (start_ u) (u64 (start_ (fm_range_ nxt) - 1))
      else u in
    let u' :=
      if same_next && (start_ u <=? end_ (fm_range_ nxt))
      then mkRange (u64 (end_ (fm_range_ nxt) + 1)) (end_ u) else u in
    beam_push_valid (beam_set_unchecked b u') r s pr
  else b.

Definition beam_step (TB : Z) (o : UncalledOpts) (probs : list f32)
    (b : Beam) (i : nat) : Beam :=
  let d := new_path (layout TB o) in
  let cur := nth i (b_children b) d in
  let nxt := nth (S i) (b_children b) d in
  let has_next := (Z.of_nat i <? Z.of_nat (length (b_children b)) - 1) in
  let b1 := beam_before o probs b cur in
  if has_next && range_eq (fm_range_ cur) (fm_range_ nxt) then
    beam_set_child b1 i (invalidate cur) (kmer_ cur)
  else
    let b2 := beam_after o probs b1 cur nxt has_next in
    beam_set_child b2 i (mark_checked TB o cur) (kmer_ cur).

(** The array [next_paths_] and its iterator, seen as a beam. *)
Definition arr_of (nx : list PathBuffer) (np : Z) (b : Beam) : Prop :=
  nx = b_children b ++ b_sources b ++ b_free b
  /\ np = Z.of_nat (length (b_children b) + length (b_sources b)).

(** ** A small instance

    One-letter k-mers over {A, C, G, T}, the FM index of the text CAC$, a
    tracker that records its seeds, a detector that emits one event per
    sample and a normaliser with two places. *)

Module Tiny.

Definition TYPE_BITS : Z := 2.
Definition ALPH_SIZE : Z := 4.

Fixpoint insert_path (x : PathBuffer) (l : list PathBuffer)
    : list PathBuffer :=
  match l with
  | [] => [x]
  | y :: l' => if path_lt y x then y :: insert_path x l' else x :: l
  end.

Definition sort_paths (l : list PathBuffer) : list PathBuffer :=
  fold_right insert_path [] l.

Definition Seed : Type := Z * Z * Z.
Definition tracker_reset (t : list Seed) : list Seed := [].
Definition tracker_add_seed (t : list Seed) (ref_en ml evt : Z) : list Seed :=
  t ++ [(ref_en, ml, evt)].
Definition tracker_get_final (t : list Seed) : list Seed := t.
Definition sg_is_valid (sg : list Seed) : bool := 2 <=? Z.of_nat (length sg).

Definition ed_add_sample (d : f32) (s : f32) : f32 * bool := (s, true).
Definition ed_get_mean (d : f32) : f32 := d.
Definition ed_reset (d : f32) : f32 := f32_zero.

Definition norm_add_event (n : list f32) (e : f32) : list f32 * bool :=
  if Z.of_nat (length n) <? 2 then (n ++ [e], true) else (n, false).
Definition norm_skip_unread (n : list f32) (k : option Z) : list f32 * Z :=
  ([], Z.of_nat (length n)).

Definition Chunk : Type := Z * list f32.
Definition chunk_get_number (c : Chunk) : Z := fst c.
Definition chunk_clear (c : Chunk) : Chunk := (fst c, []).

Definition read_of_chunk (c : Chunk) : @ReadBuffer bool :=
  mkRead (fst c) 1 false (snd c) false.

Definition read_add_chunk (rd : @ReadBuffer bool) (c : Chunk)
    : @ReadBuffer bool * Chunk * bool :=
  (mkRead (number_ rd) (num_chunks_ rd + 1) false (snd c) (loc_ rd),
   (fst c, []), true).

Definition set_mapped (o : UncalledOpts) (sg : list Seed)
    (rd : @ReadBuffer bool) : bool := true.

(** The level of k-mer [k] is [10 k]; the score of an event [e] is
    [- |e - 10 k|]. *)
Definition model : KmerModel :=
  {| kmer_count := 4;
     event_match_prob :=
       fun e k => SFopp (SFabs (f32_sub e (f32_of_Z (10 * k))));
     model_get_neighbor := fun k b => b |}.

(** Text CAC$: suffix array [3; 1; 2; 0]; A occupies [1, 1], C [2, 3];
    the suffixes that start with CA are [3, 3], those with AC [1, 1]. *)
Definition fmi : BaseFMI :=
  {| fmi_size := 4;
     fmi_sa := fun s => zget 0 [3; 1; 2; 0] s;
     fmi_get_neighbor := fun r b =>
       if range_eq r (mkRange 1 1) && (b =? 1) then mkRange 3 3
       else if (start_ r =? 2) && (2 <=? end_ r) && (b =? 0) then mkRange 1 1
       else mkRange 1 0 |}.

Definition opts_at (thresh seed_len max_paths max_stay max_events
    max_chunks : Z) : UncalledOpts :=
  {| model_ := model; fmi_ := fmi; seed_len_ := seed_len;
     max_paths_ := max_paths; max_consec_stay_ := max_stay;
     max_rep_copy_ := 3; min_rep_len_ := 1;
     max_events_proc_ := max_events; max_chunks_proc_ := max_chunks;
     max_stay_frac_ := f32_of_Z 1; min_seed_prob_ := f32_of_Z thresh;
     get_prob_thresh := fun _ => f32_of_Z thresh;
     get_source_prob := f32_of_Z thresh;
     kmer_fmranges_ :=
       [mkRange 1 1; mkRange 2 3; mkRange 4 3; mkRange 4 3] |}.

Definition opts : Z -> Z -> Z -> Z -> Z -> UncalledOpts := opts_at (-5).

Definition TMapper : Type := @Mapper (list Seed) f32 (list f32) bool.

Definition init (o : UncalledOpts) : TMapper :=
  mapper_init TYPE_BITS tracker_reset o
    false false (mkRead 0 0 true [] false) [] f32_zero [].

Definition t_new_read (m : TMapper) (c : Chunk) : TMapper :=
  new_read tracker_reset ed_reset norm_skip_unread read_of_chunk m c.

Definition t_add_event (o : UncalledOpts) (m : TMapper) (e : Z)
    : TMapper * bool :=
  add_event TYPE_BITS ALPH_SIZE sort_paths tracker_add_seed
    tracker_get_final sg_is_valid set_mapped o m (f32_of_Z e).

Definition t_process_chunk (m : TMapper) : TMapper * Z :=
  process_chunk ed_add_sample ed_get_mean norm_add_event norm_skip_unread m.

Definition t_swap_chunk (o : UncalledOpts) (m : TMapper) (c : Chunk)
    : TMapper * Chunk * bool :=
  swap_chunk chunk_clear read_add_chunk o m c.

(** The same mapper beside a tracker that never reports a group. *)
Definition never_valid (sg : list Seed) : bool := false.

Definition t_add_events_no_hit (o : UncalledOpts) (m : TMapper)
    (es : list Z) : TMapper * bool :=
  add_events TYPE_BITS ALPH_SIZE sort_paths tracker_add_seed
    tracker_get_final never_valid set_mapped o m (map f32_of_Z es).

(** Seed length 3, two paths, no stay: a read on which the events A, C, C
    arrive. *)
Definition o2 : UncalledOpts := opts 3 2 0 5 0.
Definition m0 : TMapper := t_new_read (init o2) (7, []).
Definition m1 : TMapper := fst (t_add_event o2 m0 0).
Definition m2 : TMapper := fst (t_add_event o2 m1 10).
Definition m3 : TMapper := fst (t_add_event o2 m2 10).

(** [m2] with every flag of [sources_added_] cleared. *)
Definition m2_clean : TMapper :=
  set_sources_added [false; false; false; false] m2.

(** [m2] with a chunk of three samples to process. *)
Definition m2_chunk : TMapper :=
  set_read (mkRead 7 1 false [f32_of_Z 0; f32_of_Z 10; f32_of_Z 20] false) m2.

(** [m0] with its chunk processed. *)
Definition m0_processed : TMapper :=
  set_read (mkRead 7 1 true [] false) m0.

(** Thresholds at -7, six paths, two stays: after the events 0 and 4 the
    event 6 extends a stay on A and a match into C to the same two ranges.
    [after_extension] is the mapper after Phase B of that event. *)
Definition o6 : UncalledOpts := opts_at (-7) 3 6 2 50 0.
Definition a2 : TMapper :=
  fst (t_add_event o6 (fst (t_add_event o6 (t_new_read (init o6) (7, [])) 0)) 4).
Definition after_extension : TMapper * Z :=
  let mA := fill_kmer_probs o6 a2 (f32_of_Z 6) in
  extend_loop TYPE_BITS ALPH_SIZE tracker_add_seed o6
    (Z.to_nat (prev_size_ mA)) 0 mA 0.
Definition after_dedup : TMapper * Z :=
  dedup_phase TYPE_BITS sort_paths tracker_add_seed o6
    (fst after_extension) (snd after_extension).

(** The statics and a fresh slot for seed length 3. *)
Definition G3 : PathStatics := init_statics TYPE_BITS 3.
Definition slot : PathBuffer := new_path G3.

Definition ext (r : Range) (k : Z) (t : EventType) : Extension :=
  mkExt slot r k f32_zero t.

(** A source on C, a stay on it, then a match into the suffixes AC. *)
Definition stay_then_match : PathBuffer :=
  extend TYPE_BITS G3 (make_source slot (mkRange 2 2) 1 f32_zero)
    [ext (mkRange 2 2) 1 STAY; ext (mkRange 1 1) 0 MATCH].

End Tiny.

(** ** Notions for the bookkeeping of a path *)

(** The number of STAY events at the front of a list of event types, and at
    the end of a history given oldest first. *)
Fixpoint leading_stays (tys : list EventType) : nat :=
  match tys with
  | STAY :: tys' => S (leading_stays tys')
  | _ => 0%nat
  end.

Definition trailing_stays (tys : list EventType) : nat :=
  leading_stays (rev tys).

(** The number of events of type [t] in a list of event types. *)
Definition count_type (t : EventType) (tys : list EventType) : Z :=
  Z.of_nat (length (List.filter (fun u => type_id u =? type_id t) tys)).

(** The running sums of the probabilities of a path in binary32, added up
    from the left: [run_sums acc ps] starts at [acc], and the sums of a path
    whose source has probability [pr] start with 0 and [pr]. *)
Fixpoint run_sums (acc : f32) (ps : list f32) : list f32 :=
  match ps with
  | [] => [acc]
  | p :: ps' => acc :: run_sums (f32_add acc p) ps'
  end.

Definition prob_sums_of (pr : f32) (ps : list f32) : list f32 :=
  f32_zero :: run_sums pr ps.

(** The arrays of a slot as the constructor of [PathBuffer] and the class
    declare them: [NUM_TYPES] counters and [MAX_PATH_LEN + 1] sums. *)
Definition slot_ok (G : PathStatics) (s : PathBuffer) : Prop :=
  length (path_type_counts_ s) = Z.to_nat NUM_TYPES
  /\ length (prob_sums_ s) = Z.to_nat (MAX_PATH_LEN G + 1).

(** What [prob_sums_] holds on a path with [length ps] extensions: the
    entries in use are the last running sums, the oldest one first. *)
Definition sums_inv (G : PathStatics) (pr : f32) (ps : list f32)
    (q : PathBuffer) : Prop :=
  let M := MAX_PATH_LEN G in
  let n := length ps in
  let all := prob_sums_of pr ps in
  length (prob_sums_ q) = Z.to_nat (M + 1)
  /\ length_ q = Z.min (1 + Z.of_nat n) (M + 1)
  /\ forall j : nat,
       (j <= Nat.min (n + 1) (Z.to_nat M))%nat ->
       nth j (prob_sums_ q) f32_zero
       = nth (n + 1 - Z.to_nat M + j) all f32_zero.

(** A binary32 value that is not a number. *)
Definition f32_is_nan (x : f32) : bool :=
  match x with S754_nan => true | _ => false end.

(** The place of a number in the order of binary32: the class (negative
    infinity, negative, zero, positive, positive infinity), then exponent
    and mantissa, both negated on the negative side. *)
Definition f32_key (x : f32) : Z * Z * Z :=
  match x with
  | S754_infinity true => (0, 0, 0)
  | S754_finite true m e => (1, - e, - Z.pos m)
  | S754_zero _ => (2, 0, 0)
  | S754_finite false m e => (3, e, Z.pos m)
  | S754_infinity false => (4, 0, 0)
  | S754_nan => (5, 0, 0)
  end.

Definition key_lt (a b : Z * Z * Z) : Prop :=
  fst (fst a) < fst (fst b)
  \/ (fst (fst a) = fst (fst b)
      /\ (snd (fst a) < snd (fst b)
          \/ (snd (fst a) = snd (fst b) /\ snd a < snd b))).

(** Two paths that [operator<] does not order. *)
Definition path_equiv (p1 p2 : PathBuffer) : bool :=
  negb (path_lt p1 p2) && negb (path_lt p2 p1).

(** ** [Mapper::map_chunk] and the calls of a client *)

Section MapChunkOps.

Variable TYPE_BITS : Z.
Variable ALPH_SIZE : Z.
Variable pdqsort : list PathBuffer -> list PathBuffer.
Context {SeedTracker SeedGroup EventDetector Normalizer Chunk ReadLoc : Type}.

Variable tracker_reset : SeedTracker -> SeedTracker.
Variable tracker_add_seed : SeedTracker -> Z -> Z -> Z -> SeedTracker.
Variable tracker_get_final : SeedTracker -> SeedGroup.
Variable sg_is_valid : SeedGroup -> bool.
Variable ed_add_sample : EventDetector -> f32 -> EventDetector * bool.
Variable ed_get_mean : EventDetector -> f32.
Variable ed_reset : EventDetector -> EventDetector.
Variable norm_add_event : Normalizer -> f32 -> Normalizer * bool.
Variable norm_skip_unread : Normalizer -> option Z -> Normalizer * Z.
Variable chunk_clear : Chunk -> Chunk.
Variable read_of_chunk : Chunk -> @ReadBuffer ReadLoc.
Variable read_add_chunk :
  @ReadBuffer ReadLoc -> Chunk -> @ReadBuffer ReadLoc * Chunk * bool.
Variable set_mapped :
  UncalledOpts -> SeedGroup -> @ReadBuffer ReadLoc -> ReadLoc.

(** [norm_.empty()] and [norm_.pop_event()] of the external normaliser, and
    [opts_.get_max_events(event_i_)]. *)
Variable norm_empty : Normalizer -> bool.
Variable norm_pop_event : Normalizer -> Normalizer * f32.
Variable get_max_events : Z -> Z.

Variable o : UncalledOpts.

Local Abbreviation MapperT :=
  (@Mapper SeedTracker EventDetector Normalizer ReadLoc).

(** [Mapper::get_read] *)
Definition get_read (m : MapperT) : @ReadBuffer ReadLoc := read_ m.

(** The loop of [Mapper::map_chunk].  The clock is outside the program:
    [timed_out i] is the outcome of the test [t.get() > tlimit] in the
    iteration [i].  The counter [i] is a [u16] below [nevents], so that it
    does not wrap; the fuel is [nevents]. *)
Fixpoint map_loop (timed_out : Z -> bool) (fuel : nat) (i nevents : Z)
    (m : MapperT) : MapperT * bool :=
  match fuel with
  | O => (m, false)
  | S fuel' =>
      if (i <? nevents) && negb (norm_empty (norm_ m)) then
        let '(nm, event) := norm_pop_event (norm_ m) in
        let '(m', terminated) :=
          add_event TYPE_BITS ALPH_SIZE pdqsort tracker_add_seed
            tracker_get_final sg_is_valid set_mapped o (set_norm nm m) event in
        if terminated then (m', true)
        else if timed_out i then (m', false)
        else map_loop timed_out fuel' (i + 1) nevents m'
      else (m, false)
  end.

(** [Mapper::map_chunk] *)
Definition map_chunk (timed_out : Z -> bool) (m : MapperT) : MapperT * bool :=
  if reset_ m || (last_chunk_ m && norm_empty (norm_ m)) then
    (set_state FAILURE m, true)
  else
    let nevents := u16 (get_max_events (event_i_ m)) in
    map_loop timed_out (Z.to_nat nevents) 0 nevents m.

(** The calls of a client on a mapper; [CMapChunk] carries the clock of the
    call. *)
Inductive Call : Type :=
  | CNewRead (chunk : Chunk)
  | CSwapChunk (chunk : Chunk)
  | CProcessChunk
  | CMapChunk (timed_out : Z -> bool)
  | CAddEvent (event : f32)
  | CEndRead (number : Z)
  | CSkipEvents (n : Z)
  | CRequestReset
  | CEndReset
  | CDeactivate.

Definition call (m : MapperT) (c : Call) : MapperT :=
  match c with
  | CNewRead chunk =>
      new_read tracker_reset ed_reset norm_skip_unread read_of_chunk m chunk
  | CSwapChunk chunk =>
      fst (fst (swap_chunk chunk_clear read_add_chunk o m chunk))
  | CProcessChunk =>
      fst (process_chunk ed_add_sample ed_get_mean norm_add_event
             norm_skip_unread m)
  | CMapChunk timed_out => fst (map_chunk timed_out m)
  | CAddEvent event =>
      fst (add_event TYPE_BITS ALPH_SIZE pdqsort tracker_add_seed
             tracker_get_final sg_is_valid set_mapped o m event)
  | CEndRead number => fst (end_read m number)
  | CSkipEvents n => skip_events m (u32 n)
  | CRequestReset => request_reset m
  | CEndReset => end_reset m
  | CDeactivate => deactivate m
  end.

Definition calls (m : MapperT) (cs : list Call) : MapperT :=
  fold_left call cs m.

(** The sizes of the four vectors of a mapper. *)
Definition shape (m : MapperT) : nat * nat * nat * nat :=
  (length (prev_paths_ m), length (next_paths_ m),
   length (kmer_probs_ m), length (sources_added_ m)).

(** The entries of a generation that are in use. *)
Definition live (n : Z) (l : list PathBuffer) : list PathBuffer :=
  take (Z.to_nat n) l.

(** A beam whose slots all satisfy [W] and whose paths in use satisfy [P],
    in two vectors of one size that holds them. *)
Definition beam_holds (W P : PathBuffer -> Prop) (m : MapperT) : Prop :=
  Forall W (prev_paths_ m) /\ Forall W (next_paths_ m)
  /\ Forall P (live (prev_size_ m) (prev_paths_ m))
  /\ length (prev_paths_ m) = length (next_paths_ m)
  /\ 0 <= prev_size_ m <= Z.of_nat (length (prev_paths_ m)).

(** The generation being built up to the iterator [np], and the generation
    being extended: every slot satisfies [W], the paths in use [Q] and [P]
    respectively, and the iterator lies within the vector. *)
Definition next_ok (W Q : PathBuffer -> Prop) (m : MapperT) (np : Z) : Prop :=
  Forall W (next_paths_ m) /\ Forall Q (live np (next_paths_ m))
  /\ 0 <= np <= next_end m.

Definition prev_ok (W P : PathBuffer -> Prop) (m : MapperT) : Prop :=
  Forall W (prev_paths_ m) /\ Forall P (live (prev_size_ m) (prev_paths_ m)).

(** No path of either generation is a valid seed. *)
Definition no_seed (P Q : PathBuffer -> Prop) : Prop :=
  forall p pe,
    P p \/ Q p ->
    is_seed_valid TYPE_BITS (layout TYPE_BITS o) p o pe = false.

(** The members that the processing of samples leaves alone: the state
    and the flags, the four vectors and the tracker, and the identity of
    the read. *)
Definition held (m : MapperT) :=
  (state_ m, reset_ m, last_chunk_ m, prev_paths_ m, next_paths_ m,
   kmer_probs_ m, sources_added_ m, seed_tracker_ m,
   number_ (read_ m), num_chunks_ (read_ m), loc_ (read_ m)).

(** The k-mers for which Phase D appends a source when it reaches them. *)
Definition wants_source (m : MapperT) (kmer : Z) : bool :=
  negb (zget false (sources_added_ m) kmer)
  && f32_ge (zget f32_zero (kmer_probs_ m) kmer) (get_source_prob o)
  && range_is_valid (kmer_fmrange o kmer).

End MapChunkOps.

(** A path as [update_seeds] leaves it when it is a valid seed. *)
Definition set_checked (p : PathBuffer) : PathBuffer :=
  mkPath (fm_range_ p) (length_ p) (consec_stays_ p) (event_types_ p)
    (path_type_counts_ p) (kmer_ p) (seed_prob_ p) (prob_sums_ p) true.

(** Predicates that the operations on paths carry over, as the event step
    uses them: [W] on slots, [P] on the paths that are extended and [Q] on
    the paths that are built.  A STAY child is only made of a path with
    fewer than [max_consec_stay] stays and carries its range; a MATCH child
    and a source are only made with a range that is not empty. *)
Definition step_keeps (TB : Z) (o : UncalledOpts)
    (W P Q : PathBuffer -> Prop) : Prop :=
  (forall s r k pr, W s -> W (make_source s r k pr))
  /\ (forall s p r k pr ty,
        W s -> W p -> W (make_child TB (layout TB o) s p r k pr ty))
  /\ (forall p, W p -> W (invalidate p))
  /\ (forall p, W p -> W (set_checked p))
  /\ (forall p, P p -> P (set_checked p))
  /\ (forall s r k pr,
        W s -> range_is_valid r = true -> Q (make_source s r k pr))
  /\ (forall s p pr,
        W s -> W p -> P p -> is_valid p = true ->
        consec_stays_ p < max_consec_stay_ o ->
        Q (make_child TB (layout TB o) s p (fm_range_ p) (kmer_ p) pr STAY))
  /\ (forall s p r k pr,
        W s -> W p -> P p -> is_valid p = true -> range_is_valid r = true ->
        Q (make_child TB (layout TB o) s p r k pr MATCH))
  /\ (forall p, Q p -> Q (invalidate p))
  /\ (forall p, Q p -> Q (set_checked p)).

(** The calls that hand over or work on a chunk. *)
Definition chunk_call {Chunk : Type} (c : @Call Chunk) : bool :=
  match c with
  | CSwapChunk _ | CProcessChunk | CMapChunk _ => true
  | _ => false
  end.

Definition map_call {Chunk : Type} (c : @Call Chunk) : bool :=
  match c with CMapChunk _ => true | _ => false end.

(** ** The small instance under the calls of a client

    The normaliser of the small instance seen as a queue, a budget of two
    events for a call of [map_chunk], and a clock that never runs out. *)

Module TinyCalls.

Definition norm_empty (n : list f32) : bool :=
  match n with [] => true | _ :: _ => false end.

Definition norm_pop_event (n : list f32) : list f32 * f32 :=
  (tl n, hd f32_zero n).

Definition get_max_events (event_i : Z) : Z := 2.

Definition no_timeout (i : Z) : bool := false.

Definition t_call (o : UncalledOpts) (m : Tiny.TMapper)
    (c : @Call Tiny.Chunk) : Tiny.TMapper :=
  call Tiny.TYPE_BITS Tiny.ALPH_SIZE Tiny.sort_paths Tiny.tracker_reset
    Tiny.tracker_add_seed Tiny.tracker_get_final Tiny.sg_is_valid
    Tiny.ed_add_sample Tiny.ed_get_mean Tiny.ed_reset Tiny.norm_add_event
    Tiny.norm_skip_unread Tiny.chunk_clear Tiny.read_of_chunk
    Tiny.read_add_chunk Tiny.set_mapped norm_empty norm_pop_event
    get_max_events o m c.

Definition t_calls (o : UncalledOpts) (m : Tiny.TMapper)
    (cs : list (@Call Tiny.Chunk)) : Tiny.TMapper :=
  calls Tiny.TYPE_BITS Tiny.ALPH_SIZE Tiny.sort_paths Tiny.tracker_reset
    Tiny.tracker_add_seed Tiny.tracker_get_final Tiny.sg_is_valid
    Tiny.ed_add_sample Tiny.ed_get_mean Tiny.ed_reset Tiny.norm_add_event
    Tiny.norm_skip_unread Tiny.chunk_clear Tiny.read_of_chunk
    Tiny.read_add_chunk Tiny.set_mapped norm_empty norm_pop_event
    get_max_events o m cs.

Definition t_map_chunk (o : UncalledOpts) (m : Tiny.TMapper)
    : Tiny.TMapper * bool :=
  map_chunk Tiny.TYPE_BITS Tiny.ALPH_SIZE Tiny.sort_paths
    Tiny.tracker_add_seed Tiny.tracker_get_final Tiny.sg_is_valid
    Tiny.set_mapped norm_empty norm_pop_event get_max_events o no_timeout m.

(** A read with a chunk of three samples, processed and mapped. *)
Definition session : list (@Call Tiny.Chunk) :=
  [CNewRead (7, [f32_of_Z 0; f32_of_Z 10; f32_of_Z 10]);
   CProcessChunk; CMapChunk no_timeout; CAddEvent (f32_of_Z 10)].

Definition after_session : Tiny.TMapper :=
  t_calls Tiny.o2 (Tiny.init Tiny.o2) session.

(** The calls that lead to [Tiny.a2]: a read, then the events 0 and 4. *)
Definition two_events : list (@Call Tiny.Chunk) :=
  [CNewRead (7, []); CAddEvent (f32_of_Z 0); CAddEvent (f32_of_Z 4)].

(** [m1] with two events waiting in the normaliser. *)
Definition m1_waiting : Tiny.TMapper :=
  set_norm [f32_of_Z 10; f32_of_Z 10] Tiny.m1.

(** [m1] with the reset flag raised. *)
Definition m1_reset : Tiny.TMapper := request_reset Tiny.m1.

End TinyCalls.

(** * Properties *)

(** ** Bit fields *)

Lemma lor_shiftl_small (t K y : Z) :
  0 <= K -> 0 <= y < 2 ^ K -> Z.lor (Z.shiftl t K) y = t * 2 ^ K + y.
Proof.
  intros HK Hy.
  rewrite <- Z.shiftl_mul_pow2 by lia.
  rewrite <- Z.lxor_lor, <- Z.add_nocarry_lxor; trivial;
  apply Z.bits_inj'; intros n Hn; rewrite Z.land_spec, Z.bits_0;
  destruct (Z.ltb_spec n K).
  all: try (rewrite Z.shiftl_spec_low by lia; reflexivity).
  all: rewrite <- (Z.mod_small y (2 ^ K)) by lia;
       rewrite Z.mod_pow2_bits_high by lia; apply andb_false_r.
Qed.

Lemma u8_small x : 0 <= x < 256 -> u8 x = x.
Proof. intros; unfold u8; apply Z.mod_small; lia. Qed.
Lemma u32_small x : 0 <= x < 2 ^ 32 -> u32 x = x.
Proof. intros; unfold u32; apply Z.mod_small; lia. Qed.
Lemma u64_small x : 0 <= x < 2 ^ 64 -> u64 x = x.
Proof. intros; unfold u64; apply Z.mod_small; lia. Qed.

Lemma extend_snoc TB G src xs x :
  extend TB G src (xs ++ [x])
  = make_child TB G (x_self x) (extend TB G src xs) (x_range x) (x_kmer x)
      (x_prob x) (x_type x).
Proof. unfold extend. rewrite fold_left_app. reflexivity. Qed.

Section Layout.
Variables (TB seed_len : Z).
Hypothesis HTB : 1 <= TB <= 8.
Hypothesis HM : 2 <= u8 seed_len.
Hypothesis Hfit : TB * (u8 seed_len - 1) <= 32.

Let G := init_statics TB seed_len.
Let M := u8 seed_len.
Let K := TB * (M - 2).

Lemma statics_mask : TYPE_MASK G = 2 ^ TB - 1.
Proof.
  cbn. rewrite Z.shiftl_1_l. apply u8_small.
  assert (2 ^ TB <= 2 ^ 8) by (apply Z.pow_le_mono_r; lia).
  assert (0 < 2 ^ TB) by (apply Z.pow_pos_nonneg; lia). lia.
Qed.

Lemma statics_adds ty : zget 0 (TYPE_ADDS G) (type_id ty) = type_id ty * 2 ^ K.
Proof.
  assert (HK : 0 <= K) by (unfold K; nia).
  assert (2 ^ K < 2 ^ 32) by (apply Z.pow_lt_mono_r; unfold K, M; nia).
  assert (0 < 2 ^ K) by (apply Z.pow_pos_nonneg; lia).
  destruct ty; cbn -[Z.pow Z.mul zget];
    [change (zget 0 ?l 0) with (u32 (0 ≪ ((u8 seed_len - 2) * TB)))
    |change (zget 0 ?l 1) with (u32 (1 ≪ ((u8 seed_len - 2) * TB)))];
    replace ((u8 seed_len - 2) * TB) with K by (unfold K, M; ring).
  - rewrite Z.shiftl_0_l. reflexivity.
  - rewrite Z.shiftl_1_l. rewrite u32_small; lia.
Qed.

Lemma field_eq j p :
  0 <= j -> type_field TB G j p = (event_types_ p / 2 ^ (TB * j)) mod 2 ^ TB.
Proof.
  intros Hj. unfold type_field. rewrite statics_mask.
  rewrite Z.shiftr_div_pow2 by nia.
  replace (2 ^ TB - 1) with (Z.ones TB) by (rewrite Z.ones_equiv; lia).
  apply Z.land_ones. lia.
Qed.

Definition window_ok (p : PathBuffer) : Prop :=
  0 <= event_types_ p < 2 ^ (TB * (M - 1)).

Lemma make_child_event_types self p r k pr ty :
  window_ok p ->
  event_types_ (make_child TB G self p r k pr ty)
  = type_id ty * 2 ^ K + event_types_ p / 2 ^ TB.
Proof.
  intros [H0 H1].
  assert (HK : 0 <= K) by (unfold K; nia).
  assert (HTBpos : 0 < 2 ^ TB) by (apply Z.pow_pos_nonneg; lia).
  assert (Hsplit : 2 ^ (TB * (M - 1)) = 2 ^ TB * 2 ^ K).
  { rewrite <- Z.pow_add_r by lia. f_equal. unfold K. ring. }
  assert (Hy : 0 <= event_types_ p / 2 ^ TB < 2 ^ K).
  { split. apply Z.div_pos; lia. apply Z.div_lt_upper_bound; lia. }
  assert (Hid : 0 <= type_id ty <= 1) by (destruct ty; cbn; lia).
  assert (H32 : 2 ^ (TB * (M - 1)) <= 2 ^ 32)
    by (apply Z.pow_le_mono_r; unfold M; lia).
  assert (Hets :
    u32 (Z.lor (zget 0 (TYPE_ADDS G) (type_id ty))
               (Z.shiftr (event_types_ p) TB))
    = type_id ty * 2 ^ K + event_types_ p / 2 ^ TB).
  { rewrite statics_adds, Z.shiftr_div_pow2 by lia.
    rewrite <- (Z.shiftl_mul_pow2 (type_id ty) K) by lia.
    rewrite lor_shiftl_small by lia.
    rewrite !Z.shiftl_mul_pow2 by lia.
    assert (2 ^ 1 <= 2 ^ TB) by (apply Z.pow_le_mono_r; lia).
    assert (0 < 2 ^ K) by (apply Z.pow_pos_nonneg; lia).
    apply u32_small. split; [nia|].
    apply Z.lt_le_trans with (2 ^ TB * 2 ^ K); [nia | lia]. }
  unfold make_child.
  match goal with |- event_types_ (if ?c then _ else _) = _ => destruct c end;
    cbn [event_types_]; exact Hets.
Qed.

Lemma child_window_ok self p r k pr ty :
  window_ok p -> window_ok (make_child TB G self p r k pr ty).
Proof.
  intros Hp. unfold window_ok. rewrite make_child_event_types by exact Hp.
  destruct Hp as [H0 H1].
  assert (HK : 0 <= K) by (unfold K; nia).
  assert (Hsplit : 2 ^ (TB * (M - 1)) = 2 ^ TB * 2 ^ K).
  { rewrite <- Z.pow_add_r by lia. f_equal. unfold K. ring. }
  assert (HTBpos : 0 < 2 ^ TB) by (apply Z.pow_pos_nonneg; lia).
  assert (Hy : 0 <= event_types_ p / 2 ^ TB < 2 ^ K).
  { split. apply Z.div_pos; lia. apply Z.div_lt_upper_bound; lia. }
  assert (Hid : 0 <= type_id ty <= 1) by (destruct ty; cbn; lia).
  assert (2 ^ 1 <= 2 ^ TB) by (apply Z.pow_le_mono_r; lia).
  assert (0 < 2 ^ K) by (apply Z.pow_pos_nonneg; lia).
  rewrite Hsplit. nia.
Qed.

Lemma child_head self p r k pr ty :
  window_ok p ->
  type_field TB G (M - 2) (make_child TB G self p r k pr ty) = type_id ty.
Proof.
  intros Hp. rewrite field_eq by (unfold M; lia).
  rewrite make_child_event_types by exact Hp.
  destruct Hp as [H0 H1]. fold K.
  assert (HK : 0 <= K) by (unfold K; nia).
  assert (Hsplit : 2 ^ (TB * (M - 1)) = 2 ^ TB * 2 ^ K).
  { rewrite <- Z.pow_add_r by lia. f_equal. unfold K. ring. }
  assert (HTBpos : 0 < 2 ^ TB) by (apply Z.pow_pos_nonneg; lia).
  assert (Hy : 0 <= event_types_ p / 2 ^ TB < 2 ^ K).
  { split. apply Z.div_pos; lia. apply Z.div_lt_upper_bound; lia. }
  assert (0 < 2 ^ K) by (apply Z.pow_pos_nonneg; lia).
  rewrite Z.div_add_l by lia.
  rewrite (Z.div_small (event_types_ p / 2 ^ TB)) by lia.
  rewrite Z.add_0_r. apply Z.mod_small.
  assert (2 ^ 1 <= 2 ^ TB) by (apply Z.pow_le_mono_r; lia).
  destruct ty; cbn; lia.
Qed.

Lemma child_shift self p r k pr ty j :
  window_ok p -> 0 <= j < M - 2 ->
  type_field TB G j (make_child TB G self p r k pr ty)
  = type_field TB G (j + 1) p.
Proof.
  intros Hp Hj. rewrite !field_eq by lia.
  rewrite make_child_event_types by exact Hp.
  assert (HTBpos : 0 < 2 ^ TB) by (apply Z.pow_pos_nonneg; lia).
  assert (Hj0 : 0 <= TB * j) by nia.
  assert (Hjpos : 0 < 2 ^ (TB * j)) by (apply Z.pow_pos_nonneg; lia).
  assert (HK : K = TB * j + (TB + TB * (M - 3 - j))) by (unfold K; ring).
  assert (Hr : 0 <= TB * (M - 3 - j)) by nia.
  rewrite HK, !Z.pow_add_r by lia.
  replace (type_id ty * (2 ^ (TB * j) * (2 ^ TB * 2 ^ (TB * (M - 3 - j)))))
    with (type_id ty * 2 ^ (TB * (M - 3 - j)) * 2 ^ TB * 2 ^ (TB * j)) by ring.
  rewrite Z.div_add_l by lia.
  rewrite Z.add_comm, Z.mod_add by lia.
  rewrite Z.div_div by lia.
  replace (TB * (j + 1)) with (TB + TB * j) by ring.
  rewrite Z.pow_add_r by lia. reflexivity.
Qed.


Lemma extend_window_ok src xs :
  window_ok src -> window_ok (extend TB G src xs).
Proof.
  intros Hs. induction xs as [|x xs IH] using rev_ind; [exact Hs|].
  rewrite extend_snoc. apply child_window_ok, IH.
Qed.

Lemma extend_fields src xs :
  window_ok src ->
  forall i : nat, (i < length xs)%nat -> Z.of_nat i <= M - 2 ->
    type_field TB G (M - 2 - Z.of_nat i) (extend TB G src xs)
    = type_id (nth i (rev (map x_type xs)) MATCH).
Proof.
  intros Hs. induction xs as [|x xs IH] using rev_ind; intros i Hi HiM.
  - cbn in Hi. lia.
  - rewrite extend_snoc, map_app, rev_app_distr. cbn [map rev app].
    destruct i as [|i].
    + cbn [nth]. replace (M - 2 - Z.of_nat 0) with (M - 2) by lia.
      apply child_head, extend_window_ok, Hs.
    + cbn [nth]. rewrite length_app in Hi. cbn in Hi.
      rewrite child_shift by (try apply extend_window_ok; trivial; lia).
      replace (M - 2 - Z.of_nat (S i) + 1) with (M - 2 - Z.of_nat i) by lia.
      apply IH; lia.
Qed.

Lemma source_window_ok self r k pr : window_ok (make_source self r k pr).
Proof.
  unfold window_ok. cbn [event_types_ make_source]. split; [lia|].
  apply Z.pow_pos_nonneg; [lia | unfold M; nia].
Qed.

Lemma type_head_field p : type_head TB G p = type_field TB G (M - 2) p.
Proof. reflexivity. Qed.

Lemma type_tail_field p : type_tail G p = type_field TB G 0 p.
Proof.
  unfold type_tail, type_field. rewrite Z.mul_0_r, Z.shiftr_0_r. reflexivity.
Qed.
End Layout.

Lemma hd_drop {A} (d : A) (k : nat) (l : list A) : hd d (drop k l) = nth k l d.
Proof.
  revert l. induction k as [|k IH]; intros [|a l]; cbn; trivial.
Qed.

Lemma last_drop {A} (d : A) (k : nat) (l : list A) :
  (k < length l)%nat -> List.last (drop k l) d = List.last l d.
Proof.
  revert k. induction l as [|a l IH]; intros k Hk; [cbn in Hk; lia|].
  destruct k as [|k]; [reflexivity|].
  cbn [drop]. cbn in Hk. rewrite IH by lia.
  destruct l; [cbn in Hk; lia | reflexivity].
Qed.

Lemma last_nth_rev {A} (d : A) (l : list A) : List.last l d = nth 0 (rev l) d.
Proof.
  induction l as [|a l IH] using rev_ind; [reflexivity|].
  rewrite last_last, rev_app_distr. reflexivity.
Qed.

Lemma most_recent_rev M tys :
  2 <= M -> tys <> [] -> most_recent M tys = nth 0 (rev tys) MATCH.
Proof.
  intros HM Hne. unfold most_recent, retained.
  rewrite last_drop, last_nth_rev; trivial.
  destruct tys; [congruence | cbn [length]; lia].
Qed.

Lemma oldest_retained_rev M tys :
  2 <= M -> M - 1 <= Z.of_nat (length tys) ->
  oldest_retained M tys = nth (Z.to_nat (M - 2)) (rev tys) MATCH.
Proof.
  intros HM Hlen. unfold oldest_retained, retained.
  rewrite hd_drop, rev_nth by lia. f_equal. lia.
Qed.


Lemma make_child_length_eq TB G self p r k pr ty :
  length_ (make_child TB G self p r k pr ty)
  = u8 (length_ p + b2z (length_ p <=? MAX_PATH_LEN G)).
Proof.
  unfold make_child.
  match goal with |- length_ (if ?c then _ else _) = _ => destruct c end;
    reflexivity.
Qed.

Lemma is_seed_valid_conditions TB G p o pe :
  is_seed_valid TB G p o pe = true
  <-> seed_conditions p o pe (type_head TB G p = type_id MATCH).
Proof.
  unfold is_seed_valid, seed_conditions.
  rewrite !andb_true_iff, !orb_true_iff, !andb_true_iff.
  rewrite Z.eqb_eq, Z.leb_le, !Z.geb_le, Z.eqb_eq.
  tauto.
Qed.

Lemma type_id_inj a b : type_id a = type_id b -> a = b.
Proof. destruct a, b; cbn; congruence. Qed.

(** The head of the window of a grown path is the type of its last
    extension. *)
Lemma extend_type_head (TB seed_len : Z) self r k pr (xs : list Extension) :
  1 <= TB <= 8 -> 2 <= u8 seed_len -> TB * (u8 seed_len - 1) <= 32 ->
  type_head TB (init_statics TB seed_len)
    (extend TB (init_statics TB seed_len) (make_source self r k pr) xs)
  = type_id (most_recent (u8 seed_len) (map x_type xs)).
Proof.
  intros HTB HM Hfit.
  destruct xs as [|x0 xs0] eqn:Exs.
  - unfold type_head. cbn [extend fold_left event_types_ make_source].
    rewrite Z.shiftr_0_l. reflexivity.
  - rewrite <- Exs.
    assert (Hne : xs <> []) by (rewrite Exs; discriminate).
    assert (Hsrc : window_ok TB seed_len (make_source self r k pr))
      by (apply source_window_ok; assumption).
    assert (Hf := extend_fields TB seed_len HTB HM Hfit _ xs Hsrc).
    change (type_head TB ?g ?c) with (type_field TB g (u8 seed_len - 2) c).
    rewrite most_recent_rev;
      [|lia|destruct xs; [congruence | discriminate]].
    specialize (Hf 0%nat). cbn [Z.of_nat] in Hf.
    rewrite Z.sub_0_r in Hf. apply Hf; [|lia].
    destruct xs; [congruence | cbn; lia].
Qed.

(** ** Claims on [PathBuffer] *)

(** C1 (as amended).  [is_seed_valid] returns true exactly when the five
    conditions hold, the third one being [path_ended] or
    [type_head() == MATCH].  [type_head()] reads the field
    [MAX_PATH_LEN - 2] of the window, which holds the type of the most
    recent event: on a path grown from a source by [make_child], the third
    condition says that the path has ended or that its last extension was
    a MATCH. *)
Theorem is_seed_valid_spec (TB : Z) (o : UncalledOpts) (self : PathBuffer)
    (r : Range) (k : Z) (pr : f32) (xs : list Extension) (path_ended : bool) :
  1 <= TB <= 8 -> 2 <= u8 (seed_len_ o) -> TB * (u8 (seed_len_ o) - 1) <= 32 ->
  let G := init_statics TB (seed_len_ o) in
  let q := extend TB G (make_source self r k pr) xs in
  (forall p : PathBuffer,
     is_seed_valid TB G p o path_ended = true
     <-> seed_conditions p o path_ended (type_head TB G p = type_id MATCH))
  /\ (is_seed_valid TB G q o path_ended = true
      <-> seed_conditions q o path_ended
            (most_recent (MAX_PATH_LEN G) (map x_type xs) = MATCH)).
Proof.
  intros HTB HM Hfit G q. split.
  - intros p. apply is_seed_valid_conditions.
  - rewrite is_seed_valid_conditions. subst q G.
    rewrite extend_type_head by assumption.
    change (MAX_PATH_LEN (init_statics TB (seed_len_ o)))
      with (u8 (seed_len_ o)).
    unfold seed_conditions.
    split; intros (H1 & H2 & H3 & H4 & H5);
      (split; [exact H1 | split; [exact H2 | split;
         [| split; [exact H4 | exact H5]]]]);
      (destruct H3 as [H3|H3]; [left; exact H3 | right]).
    + apply type_id_inj, H3.
    + rewrite H3. reflexivity.
Qed.

Lemma is_seed_valid_spec_witness :
  (1 <= 2 <= 8 /\ 2 <= u8 3 /\ 2 * (u8 3 - 1) <= 32)
  /\ (is_seed_valid 2 Tiny.G3 Tiny.stay_then_match
        (Tiny.opts 3 2 0 5 0) false = true
      <-> seed_conditions Tiny.stay_then_match (Tiny.opts 3 2 0 5 0) false
            (most_recent 3 [STAY; MATCH] = MATCH)).
Proof.
  split; [vm_compute; intuition discriminate|].
  apply (proj2 (is_seed_valid_spec 2 (Tiny.opts 3 2 0 5 0) Tiny.slot
                  (mkRange 2 2) 1 f32_zero
                  [Tiny.ext (mkRange 2 2) 1 STAY; Tiny.ext (mkRange 1 1) 0 MATCH]
                  false
                  ltac:(lia) ltac:(vm_compute; discriminate)
                  ltac:(vm_compute; discriminate))).
Defined.

(** C1 as stated fails: the path below is a valid seed although the oldest
    event type its window retains is a STAY. *)
Lemma seed_valid_with_oldest_stay :
  let q := Tiny.stay_then_match in
  let o := Tiny.opts 3 2 0 5 0 in
  oldest_retained (MAX_PATH_LEN Tiny.G3) [STAY; MATCH] = STAY
  /\ is_seed_valid 2 Tiny.G3 q o false = true
  /\ ~ (is_seed_valid 2 Tiny.G3 q o false = true
        <-> seed_conditions q o false
              (oldest_retained (MAX_PATH_LEN Tiny.G3) [STAY; MATCH] = MATCH)).
Proof.
  cbv zeta. split; [reflexivity|]. split; [vm_compute; reflexivity|].
  intros [H _].
  assert (Hv : is_seed_valid 2 Tiny.G3 Tiny.stay_then_match
                 (Tiny.opts 3 2 0 5 0) false = true)
    by (vm_compute; reflexivity).
  destruct (H Hv) as (_ & _ & [H3|H3] & _); vm_compute in H3; discriminate.
Qed.

(** C2 (as amended).  [make_child] sets the length of the child to
    [min(P.length + 1, MAX_PATH_LEN + 1)]: the length stops at
    [MAX_PATH_LEN + 1], the value that marks a window that slides, and a
    path grown from a source by [n] extensions has length
    [min(1 + n, MAX_PATH_LEN + 1)]. *)
Theorem path_length_cap (TB : Z) (G : PathStatics) :
  0 <= MAX_PATH_LEN G <= 254 ->
  (forall self p r k pr ty,
     0 <= length_ p <= MAX_PATH_LEN G + 1 ->
     length_ (make_child TB G self p r k pr ty)
     = Z.min (length_ p + 1) (MAX_PATH_LEN G + 1))
  /\ (forall self r k pr xs,
        length_ (extend TB G (make_source self r k pr) xs)
        = Z.min (1 + Z.of_nat (length xs)) (MAX_PATH_LEN G + 1)).
Proof.
  intros HM.
  assert (Hstep : forall self p r k pr ty,
     0 <= length_ p <= MAX_PATH_LEN G + 1 ->
     length_ (make_child TB G self p r k pr ty)
     = Z.min (length_ p + 1) (MAX_PATH_LEN G + 1)).
  { intros self p r k pr ty Hp. rewrite make_child_length_eq.
    destruct (Z.leb_spec (length_ p) (MAX_PATH_LEN G)); cbn [b2z];
      rewrite u8_small; lia. }
  split; [exact Hstep|].
  intros self r k pr xs. induction xs as [|x xs IH] using rev_ind.
  - cbn. lia.
  - rewrite extend_snoc, Hstep; rewrite IH; rewrite ?length_app;
      cbn [length]; lia.
Qed.

Lemma path_length_cap_witness :
  0 <= MAX_PATH_LEN Tiny.G3 <= 254
  /\ length_ Tiny.stay_then_match
     = Z.min (1 + 2) (MAX_PATH_LEN Tiny.G3 + 1).
Proof.
  split; [vm_compute; split; discriminate|].
  apply (proj2 (path_length_cap Tiny.TYPE_BITS Tiny.G3
                  ltac:(vm_compute; split; discriminate))).
Defined.

(** C2 as stated fails: a parent of length [MAX_PATH_LEN] has a child of
    length [MAX_PATH_LEN + 1]. *)
Lemma child_length_exceeds_max_path_len :
  let p := Tiny.stay_then_match in
  let c := make_child Tiny.TYPE_BITS Tiny.G3 Tiny.slot p (mkRange 1 1) 0
             f32_zero STAY in
  MAX_PATH_LEN Tiny.G3 = 3 /\ length_ p = 3 /\ length_ c = 4
  /\ length_ c <> Z.min (length_ p + 1) (MAX_PATH_LEN Tiny.G3)
  /\ MAX_PATH_LEN Tiny.G3 < length_ c.
Proof. vm_compute. repeat split; congruence. Qed.

(** C3 (as amended).  The packed [event_types_] stores the most recent
    event type in its most-significant field, number [MAX_PATH_LEN - 2], and
    older types in the fields below it, the [i]-th most recent one in field
    [MAX_PATH_LEN - 2 - i]; [make_child] inserts the new type at the high
    end and moves every other field one place down, so that the lowest
    field, the oldest type, is dropped.  [type_head()] returns the most
    recent event type, and [type_tail()] the oldest retained one once the
    window is full. *)
Theorem event_types_window (TB seed_len : Z) (self : PathBuffer) (r : Range)
    (k : Z) (pr : f32) (xs : list Extension) :
  1 <= TB <= 8 -> 2 <= u8 seed_len -> TB * (u8 seed_len - 1) <= 32 ->
  xs <> [] ->
  let G := init_statics TB seed_len in
  let M := MAX_PATH_LEN G in
  let q := extend TB G (make_source self r k pr) xs in
  let tys := map x_type xs in
  (forall i : nat, (i < length xs)%nat -> Z.of_nat i <= M - 2 ->
     type_field TB G (M - 2 - Z.of_nat i) q = type_id (nth i (rev tys) MATCH))
  /\ type_head TB G q = type_id (most_recent M tys)
  /\ (M - 1 <= Z.of_nat (length xs) ->
      type_tail G q = type_id (oldest_retained M tys))
  /\ (forall x,
        let c := extend TB G (make_source self r k pr) (xs ++ [x]) in
        type_head TB G c = type_id (x_type x)
        /\ forall j, 0 <= j < M - 2 ->
             type_field TB G j c = type_field TB G (j + 1) q).
Proof.
  intros HTB HM Hfit Hne G M q tys.
  assert (Hsrc : window_ok TB seed_len (make_source self r k pr))
    by (apply source_window_ok; assumption).
  assert (Hf := extend_fields TB seed_len HTB HM Hfit _ xs Hsrc).
  assert (Hlen : (0 < length xs)%nat) by (destruct xs; [congruence | cbn; lia]).
  subst q tys M G.
  change (MAX_PATH_LEN (init_statics TB seed_len)) with (u8 seed_len).
  repeat split.
  - exact Hf.
  - apply extend_type_head; assumption.
  - intros Hfull. rewrite type_tail_field by trivial.
    rewrite oldest_retained_rev; rewrite ?length_map; try lia.
    specialize (Hf (Z.to_nat (u8 seed_len - 2))).
    replace (u8 seed_len - 2 - Z.of_nat (Z.to_nat (u8 seed_len - 2))) with 0
      in Hf by lia.
    apply Hf; lia.
  - rewrite extend_snoc.
    change (type_head TB ?g ?c) with (type_field TB g (u8 seed_len - 2) c).
    apply child_head; trivial. apply extend_window_ok; trivial.
  - intros j Hj. rewrite extend_snoc.
    apply child_shift; trivial. apply extend_window_ok; trivial.
Qed.


Lemma event_types_window_witness :
  (1 <= 2 <= 8 /\ 2 <= u8 3 /\ 2 * (u8 3 - 1) <= 32)
  /\ type_head 2 Tiny.G3 Tiny.stay_then_match
     = type_id (most_recent 3 [STAY; MATCH])
  /\ type_tail Tiny.G3 Tiny.stay_then_match
     = type_id (oldest_retained 3 [STAY; MATCH]).
Proof.
  split; [vm_compute; intuition discriminate|].
  pose proof (event_types_window 2 3 Tiny.slot (mkRange 2 2) 1 f32_zero
                [Tiny.ext (mkRange 2 2) 1 STAY; Tiny.ext (mkRange 1 1) 0 MATCH]
                ltac:(lia) ltac:(vm_compute; discriminate)
                ltac:(vm_compute; discriminate) ltac:(discriminate))
    as (_ & Hh & Ht & _).
  split; [exact Hh | apply Ht; vm_compute; discriminate].
Defined.

(** C3 as stated fails: after a STAY and then a MATCH the least-significant
    field holds the STAY, the older of the two, and the field read by
    [type_head()] holds the MATCH, the more recent one. *)
Lemma head_is_most_recent_not_oldest :
  let q := Tiny.stay_then_match in
  most_recent 3 [STAY; MATCH] = MATCH
  /\ oldest_retained 3 [STAY; MATCH] = STAY
  /\ event_types_ q = 1
  /\ type_field 2 Tiny.G3 0 q = type_id STAY
  /\ type_head 2 Tiny.G3 q <> type_id (oldest_retained 3 [STAY; MATCH])
  /\ type_tail Tiny.G3 q <> type_id (most_recent 3 [STAY; MATCH]).
Proof. vm_compute. repeat split; congruence. Qed.

(** ** Claims on the life cycle *)

Section MapperProps.

Context {SeedTracker SeedGroup EventDetector Normalizer Chunk ReadLoc : Type}.

Variables TYPE_BITS ALPH_SIZE : Z.
Variable pdqsort : list PathBuffer -> list PathBuffer.
Variable tracker_add_seed : SeedTracker -> Z -> Z -> Z -> SeedTracker.
Variable tracker_get_final : SeedTracker -> SeedGroup.
Variable sg_is_valid : SeedGroup -> bool.
Variable ed_add_sample : EventDetector -> f32 -> EventDetector * bool.
Variable ed_get_mean : EventDetector -> f32.
Variable norm_add_event : Normalizer -> f32 -> Normalizer * bool.
Variable norm_skip_unread : Normalizer -> option Z -> Normalizer * Z.
Variable chunk_clear : Chunk -> Chunk.
Variable read_add_chunk :
  @ReadBuffer ReadLoc -> Chunk -> @ReadBuffer ReadLoc * Chunk * bool.
Variable set_mapped : UncalledOpts -> SeedGroup -> @ReadBuffer ReadLoc -> ReadLoc.
Variable o : UncalledOpts.

Local Abbreviation MapperT := (@Mapper SeedTracker EventDetector Normalizer ReadLoc).
Local Abbreviation L := (layout TYPE_BITS o).

(** *** The seed loop *)

Lemma seed_loop_fold (n : nat) :
  forall s p evt trk,
    n = Z.to_nat (end_ (fm_range_ p) - s + 1) ->
    seed_loop tracker_add_seed o n s p evt trk
    = fold_left (add_one_seed tracker_add_seed o p evt)
        (map (fun i => s + Z.of_nat i) (seq 0 n)) trk.
Proof.
  induction n as [|n IH]; intros s p evt trk Hn; [reflexivity|].
  cbn [seed_loop]. destruct (Z.leb_spec s (end_ (fm_range_ p))); [|lia].
  rewrite IH by lia. cbn [seq map fold_left].
  rewrite Z.add_0_r. f_equal.
  rewrite <- seq_shift, map_map. apply map_ext. intros i. lia.
Qed.

Lemma range_indices_spec (r : Range) (s : Z) :
  In s (range_indices r) <-> start_ r <= s <= end_ r.
Proof.
  unfold range_indices, range_length. rewrite in_map_iff. split.
  - intros (i & <- & Hi). apply in_seq in Hi. lia.
  - intros Hs. exists (Z.to_nat (s - start_ r)). split; [lia|].
    apply in_seq. lia.
Qed.

(** C5.  [update_seeds] leaves the path and the tracker as they are when
    [is_seed_valid] is false; otherwise it sets [sa_checked_] and calls
    [add_seed] once for every [s] of [fm_range_.start_ .. fm_range_.end_],
    in increasing order, with [ref_en = fmi.size() - fmi.sa(s) + 1], the
    match length of the path and [event_i_ - path_ended]. *)
Theorem update_seeds_spec (m : MapperT) (p : PathBuffer) (path_ended : bool) :
  update_seeds TYPE_BITS tracker_add_seed o m p path_ended
  = (if is_seed_valid TYPE_BITS L p o path_ended then
       (set_seed_tracker
          (fold_left
             (fun trk s =>
                tracker_add_seed trk
                  (u64 (fmi_size (fmi_ o) - fmi_sa (fmi_ o) s + 1))
                  (match_len p) (u32 (event_i_ m - b2z path_ended)))
             (range_indices (fm_range_ p)) (seed_tracker_ m)) m,
        mkPath (fm_range_ p) (length_ p) (consec_stays_ p) (event_types_ p)
          (path_type_counts_ p) (kmer_ p) (seed_prob_ p) (prob_sums_ p) true)
     else (m, p))
  /\ (forall s, In s (range_indices (fm_range_ p))
                <-> start_ (fm_range_ p) <= s <= end_ (fm_range_ p))
  /\ (forall i j d, (i < j < length (range_indices (fm_range_ p)))%nat ->
        nth i (range_indices (fm_range_ p)) d
        < nth j (range_indices (fm_range_ p)) d).
Proof.
  split; [|split].
  - unfold update_seeds.
    destruct (is_seed_valid TYPE_BITS L p o path_ended); [|reflexivity].
    cbn [fm_range_]. rewrite seed_loop_fold.
    + reflexivity.
    + unfold range_length. cbn [fm_range_]. f_equal.
  - apply range_indices_spec.
  - intros i j d Hij. unfold range_indices in *.
    rewrite length_map, length_seq in Hij.
    rewrite !(nth_indep _ d (start_ (fm_range_ p) + Z.of_nat 0)) by
      (rewrite length_map, length_seq; lia).
    rewrite !(map_nth (fun i => start_ (fm_range_ p) + Z.of_nat i)).
    rewrite !seq_nth by lia. lia.
Qed.

(** C7.  After [end_read(n)] the reset flag is raised exactly when [n] is
    the number of the current read, whatever the flag was before; the call
    returns the flag and changes nothing else. *)
Theorem end_read_reset (m : MapperT) (n : Z) :
  (reset_ (fst (end_read m n)) = true <-> n = number_ (read_ m))
  /\ snd (end_read m n) = reset_ (fst (end_read m n))
  /\ fst (end_read m n) = set_reset (reset_ (fst (end_read m n))) m.
Proof.
  unfold end_read. cbn [fst snd set_reset reset_].
  repeat split; try reflexivity.
  - intros H. apply Z.eqb_eq in H. congruence.
  - intros ->. apply Z.eqb_refl.
Qed.

(** C8 (as amended).  [swap_chunk] returns false and changes neither the
    mapper nor the chunk when the current chunk has not been processed or a
    reset is pending.  Otherwise, when [max_chunks_proc] is positive and
    the read holds exactly [max_chunks_proc] chunks, it sets the state to
    FAILURE, raises the reset flag, clears the chunk and returns true.  In
    every other case, a [max_chunks_proc] of zero included, it hands the
    chunk to [ReadBuffer::add_chunk] and returns its result. *)
Theorem swap_chunk_spec (m : MapperT) (chunk : Chunk) :
  (chunk_processed_ (read_ m) = false \/ reset_ m = true ->
   swap_chunk chunk_clear read_add_chunk o m chunk = (m, chunk, false))
  /\ (chunk_processed_ (read_ m) = true -> reset_ m = false ->
      0 < max_chunks_proc_ o -> num_chunks_ (read_ m) = max_chunks_proc_ o ->
      swap_chunk chunk_clear read_add_chunk o m chunk
      = (set_reset true (set_state FAILURE m), chunk_clear chunk, true))
  /\ (chunk_processed_ (read_ m) = true -> reset_ m = false ->
      max_chunks_proc_ o <= 0 \/ num_chunks_ (read_ m) <> max_chunks_proc_ o ->
      swap_chunk chunk_clear read_add_chunk o m chunk
      = (set_read (fst (fst (read_add_chunk (read_ m) chunk))) m,
         snd (fst (read_add_chunk (read_ m) chunk)),
         snd (read_add_chunk (read_ m) chunk))).
Proof.
  unfold swap_chunk, is_chunk_processed. repeat split.
  - intros [H|H]; rewrite H; cbn [negb orb]; rewrite ?orb_true_r; reflexivity.
  - intros Hp Hr Hmax Hn. rewrite Hp, Hr. cbn [negb orb].
    destruct (Z.gtb_spec (max_chunks_proc_ o) 0); [|lia].
    rewrite (proj2 (Z.eqb_eq _ _) Hn). reflexivity.
  - intros Hp Hr Hc. rewrite Hp, Hr. cbn [negb orb].
    replace ((max_chunks_proc_ o >? 0)
             && (num_chunks_ (read_ m) =? max_chunks_proc_ o)) with false.
    + destruct (read_add_chunk (read_ m) chunk) as [[rd c'] added].
      reflexivity.
    + symmetry. apply andb_false_iff.
      destruct Hc as [Hc|Hc]; [left | right].
      * destruct (Z.gtb_spec (max_chunks_proc_ o) 0); [lia | reflexivity].
      * apply Z.eqb_neq, Hc.
Qed.


(** *** What the event step leaves alone *)

Local Ltac frame_step :=
  repeat first
    [ progress cbn [fst snd control state_ reset_ last_chunk_ event_i_
                    prev_size_ read_ event_detector_ norm_ set_state set_reset
                    set_last_chunk set_event_i set_prev_size set_prev_paths
                    set_next_paths set_kmer_probs set_sources_added
                    set_seed_tracker set_read set_event_detector set_norm]
    | case_match ];
  try reflexivity; try congruence.

Lemma put_child_control (m : MapperT) np parent r k pr ty :
  control (put_child TYPE_BITS o m np parent r k pr ty) = control m.
Proof. reflexivity. Qed.

Lemma push_source_control (m : MapperT) np r k pr :
  control (fst (push_source TYPE_BITS o m np r k pr)) = control m.
Proof. reflexivity. Qed.

Lemma update_seeds_control (m : MapperT) p pe :
  control (fst (update_seeds TYPE_BITS tracker_add_seed o m p pe)) = control m.
Proof. unfold update_seeds. frame_step. Qed.

Lemma match_loop_control fuel :
  forall b parent thresh (m : MapperT) np found,
    control (fst (fst (match_loop TYPE_BITS o fuel b parent thresh m np found)))
    = control m.
Proof.
  induction fuel as [|fuel IH]; intros; cbn [match_loop]; [reflexivity|].
  repeat case_match; rewrite ?IH; reflexivity.
Qed.

Lemma extend_path_control (m : MapperT) pi np :
  control (fst (fst (extend_path TYPE_BITS ALPH_SIZE tracker_add_seed o m pi np)))
  = control m.
Proof.
  unfold extend_path.
  destruct (negb (is_valid _)); [reflexivity|].
  match goal with |- context [match_loop ?a ?b ?c ?d ?e ?f ?g ?h ?i] =>
    pose proof (match_loop_control c d e f g h i) as Hm;
    destruct (match_loop a b c d e f g h i) as [[m2 np2] cf] end.
  cbn [fst] in Hm.
  repeat case_match; cbn [fst]; try reflexivity;
    try (rewrite Hm; reflexivity).
  all: match goal with H : update_seeds _ _ _ ?m ?p ?b = _ |- _ =>
         pose proof (update_seeds_control m p b) as Hu; rewrite H in Hu end.
  all: cbn [fst] in Hu; unfold control in *; cbn in *; congruence.
Qed.

Lemma extend_loop_control fuel :
  forall pi (m : MapperT) np,
    control (fst (extend_loop TYPE_BITS ALPH_SIZE tracker_add_seed o fuel pi m np))
    = control m.
Proof.
  induction fuel as [|fuel IH]; intros; cbn [extend_loop]; [reflexivity|].
  pose proof (extend_path_control m pi np) as Hp.
  destruct (extend_path _ _ _ _ m pi np) as [[m' np'] stop]. cbn [fst] in Hp.
  destruct stop; cbn [fst]; [exact Hp | rewrite IH; exact Hp].
Qed.

Lemma dedup_step_control next_size (st : MapperT * Z * Z * Range) i :
  control (fst (fst (fst (dedup_step TYPE_BITS tracker_add_seed o next_size st i))))
  = control (fst (fst (fst st))).
Proof.
  destruct st as [[[m np] pk] ur].
  unfold dedup_step, source_before, source_after, push_source.
  repeat case_match; cbn [fst]; try reflexivity.
  all: repeat match goal with
         | H : (_, _) = (_, _) |- _ => inversion H; clear H; subst
         end.
  all: try reflexivity.
  all: match goal with H : update_seeds _ _ _ ?m ?p ?b = _ |- _ =>
         pose proof (update_seeds_control m p b) as Hu; rewrite H in Hu end.
  all: cbn [fst] in Hu; unfold control in *; cbn in *; congruence.
Qed.

Lemma dedup_fold_control next_size (l : list Z) :
  forall st : MapperT * Z * Z * Range,
    control (fst (fst (fst
      (fold_left (dedup_step TYPE_BITS tracker_add_seed o next_size) l st))))
    = control (fst (fst (fst st))).
Proof.
  induction l as [|i l IH]; intros st; cbn [fold_left]; [reflexivity|].
  rewrite IH. apply dedup_step_control.
Qed.

Lemma dedup_phase_control (m : MapperT) np :
  control (fst (dedup_phase TYPE_BITS pdqsort tracker_add_seed o m np))
  = control m.
Proof.
  unfold dedup_phase. destruct (negb (np =? 0)); [|reflexivity].
  match goal with |- context [fold_left ?f ?l ?st] =>
    pose proof (dedup_fold_control np l st) as Hf;
    destruct (fold_left f l st) as [[[m' np'] pk] ur] end.
  exact Hf.
Qed.

Lemma source_loop_control fuel :
  forall kmer (m : MapperT) np,
    control (fst (source_loop TYPE_BITS o fuel kmer m np)) = control m.
Proof.
  induction fuel as [|fuel IH]; intros; cbn [source_loop]; [reflexivity|].
  unfold push_source. repeat case_match; rewrite ?IH; reflexivity.
Qed.

(** Without a hit of the tracker the event step counts one event and
    touches neither the reset flag nor the state. *)
Lemma event_step_no_hit (m : MapperT) (e : f32) :
  (forall t, sg_is_valid (tracker_get_final t) = false) ->
  let r := event_step TYPE_BITS ALPH_SIZE pdqsort tracker_add_seed
             tracker_get_final sg_is_valid set_mapped o m e in
  snd r = false
  /\ event_i_ (fst r) = u32 (event_i_ m + 1)
  /\ reset_ (fst r) = reset_ m
  /\ state_ (fst r) = state_ m.
Proof.
  intros Hno. unfold event_step.
  set (mA := fill_kmer_probs o m e).
  pose proof (extend_loop_control (Z.to_nat (prev_size_ mA)) 0 mA 0) as HB.
  destruct (extend_loop _ _ _ _ _ 0 mA 0) as [mB npB]. cbn [fst] in HB.
  pose proof (dedup_phase_control mB npB) as HC.
  destruct (dedup_phase _ _ _ _ mB npB) as [mC npC]. cbn [fst] in HC.
  pose proof (source_loop_control
                (Z.to_nat (kmer_count (model_ o))) 0 mC npC) as HD.
  destruct (source_loop _ _ _ 0 mC npC) as [mD npD]. cbn [fst] in HD.
  rewrite Hno. cbn.
  assert (H : control mD = control m)
    by (rewrite HD, HC, HB; reflexivity).
  unfold control in H. inversion H. repeat split; congruence.
Qed.

Lemma add_events_budget (es : list f32) :
  (forall t, sg_is_valid (tracker_get_final t) = false) ->
  max_events_proc_ o < 2 ^ 32 ->
  forall m : MapperT,
    reset_ m = false ->
    0 <= event_i_ m <= max_events_proc_ o ->
    max_events_proc_ o - event_i_ m < Z.of_nat (length es) ->
    let r := add_events TYPE_BITS ALPH_SIZE pdqsort tracker_add_seed
               tracker_get_final sg_is_valid set_mapped o m es in
    snd r = true /\ state_ (fst r) = FAILURE
    /\ event_i_ (fst r) = max_events_proc_ o.
Proof.
  intros Hno Hmax. induction es as [|e es IH]; intros m Hr Hi Hlen.
  - cbn [length] in Hlen. lia.
  - cbn [add_events]. unfold add_event. rewrite Hr. cbn [orb].
    destruct (Z.geb_spec (event_i_ m) (max_events_proc_ o)) as [Hge|Hlt].
    + cbn. repeat split. lia.
    + pose proof (event_step_no_hit m e Hno) as (Hs & He & Hrs & _).
      destruct (event_step _ _ _ _ _ _ _ _ m e) as [m' t].
      cbn [fst snd] in *. subst t.
      assert (He' : event_i_ m' = event_i_ m + 1)
        by (rewrite He; apply u32_small; lia).
      apply IH; [congruence | lia | cbn [length] in Hlen; lia].
Qed.

Lemma add_events_within_budget (es : list f32) :
  (forall t, sg_is_valid (tracker_get_final t) = false) ->
  max_events_proc_ o < 2 ^ 32 ->
  forall m : MapperT,
    reset_ m = false ->
    0 <= event_i_ m ->
    event_i_ m + Z.of_nat (length es) <= max_events_proc_ o ->
    let r := add_events TYPE_BITS ALPH_SIZE pdqsort tracker_add_seed
               tracker_get_final sg_is_valid set_mapped o m es in
    snd r = false /\ state_ (fst r) = state_ m
    /\ event_i_ (fst r) = event_i_ m + Z.of_nat (length es).
Proof.
  intros Hno Hmax. induction es as [|e es IH]; intros m Hr Hi Hlen.
  - cbn. repeat split. lia.
  - cbn [add_events]. unfold add_event. rewrite Hr. cbn [orb].
    cbn [length] in Hlen.
    destruct (Z.geb_spec (event_i_ m) (max_events_proc_ o)) as [Hge|Hlt];
      [lia|].
    pose proof (event_step_no_hit m e Hno) as (Hs & He & Hrs & Hst).
    destruct (event_step _ _ _ _ _ _ _ _ m e) as [m' t].
    cbn [fst snd] in *. subst t.
    assert (He' : event_i_ m' = event_i_ m + 1)
      by (rewrite He; apply u32_small; lia).
    destruct (IH m' ltac:(congruence) ltac:(lia) ltac:(lia)) as (A & B & C).
    repeat split; trivial; [congruence | cbn [length]; lia].
Qed.

(** C6 (as amended).  When the reset flag is raised or
    [event_i_ >= max_events_proc] at entry, [add_event] sets the state to
    FAILURE and returns true; apart from the reset flag, which it clears,
    it touches nothing, so no path is expanded.  Consequently, without a
    hit of the tracker, the first [max_events_proc] events of a read are
    processed and leave the state as it was, and the call of [add_event]
    for the event after them sets the state to FAILURE. *)
Theorem add_event_budget :
  (forall (m : MapperT) (e : f32),
     reset_ m = true \/ max_events_proc_ o <= event_i_ m ->
     add_event TYPE_BITS ALPH_SIZE pdqsort tracker_add_seed tracker_get_final
       sg_is_valid set_mapped o m e
     = (set_state FAILURE (set_reset false m), true))
  /\ ((forall t, sg_is_valid (tracker_get_final t) = false) ->
      0 <= max_events_proc_ o < 2 ^ 32 ->
      forall (m : MapperT) (es : list f32),
        reset_ m = false -> event_i_ m = 0 ->
        let r := add_events TYPE_BITS ALPH_SIZE pdqsort tracker_add_seed
                   tracker_get_final sg_is_valid set_mapped o m es in
        (Z.of_nat (length es) <= max_events_proc_ o ->
         snd r = false /\ state_ (fst r) = state_ m
         /\ event_i_ (fst r) = Z.of_nat (length es))
        /\ (max_events_proc_ o < Z.of_nat (length es) ->
            snd r = true /\ state_ (fst r) = FAILURE
            /\ event_i_ (fst r) = max_events_proc_ o)).
Proof.
  split.
  - intros m e H. unfold add_event.
    replace (reset_ m || (event_i_ m >=? max_events_proc_ o)) with true;
      [reflexivity|].
    symmetry. apply orb_true_iff. destruct H as [H|H]; [left; exact H|right].
    apply Z.geb_le, H.
  - intros Hno Hmax m es Hr Hi r. subst r. split; intros Hlen.
    + pose proof (add_events_within_budget es Hno ltac:(lia) m Hr
                    ltac:(lia) ltac:(lia)) as (A & B & C).
      cbv zeta in A, B, C. rewrite Hi in C. repeat split; trivial.
    + apply add_events_budget; trivial; lia.
Qed.

(** *** Skipped events *)

Lemma process_sample_keeps_empty (m : MapperT) n s :
  prev_size_ m = 0 ->
  prev_size_ (sum_mapper
    (process_sample ed_add_sample ed_get_mean norm_add_event norm_skip_unread
       m n s)) = 0.
Proof.
  intros H0. unfold process_sample, skip_events.
  repeat case_match; cbn; trivial.
Qed.

Lemma process_samples_keeps_empty (l : list f32) :
  forall (m : MapperT) n,
    prev_size_ m = 0 ->
    prev_size_ (sum_mapper
      (process_samples ed_add_sample ed_get_mean norm_add_event
         norm_skip_unread l m n)) = 0.
Proof.
  induction l as [|s l IH]; intros m n H0; cbn [process_samples];
    [exact H0|].
  pose proof (process_sample_keeps_empty m n s H0) as Hs.
  destruct (process_sample _ _ _ _ m n s) as [[m' n']|[m' n']];
    cbn [sum_mapper fst] in *; [apply IH; exact Hs | exact Hs].
Qed.

Lemma process_samples_app (pre l : list f32) :
  forall (m : MapperT) n,
    process_samples ed_add_sample ed_get_mean norm_add_event norm_skip_unread
      (pre ++ l) m n
    = match process_samples ed_add_sample ed_get_mean norm_add_event
              norm_skip_unread pre m n with
      | inl (m1, n1) =>
          process_samples ed_add_sample ed_get_mean norm_add_event
            norm_skip_unread l m1 n1
      | inr r => inr r
      end.
Proof.
  induction pre as [|s pre IH]; intros m n; cbn [app process_samples];
    [reflexivity|].
  destruct (process_sample _ _ _ _ m n s) as [[m' n']|r]; [apply IH|].
  reflexivity.
Qed.

Lemma process_sample_full (m : MapperT) n s ed nm :
  ed_add_sample (event_detector_ m) s = (ed, true) ->
  norm_add_event (norm_ m) (ed_get_mean ed) = (nm, false) ->
  let r := sum_mapper
    (process_sample ed_add_sample ed_get_mean norm_add_event norm_skip_unread
       m n s) in
  prev_size_ r = 0
  /\ event_i_ r = u32 (event_i_ m + snd (norm_skip_unread nm (Some n))).
Proof.
  intros Hed Hnm. unfold process_sample. rewrite Hed.
  cbn [event_detector_ set_event_detector norm_]. rewrite Hnm.
  cbn [negb norm_ set_norm].
  destruct (norm_skip_unread nm (Some n)) as [nm1 nskip].
  unfold skip_events. cbn [norm_ set_norm set_prev_size set_event_i snd].
  destruct (norm_add_event nm1 (ed_get_mean ed)) as [nm2 ok].
  destruct ok; cbn; split; reflexivity.
Qed.

(** C10.  [skip_events(n)] advances [event_i_] by [n] and sets
    [prev_size_] to 0, and nothing else.  In [process_chunk], a sample
    that yields an event while the normaliser is full goes through
    [skip_events]; [prev_size_] is then 0 when [process_chunk] returns.
    With [prev_size_ = 0] the next event step extends no path and sorts
    nothing: its new generation holds the sources of Phase D only. *)
Theorem skip_events_empties_beam :
  (forall (m : MapperT) (n : Z),
     prev_size_ (skip_events m n) = 0
     /\ event_i_ (skip_events m n) = u32 (event_i_ m + n)
     /\ skip_events m n = set_prev_size 0 (set_event_i (event_i_ (skip_events m n)) m))
  /\ (forall (m m1 : MapperT) (pre post : list f32) (s : f32) (n1 : Z) ed nm,
        chunk_processed_ (read_ m) = false -> reset_ m = false ->
        chunk_ (read_ m) = pre ++ s :: post ->
        process_samples ed_add_sample ed_get_mean norm_add_event
          norm_skip_unread pre m 0 = inl (m1, n1) ->
        ed_add_sample (event_detector_ m1) s = (ed, true) ->
        norm_add_event (norm_ m1) (ed_get_mean ed) = (nm, false) ->
        let after := sum_mapper
          (process_sample ed_add_sample ed_get_mean norm_add_event
             norm_skip_unread m1 n1 s) in
        prev_size_ after = 0
        /\ event_i_ after
           = u32 (event_i_ m1 + snd (norm_skip_unread nm (Some n1)))
        /\ prev_size_
             (fst (process_chunk ed_add_sample ed_get_mean norm_add_event
                     norm_skip_unread m)) = 0)
  /\ (forall (m : MapperT) (e : f32),
        prev_size_ m = 0 ->
        let mA := fill_kmer_probs o m e in
        extend_loop TYPE_BITS ALPH_SIZE tracker_add_seed o
          (Z.to_nat (prev_size_ mA)) 0 mA 0 = (mA, 0)
        /\ dedup_phase TYPE_BITS pdqsort tracker_add_seed o mA 0 = (mA, 0)).
Proof.
  split; [|split].
  - intros m n. repeat split.
  - intros m m1 pre post s n1 ed nm Hp Hr Hc Hpre Hed Hnm after.
    pose proof (process_sample_full m1 n1 s ed nm Hed Hnm) as [H0 Hi].
    fold after in H0, Hi. repeat split; trivial.
    unfold process_chunk. rewrite Hp, Hr, Hc. cbn [orb].
    rewrite process_samples_app, Hpre. cbn [process_samples].
    subst after.
    destruct (process_sample _ _ _ _ m1 n1 s) as [[m2 n2]|[m2 n2]];
      cbn [sum_mapper fst] in H0.
    + pose proof (process_samples_keeps_empty post m2 n2 H0) as Hk.
      destruct (process_samples _ _ _ _ post m2 n2) as [[m3 n3]|[m3 n3]];
        cbn [sum_mapper fst] in Hk; exact Hk.
    + exact H0.
  - intros m e H0 mA.
    assert (HA : prev_size_ mA = 0) by exact H0.
    rewrite HA. split; reflexivity.
Qed.

End MapperProps.


(** ** Phase C *)

Section Simulation.
Context {SeedTracker SeedGroup EventDetector Normalizer Chunk ReadLoc : Type}.
Variable TYPE_BITS : Z.
Variable tracker_add_seed : SeedTracker -> Z -> Z -> Z -> SeedTracker.
Variable o : UncalledOpts.
Local Abbreviation MapperT := (@Mapper SeedTracker EventDetector Normalizer ReadLoc).

Lemma zget_app_l {A} (d : A) (l1 l2 : list A) (i : nat) :
  (i < length l1)%nat -> zget d (l1 ++ l2) (Z.of_nat i) = nth i l1 d.
Proof.
  intros Hi. unfold zget. destruct (Z.ltb_spec (Z.of_nat i) 0); [lia|].
  rewrite Nat2Z.id, lookup_app_l by exact Hi.
  rewrite <- nth_lookup. reflexivity.
Qed.

Lemma zset_app_l {A} (l1 l2 : list A) (i : nat) (v : A) :
  (i < length l1)%nat -> zset (l1 ++ l2) (Z.of_nat i) v = <[i := v]> l1 ++ l2.
Proof.
  intros Hi. unfold zset. destruct (Z.ltb_spec (Z.of_nat i) 0); [lia|].
  rewrite Nat2Z.id. apply insert_app_l. exact Hi.
Qed.

Lemma zset_push {A} (l1 l2 : list A) (x : A) (r : list A) (v : A) :
  zset (l1 ++ l2 ++ x :: r) (Z.of_nat (length l1 + length l2)) v
  = l1 ++ (l2 ++ [v]) ++ r.
Proof.
  unfold zset. destruct (Z.ltb_spec (Z.of_nat (length l1 + length l2)) 0); [lia|].
  rewrite Nat2Z.id, app_assoc.
  replace (length l1 + length l2)%nat with (length (l1 ++ l2) + 0)%nat
    by (rewrite length_app; lia).
  rewrite insert_app_r. cbn. rewrite <- !app_assoc. reflexivity.
Qed.

Lemma zget_push {A} (d : A) (l1 l2 : list A) (x : A) (r : list A) :
  zget d (l1 ++ l2 ++ x :: r) (Z.of_nat (length l1 + length l2)) = x.
Proof.
  unfold zget.
  destruct (Z.ltb_spec (Z.of_nat (length l1 + length l2)) 0); [lia|].
  rewrite Nat2Z.id, app_assoc.
  replace (length l1 + length l2)%nat with (length (l1 ++ l2) + 0)%nat
    by (rewrite length_app; lia).
  rewrite lookup_app_r by lia.
  replace (length (l1 ++ l2) + 0 - length (l1 ++ l2))%nat with 0%nat by lia.
  reflexivity.
Qed.

Lemma arr_next_at (m : MapperT) np b (i : nat) :
  arr_of (next_paths_ m) np b -> (i < length (b_children b))%nat ->
  next_at TYPE_BITS o m (Z.of_nat i)
  = nth i (b_children b) (new_path (layout TYPE_BITS o)).
Proof.
  intros [Hn _] Hi. unfold next_at. rewrite Hn. apply zget_app_l, Hi.
Qed.

Lemma arr_full (m : MapperT) np b :
  arr_of (next_paths_ m) np b -> (np =? next_end m) = beam_full b.
Proof.
  intros [Hn Hnp]. unfold next_end, beam_full. rewrite Hn, Hnp, !length_app.
  destruct (b_free b); cbn [length].
  - apply Z.eqb_eq. lia.
  - apply Z.eqb_neq. lia.
Qed.

Lemma arr_push (m : MapperT) np b r k pr :
  arr_of (next_paths_ m) np b -> beam_full b = false ->
  arr_of (next_paths_ (fst (push_source TYPE_BITS o m np r k pr)))
         (snd (push_source TYPE_BITS o m np r k pr)) (beam_push b r k pr).
Proof.
  intros [Hn Hnp] Hf. unfold push_source, beam_push, beam_full, next_at in *.
  cbn [fst snd next_paths_ set_next_paths].
  destruct (b_free b) as [|slot free] eqn:E; [discriminate|].
  cbn [b_children b_sources b_free]. rewrite Hn, Hnp, ?E.
  rewrite zget_push, zset_push. split; [reflexivity|].
  cbn [b_children b_sources]. rewrite length_app. cbn [length]. lia.
Qed.

Lemma arr_set_child (nx : list PathBuffer) np b (i : nat) c pk :
  arr_of nx np b -> (i < length (b_children b))%nat ->
  arr_of (zset nx (Z.of_nat i) c) np (beam_set_child b i c pk).
Proof.
  intros [Hn Hnp] Hi. unfold beam_set_child, arr_of.
  cbn [b_children b_sources b_free]. rewrite Hn, zset_app_l by exact Hi.
  rewrite length_insert. split; [reflexivity | exact Hnp].
Qed.

Lemma update_seeds_next (m : MapperT) p :
  next_paths_ (fst (update_seeds TYPE_BITS tracker_add_seed o m p false))
  = next_paths_ m
  /\ kmer_probs_ (fst (update_seeds TYPE_BITS tracker_add_seed o m p false))
     = kmer_probs_ m
  /\ snd (update_seeds TYPE_BITS tracker_add_seed o m p false)
     = mark_checked TYPE_BITS o p.
Proof.
  unfold update_seeds, mark_checked.
  destruct (is_seed_valid _ _ p o false); repeat split.
Qed.

Lemma beam_push_valid_children b r k pr :
  b_children (beam_push_valid b r k pr) = b_children b.
Proof.
  unfold beam_push_valid, beam_push.
  destruct (range_is_valid r), (b_free b); reflexivity.
Qed.

Lemma arr_push_valid (m : MapperT) np b r k pr :
  arr_of (next_paths_ m) np b -> beam_full b = false ->
  let res := if range_is_valid r then push_source TYPE_BITS o m np r k pr
             else (m, np) in
  arr_of (next_paths_ (fst res)) (snd res) (beam_push_valid b r k pr)
  /\ kmer_probs_ (fst res) = kmer_probs_ m.
Proof.
  intros Harr Hf. unfold beam_push_valid. cbv zeta.
  destruct (range_is_valid r).
  - split; [apply arr_push; assumption | reflexivity].
  - split; [exact Harr | reflexivity].
Qed.

Lemma source_before_sim (m : MapperT) np b (i : nat) :
  arr_of (next_paths_ m) np b -> (i < length (b_children b))%nat ->
  let cur := nth i (b_children b) (new_path (layout TYPE_BITS o)) in
  let res := source_before TYPE_BITS o m np (b_prev_kmer b) (b_unchecked b)
               (Z.of_nat i) (kmer_ cur) in
  let b' := beam_before o (kmer_probs_ m) b cur in
  arr_of (next_paths_ (fst (fst res))) (snd (fst res)) b'
  /\ snd res = b_unchecked b'
  /\ kmer_probs_ (fst (fst res)) = kmer_probs_ m.
Proof.
  intros Harr Hi cur res b'. subst res b'.
  unfold source_before, beam_before.
  rewrite (arr_full m np b Harr).
  destruct (negb (kmer_ cur =? b_prev_kmer b) && negb (beam_full b)
            && f32_ge (zget f32_zero (kmer_probs_ m) (kmer_ cur))
                 (get_source_prob o)) eqn:Ec.
  - assert (Hf : beam_full b = false).
    { apply andb_prop in Ec as [Ec _]. apply andb_prop in Ec as [_ Ec].
      destruct (beam_full b); [discriminate | reflexivity]. }
    set (m1 := set_sources_added _ m).
    assert (Harr1 : arr_of (next_paths_ m1) np b) by exact Harr.
    rewrite (arr_next_at m1 np b i Harr1 Hi). fold cur.
    set (r := mkRange _ (u64 (start_ (fm_range_ cur) - 1))).
    pose proof (arr_push_valid m1 np b r (kmer_ cur)
                  (zget f32_zero (kmer_probs_ m) (kmer_ cur)) Harr1 Hf)
      as [Hp Hk].
    cbv zeta in Hp, Hk.
    destruct (if range_is_valid r then _ else _) as [m2 np2].
    cbn [fst snd] in *.
    rewrite (arr_next_at m2 np2 _ i Hp)
      by (rewrite beam_push_valid_children; exact Hi).
    rewrite beam_push_valid_children. fold cur.
    destruct Hp as [Hp1 Hp2].
    unfold beam_set_unchecked, arr_of.
    cbn [b_children b_sources b_free b_unchecked].
    repeat split; trivial.
  - cbn [fst snd]. repeat split; trivial; apply Harr.
Qed.

Lemma beam_push_valid_unchecked b r k pr :
  b_unchecked (beam_push_valid b r k pr) = b_unchecked b.
Proof.
  unfold beam_push_valid, beam_push.
  destruct (range_is_valid r), (b_free b); reflexivity.
Qed.

Lemma source_after_sim (m : MapperT) np b (i : nat) :
  arr_of (next_paths_ m) np b -> (i < length (b_children b))%nat ->
  let d := new_path (layout TYPE_BITS o) in
  let cur := nth i (b_children b) d in
  let nxt := nth (S i) (b_children b) d in
  let has_next := (Z.of_nat i <? Z.of_nat (length (b_children b)) - 1) in
  let res := source_after TYPE_BITS o (Z.of_nat (length (b_children b))) m np
               (b_unchecked b) (Z.of_nat i) (kmer_ cur) in
  let b' := beam_after o (kmer_probs_ m) b cur nxt has_next in
  arr_of (next_paths_ (fst (fst res))) (snd (fst res)) b'
  /\ snd res = b_unchecked b'
  /\ kmer_probs_ (fst (fst res)) = kmer_probs_ m.
Proof.
  intros Harr Hi d cur nxt has_next res b'. subst res b'.
  unfold source_after, beam_after.
  rewrite (arr_full m np b Harr).
  destruct (negb (beam_full b)
            && f32_ge (zget f32_zero (kmer_probs_ m) (kmer_ cur))
                 (get_source_prob o)) eqn:Ec;
    [|cbn [fst snd]; repeat split; trivial; apply Harr].
  assert (Hf : beam_full b = false).
  { apply andb_prop in Ec as [Ec _].
    destruct (beam_full b); [discriminate | reflexivity]. }
  fold has_next.
  assert (Hsame :
    has_next && (kmer_ cur =? kmer_ (next_at TYPE_BITS o m (Z.of_nat i + 1)))
    = has_next && (kmer_ cur =? kmer_ nxt)
    /\ (has_next = true -> next_at TYPE_BITS o m (Z.of_nat i + 1) = nxt)).
  { destruct has_next eqn:Eh; [|split; [reflexivity | discriminate]].
    assert (Hn : next_at TYPE_BITS o m (Z.of_nat i + 1) = nxt).
    { replace (Z.of_nat i + 1) with (Z.of_nat (S i)) by lia.
      apply (arr_next_at m np b (S i) Harr).
      subst has_next. apply Z.ltb_lt in Eh. lia. }
    rewrite Hn. split; [reflexivity | trivial]. }
  destruct Hsame as [Hsame Hnxt]. rewrite Hsame.
  set (same_next := has_next && (kmer_ cur =? kmer_ nxt)) in *.
  assert (Hsn : same_next = true ->
                next_at TYPE_BITS o m (Z.of_nat i + 1) = nxt).
  { intros H. apply Hnxt. subst same_next.
    apply andb_prop in H as [H _]. exact H. }
  destruct same_next eqn:Es.
  - rewrite (Hsn eq_refl). cbn [andb].
    set (r := mkRange _ _).
    pose proof (arr_push_valid m np
                  (beam_set_unchecked b
                     (if start_ (b_unchecked b) <=? end_ (fm_range_ nxt)
                      then mkRange (u64 (end_ (fm_range_ nxt) + 1))
                             (end_ (b_unchecked b))
                      else b_unchecked b))
                  r (kmer_ cur)
                  (zget f32_zero (kmer_probs_ m) (kmer_ cur)) Harr Hf)
      as [Hp Hk].
    cbv zeta in Hp, Hk.
    destruct (if range_is_valid r then _ else _) as [m2 np2].
    cbn [fst snd] in *. rewrite beam_push_valid_unchecked.
    repeat split; trivial; apply Hp.
  - cbn [andb].
    pose proof (arr_push_valid m np (beam_set_unchecked b (b_unchecked b))
                  (b_unchecked b) (kmer_ cur)
                  (zget f32_zero (kmer_probs_ m) (kmer_ cur)) Harr Hf)
      as [Hp Hk].
    cbv zeta in Hp, Hk.
    destruct (if range_is_valid (b_unchecked b) then _ else _) as [m2 np2].
    cbn [fst snd] in *. rewrite beam_push_valid_unchecked.
    repeat split; trivial; apply Hp.
Qed.

Lemma beam_before_children probs b cur :
  b_children (beam_before o probs b cur) = b_children b.
Proof.
  unfold beam_before. case_match; [|reflexivity].
  unfold beam_set_unchecked. cbn [b_children].
  apply beam_push_valid_children.
Qed.

Lemma beam_after_children probs b cur nxt hn :
  b_children (beam_after o probs b cur nxt hn) = b_children b.
Proof.
  unfold beam_after. case_match; [|reflexivity].
  rewrite beam_push_valid_children. reflexivity.
Qed.

Lemma dedup_step_sim (m : MapperT) np b (i : nat) :
  arr_of (next_paths_ m) np b -> (i < length (b_children b))%nat ->
  let st' := dedup_step TYPE_BITS tracker_add_seed o
               (Z.of_nat (length (b_children b)))
               (m, np, b_prev_kmer b, b_unchecked b) (Z.of_nat i) in
  let b' := beam_step TYPE_BITS o (kmer_probs_ m) b i in
  arr_of (next_paths_ (fst (fst (fst st')))) (snd (fst (fst st'))) b'
  /\ snd (fst st') = b_prev_kmer b'
  /\ snd st' = b_unchecked b'
  /\ kmer_probs_ (fst (fst (fst st'))) = kmer_probs_ m.
Proof.
  intros Harr Hi st' b'. subst st' b'.
  unfold dedup_step, beam_step.
  rewrite (arr_next_at m np b i Harr Hi).
  set (d := new_path (layout TYPE_BITS o)).
  set (cur := nth i (b_children b) d).
  set (nxt := nth (S i) (b_children b) d).
  set (has_next := Z.of_nat i <? Z.of_nat (length (b_children b)) - 1).
  pose proof (source_before_sim m np b i Harr Hi) as Hb.
  cbv zeta in Hb. fold d cur in Hb.
  set (b1 := beam_before o (kmer_probs_ m) b cur) in *.
  destruct (source_before _ _ m np _ _ _ _) as [[m1 np1] ur1].
  cbn [fst snd] in Hb. destruct Hb as (Harr1 & Hur1 & Hk1).
  assert (Hc1 : b_children b1 = b_children b)
    by apply beam_before_children.
  assert (Hi1 : (i < length (b_children b1))%nat) by (rewrite Hc1; exact Hi).
  rewrite (arr_next_at m1 np1 b1 i Harr1 Hi1), Hc1. fold d cur.
  assert (Hdup :
    has_next
    && range_eq (fm_range_ cur)
         (fm_range_ (next_at TYPE_BITS o m1 (Z.of_nat i + 1)))
    = has_next && range_eq (fm_range_ cur) (fm_range_ nxt)).
  { destruct has_next eqn:Eh; [|reflexivity].
    replace (Z.of_nat i + 1) with (Z.of_nat (S i)) by lia.
    rewrite (arr_next_at m1 np1 b1 (S i) Harr1).
    - rewrite Hc1. reflexivity.
    - rewrite Hc1. subst has_next. apply Z.ltb_lt in Eh. lia. }
  rewrite Hdup.
  destruct (has_next && range_eq (fm_range_ cur) (fm_range_ nxt)).
  - cbn [fst snd next_paths_ set_next_paths kmer_probs_].
    split; [apply arr_set_child; assumption | repeat split; trivial].
  - pose proof (source_after_sim m1 np1 b1 i Harr1 Hi1) as Ha.
    cbv zeta in Ha. rewrite Hc1, Hk1 in Ha. fold d cur nxt has_next in Ha.
    rewrite <- Hur1 in Ha.
    set (b2 := beam_after o (kmer_probs_ m) b1 cur nxt has_next) in *.
    destruct (source_after _ _ _ m1 np1 ur1 _ _) as [[m2 np2] ur2].
    cbn [fst snd] in Ha. destruct Ha as (Harr2 & Hur2 & Hk2).
    assert (Hc2 : b_children b2 = b_children b)
      by (unfold b2; rewrite beam_after_children; exact Hc1).
    assert (Hi2 : (i < length (b_children b2))%nat)
      by (rewrite Hc2; exact Hi).
    rewrite (arr_next_at m2 np2 b2 i Harr2 Hi2), Hc2. fold d cur.
    pose proof (update_seeds_next m2 cur) as (Hu1 & Hu2 & Hu3).
    destruct (update_seeds _ _ _ m2 cur false) as [m3 p'].
    cbn [fst snd] in *. subst p'.
    cbn [next_paths_ set_next_paths kmer_probs_].
    rewrite Hu1.
    split; [apply arr_set_child; assumption
           | repeat split; trivial; congruence].
Qed.
End Simulation.

Lemma range_eq_true (a b : Range) : range_eq a b = true <-> a = b.
Proof.
  unfold range_eq. destruct a as [s1 e1], b as [s2 e2]. cbn.
  rewrite andb_true_iff, !Z.eqb_eq. split; [intros []; congruence|].
  intros H. inversion H. split; reflexivity.
Qed.

Lemma range_neq (a b : Range) :
  start_ a <> start_ b \/ end_ a <> end_ b -> a <> b.
Proof. intros H ->. destruct H; congruence. Qed.

Section BeamInvariant.

Variable TB : Z.
Variable o : UncalledOpts.
Variable probs : list f32.
Variable cs : list PathBuffer.

Let d := new_path (layout TB o).
Let nS := length cs.
Let at_ (j : nat) : PathBuffer := nth j cs d.
Let rng (j : nat) : Range := fm_range_ (nth j cs d).
Let kmr (j : nat) : Z := kmer_ (nth j cs d).
Let kr (k : Z) : Range := kmer_fmrange o k.
Let ok (k : Z) : bool := f32_ge (zget f32_zero probs k) (get_source_prob o).

Hypothesis Hsorted :
  forall j j', (j < j' < nS)%nat -> path_lt (nth j' cs d) (nth j cs d) = false.
Hypothesis Hchild : forall j, (j < nS)%nat -> in_kmer_range o (nth j cs d).
Hypothesis Hdisj :
  forall k1 k2,
    0 <= k1 < kmer_count (model_ o) -> 0 <= k2 < kmer_count (model_ o) ->
    k1 <> k2 -> ranges_disjoint (kmer_fmrange o k1) (kmer_fmrange o k2).
Hypothesis Hcoord :
  forall k,
    0 <= k < kmer_count (model_ o) ->
    range_is_valid (kmer_fmrange o k) = true ->
    0 < start_ (kmer_fmrange o k) /\ end_ (kmer_fmrange o k) < 2 ^ 64 - 1.
Hypothesis Hcount : 0 <= kmer_count (model_ o) < 2 ^ 16.

Lemma child_facts j :
  (j < nS)%nat ->
  start_ (rng j) <= end_ (rng j)
  /\ start_ (kr (kmr j)) <= start_ (rng j)
  /\ end_ (rng j) <= end_ (kr (kmr j))
  /\ 0 <= kmr j < kmer_count (model_ o).
Proof.
  intros Hj. destruct (Hchild j Hj) as (Hk & Hv & Hw1 & Hw2).
  unfold range_is_valid in Hv. apply Z.leb_le in Hv.
  unfold rng, kr, kmr. repeat split; trivial; lia.
Qed.

(** On the range of a child [start_ - 1] and [end_ + 1] do not wrap. *)
Lemma child_coords j :
  (j < nS)%nat ->
  u64 (start_ (rng j) - 1) = start_ (rng j) - 1
  /\ u64 (end_ (rng j) + 1) = end_ (rng j) + 1.
Proof.
  intros Hj. pose proof (child_facts j Hj) as (Hv & Hw1 & Hw2 & Hk).
  destruct (Hcoord (kmr j) Hk) as [H0 H1].
  { apply Z.leb_le. fold (kr (kmr j)). lia. }
  fold (kr (kmr j)) in H0, H1.
  split; apply u64_small; lia.
Qed.

Lemma sorted_lex j j' :
  (j < j' < nS)%nat ->
  start_ (rng j) < start_ (rng j')
  \/ (start_ (rng j) = start_ (rng j') /\ end_ (rng j) <= end_ (rng j')).
Proof.
  intros H. pose proof (Hsorted j j' H) as Hs.
  unfold path_lt in Hs. apply orb_false_iff in Hs as [Hs _].
  unfold range_lt in Hs. apply orb_false_iff in Hs as [H1 H2].
  apply Z.ltb_ge in H1. apply andb_false_iff in H2.
  fold (rng j) (rng j') in *.
  destruct H2 as [H2|H2]; [apply Z.eqb_neq in H2 | apply Z.ltb_ge in H2]; lia.
Qed.

Lemma sorted_start j j' :
  (j <= j' < nS)%nat -> start_ (rng j) <= start_ (rng j').
Proof.
  intros H. destruct (Nat.eq_dec j j') as [->|Hne]; [lia|].
  destruct (sorted_lex j j'); lia.
Qed.

Lemma dup_adjacent j j' :
  (j < j' < nS)%nat -> rng j = rng j' -> rng j = rng (S j).
Proof.
  intros H E. destruct (Nat.eq_dec (S j) j') as [<-|Hne]; [exact E|].
  pose proof (sorted_lex j (S j) ltac:(lia)) as H1.
  pose proof (sorted_lex (S j) j' ltac:(lia)) as H2.
  assert (Hs : start_ (rng j) = start_ (rng j')) by congruence.
  assert (He : end_ (rng j) = end_ (rng j')) by congruence.
  destruct (rng j) as [s1 e1], (rng (S j)) as [s2 e2].
  cbn in *. f_equal; lia.
Qed.

Lemma other_kmer_ranges_differ (r r' : Range) (k k' : Z) :
  0 <= k < kmer_count (model_ o) -> 0 <= k' < kmer_count (model_ o) ->
  k <> k' -> start_ r <= end_ r ->
  range_within r (kr k) -> range_within r' (kr k') -> r <> r'.
Proof.
  intros Hb Hb' Hk Hv [H1 H2] [H3 H4] <-.
  apply (Hdisj k k' Hb Hb' Hk (start_ r)). unfold kr in *. lia.
Qed.

Lemma kmer_contiguous j1 j2 j3 :
  (j1 <= j2 <= j3)%nat -> (j3 < nS)%nat -> kmr j1 = kmr j3 -> kmr j2 = kmr j1.
Proof.
  intros H H3 E.
  destruct (Z.eq_dec (kmr j2) (kmr j1)) as [|Hne]; [assumption|exfalso].
  pose proof (child_facts j1 ltac:(lia)) as (? & ? & ? & ?).
  pose proof (child_facts j2 ltac:(lia)) as (? & ? & ? & ?).
  pose proof (child_facts j3 ltac:(lia)) as (? & ? & ? & ?).
  pose proof (sorted_start j1 j2 ltac:(lia)).
  pose proof (sorted_start j2 j3 ltac:(lia)).
  apply (Hdisj (kmr j2) (kmr j1) ltac:(lia) ltac:(lia) Hne (start_ (rng j2))).
  fold (kr (kmr j2)) (kr (kmr j1)). rewrite E in *. lia.
Qed.



(** *** The invariant of the loop *)

Definition dupb (j : nat) : bool :=
  (Z.of_nat j <? Z.of_nat nS - 1) && range_eq (rng j) (rng (S j)).

Definition src_ok (i : nat) (x : PathBuffer) : Prop :=
  length_ x = 1
  /\ start_ (fm_range_ x) <= end_ (fm_range_ x)
  /\ range_within (fm_range_ x) (kr (kmer_ x))
  /\ (exists j, (j < i)%nat /\ (j < nS)%nat /\ kmer_ x = kmr j)
  /\ (forall j, (j < nS)%nat -> fm_range_ x <> rng j).

Definition srcs_inv (i : nat) (b : Beam) : Prop :=
  Forall (src_ok i) (b_sources b) /\ NoDup (map fm_range_ (b_sources b)).

Definition grp_inv (s : Z) (upto : nat) (b : Beam) : Prop :=
  end_ (b_unchecked b) = end_ (kr s)
  /\ (forall j, (j <= upto)%nat -> (j < nS)%nat -> kmr j = s ->
        end_ (rng j) < start_ (b_unchecked b))
  /\ Forall (fun x => kmer_ x = s ->
                      end_ (fm_range_ x) < start_ (b_unchecked b))
            (b_sources b).

Definition prev_kmer_inv (i : nat) (b : Beam) : Prop :=
  b_prev_kmer b
  = match i with O => u16 (kmer_count (model_ o)) | S i' => kmr i' end.

Definition unchecked_inv (i : nat) (b : Beam) : Prop :=
  forall i', i = S i' -> (i < nS)%nat -> kmr i = kmr i' ->
    beam_full b = false -> ok (kmr i) = true -> grp_inv (kmr i) i b.

Lemma src_ok_mono i x : src_ok i x -> src_ok (S i) x.
Proof.
  intros (H1 & H2 & H3 & (j & Hj & Hj' & Hk) & H5).
  repeat split; trivial; try apply H3. exists j. repeat split; trivial. lia.
Qed.

Lemma srcs_inv_mono i b : srcs_inv i b -> srcs_inv (S i) b.
Proof.
  intros [H1 H2]. split; [|exact H2].
  eapply Forall_impl; [exact H1|]. intros x. apply src_ok_mono.
Qed.

(** Pushing a source whose range is new. *)
Lemma push_valid_srcs i b r k pr :
  srcs_inv i b ->
  (start_ r <= end_ r ->
   range_within r (kr k)
   /\ (exists j, (j < i)%nat /\ (j < nS)%nat /\ k = kmr j)
   /\ (forall j, (j < nS)%nat -> r <> rng j)
   /\ Forall (fun x => fm_range_ x <> r) (b_sources b)) ->
  srcs_inv i (beam_push_valid b r k pr).
Proof.
  intros [HF HN] Hnew. unfold beam_push_valid, beam_push, range_is_valid.
  destruct (Z.leb_spec (start_ r) (end_ r)) as [Hv|]; [|split; assumption].
  destruct (b_free b) as [|slot free]; [split; assumption|].
  destruct (Hnew Hv) as (Hw & Hj & Hr & Hx). unfold srcs_inv.
  cbn [b_sources]. split.
  - apply Forall_app. split; [exact HF|]. constructor; [|constructor].
    unfold src_ok. cbn [make_source length_ fm_range_ kmer_].
    repeat split; trivial; apply Hw.
  - rewrite map_app. cbn [map make_source fm_range_].
    apply NoDup_app. split; [exact HN|]. split.
    + intros x Hin [Hin'|[]]%list_elem_of_In. subst x.
      apply list_elem_of_In, in_map_iff in Hin as (y & Hy & Hin).
      rewrite Forall_forall in Hx. apply (Hx y); [|exact Hy].
      apply list_elem_of_In. exact Hin.
    + apply NoDup_singleton.
Qed.

Lemma push_valid_grp s upto b r k pr u :
  grp_inv s upto (beam_set_unchecked b u) ->
  (start_ r <= end_ r -> k = s -> end_ r < start_ u) ->
  grp_inv s upto (beam_push_valid (beam_set_unchecked b u) r k pr).
Proof.
  intros (H1 & H2 & H3) Hr.
  unfold beam_push_valid, beam_push, range_is_valid.
  destruct (Z.leb_spec (start_ r) (end_ r)) as [Hv|];
    [|repeat split; assumption].
  cbn [beam_set_unchecked b_free] in *.
  destruct (b_free b) as [|slot free]; [repeat split; assumption|].
  unfold grp_inv in *. cbn [b_unchecked b_sources] in *.
  repeat split; trivial.
  apply Forall_app. split; [exact H3|]. constructor; [|constructor].
  cbn [make_source kmer_ fm_range_]. intros Hk. apply Hr; trivial.
Qed.


Lemma set_unchecked_push b r k pr u :
  beam_set_unchecked (beam_push_valid b r k pr) u
  = beam_push_valid (beam_set_unchecked b u) r k pr.
Proof.
  unfold beam_set_unchecked, beam_push_valid, beam_push.
  destruct (range_is_valid r); [|reflexivity].
  destruct b as [c sx fr pk un]. cbn. destruct fr; reflexivity.
Qed.

Lemma set_unchecked_srcs i b u :
  srcs_inv i (beam_set_unchecked b u) <-> srcs_inv i b.
Proof. reflexivity. Qed.

(** No child before the first one of a group carries the k-mer of the
    group. *)
Lemma group_start i b :
  (i < nS)%nat -> prev_kmer_inv i b -> kmr i <> b_prev_kmer b ->
  forall j, (j < i)%nat -> kmr j <> kmr i.
Proof.
  intros Hi Hpk Hne j Hj E. unfold prev_kmer_inv in Hpk.
  destruct i as [|i']; [lia|]. rewrite Hpk in Hne.
  apply Hne. symmetry. rewrite <- E.
  apply (kmer_contiguous j i' (S i')); [lia | exact Hi | exact E].
Qed.

Lemma before_inv i b :
  (i < nS)%nat -> srcs_inv i b -> prev_kmer_inv i b -> unchecked_inv i b ->
  let b1 := beam_before o probs b (at_ i) in
  srcs_inv (S i) b1
  /\ (beam_full b1 = false -> ok (kmr i) = true -> grp_inv (kmr i) i b1).
Proof.
  intros Hi Hs Hpk Hu b1. subst b1. unfold beam_before, at_.
  fold (kmr i) (rng i) (kr (kmr i)) (ok (kmr i)).
  pose proof (child_facts i Hi) as (Hv & Hw1 & Hw2 & Hk).
  destruct (child_coords i Hi) as [Hc0 Hc1]. rewrite Hc0, Hc1.
  destruct (negb (kmr i =? b_prev_kmer b) && negb (beam_full b) && ok (kmr i))
    eqn:Ec.
  - apply andb_prop in Ec as [Ec Hok]. apply andb_prop in Ec as [Hne Hnf].
    apply negb_true_iff, Z.eqb_neq in Hne.
    pose proof (group_start i b Hi Hpk Hne) as GS.
    rewrite set_unchecked_push. split.
    + apply push_valid_srcs; [apply srcs_inv_mono, Hs|].
      cbn [start_ end_]. intros Hr. repeat split; cbn [start_ end_]; try lia.
      * exists i. repeat split; trivial. lia.
      * intros j Hj.
        destruct (Z.eq_dec (kmr j) (kmr i)) as [E|E].
        -- apply range_neq. left. cbn [start_].
           assert (Hij : (i <= j)%nat).
           { destruct (Nat.le_gt_cases i j); [assumption|].
             exfalso. apply (GS j); assumption. }
           pose proof (sorted_start i j ltac:(lia)). lia.
        -- pose proof (child_facts j Hj) as (? & ? & ? & ?).
           apply (other_kmer_ranges_differ _ _ (kmr i) (kmr j));
             [lia | lia | congruence | cbn; lia | split; cbn; lia
             | split; lia].
      * destruct Hs as [HF _]. eapply Forall_impl; [exact HF|].
        intros x (_ & Hxv & Hxw & (j & Hj & Hj' & Hxk) & _).
        pose proof (child_facts j Hj') as (_ & _ & _ & ?).
        apply (other_kmer_ranges_differ _ _ (kmer_ x) (kmr i));
          [rewrite Hxk; lia | lia | rewrite Hxk; apply GS; assumption
          | exact Hxv | exact Hxw | split; cbn; lia].
    + intros _ _. apply push_valid_grp.
      * unfold grp_inv. cbn [beam_set_unchecked b_unchecked b_sources start_ end_].
        repeat split.
        -- intros j Hj Hj' E.
           assert (j = i).
           { destruct (Nat.eq_dec j i); [assumption|].
             exfalso. apply (GS j); [lia | exact E]. }
           subst j. lia.
        -- destruct Hs as [HF _]. eapply Forall_impl; [exact HF|].
           intros x (_ & _ & _ & (j & Hj & Hj' & Hxk) & _) E.
           exfalso. apply (GS j Hj). congruence.
      * cbn [start_ end_]. intros. lia.
  - split; [apply srcs_inv_mono, Hs|]. intros Hnf Hok.
    rewrite Hnf, Hok in Ec. cbn [negb] in Ec. rewrite !andb_true_r in Ec.
    apply negb_false_iff, Z.eqb_eq in Ec.
    unfold prev_kmer_inv in Hpk. destruct i as [|i'].
    + exfalso. rewrite Hpk in Ec. unfold u16 in Ec.
      rewrite Z.mod_small in Ec by lia. lia.
    + apply (Hu i' eq_refl Hi); trivial. congruence.
Qed.


Lemma after_inv i b1 :
  (i < nS)%nat -> srcs_inv (S i) b1 ->
  (beam_full b1 = false -> ok (kmr i) = true -> grp_inv (kmr i) i b1) ->
  let has_next := Z.of_nat i <? Z.of_nat nS - 1 in
  let b2 := beam_after o probs b1 (at_ i) (at_ (S i)) has_next in
  srcs_inv (S i) b2
  /\ ((S i < nS)%nat -> kmr (S i) = kmr i -> beam_full b2 = false ->
      ok (kmr i) = true -> grp_inv (kmr i) (S i) b2).
Proof.
  intros Hi Hs HU has_next b2. subst b2. unfold beam_after, at_.
  fold (kmr i) (kmr (S i)) (rng i) (rng (S i)) (ok (kmr i)).
  pose proof (child_facts i Hi) as (Hv & Hw1 & Hw2 & Hk).
  destruct (negb (beam_full b1) && ok (kmr i)) eqn:Ec.
  2:{ split; [exact Hs|]. intros _ _ Hnf Hok. rewrite Hnf, Hok in Ec.
      discriminate. }
  apply andb_prop in Ec as [Hnf Hok]. apply negb_true_iff in Hnf.
  destruct (HU Hnf Hok) as (G1 & G2 & G3).
  set (u := b_unchecked b1) in *.
  assert (Hsu : start_ (kr (kmr i)) <= start_ u)
    by (pose proof (G2 i ltac:(lia) Hi eq_refl); lia).
  assert (Hold : forall r, start_ r = start_ u -> start_ r <= end_ r ->
            range_within r (kr (kmr i)) ->
            Forall (fun x => fm_range_ x <> r) (b_sources b1)).
  { intros r Hr Hrv Hrw. destruct Hs as [HF _].
    rewrite Forall_forall in G3. rewrite Forall_forall in HF.
    apply Forall_forall. intros x Hx.
    destruct (HF x Hx) as (_ & Hxv & Hxw & (j0 & _ & Hj0 & Hxk) & _).
    pose proof (child_facts j0 Hj0) as (_ & _ & _ & ?).
    destruct (Z.eq_dec (kmer_ x) (kmr i)) as [E|E].
    - pose proof (G3 x Hx E). apply range_neq. right. lia.
    - apply (other_kmer_ranges_differ _ _ (kmer_ x) (kmr i));
        trivial; rewrite ?Hxk; lia. }
  assert (Hlow : forall r j, start_ r = start_ u -> (j <= i)%nat ->
            kmr j = kmr i -> r <> rng j).
  { intros r j Hr Hj E. pose proof (G2 j Hj ltac:(lia) E).
    pose proof (child_facts j ltac:(lia)) as (? & _).
    apply range_neq. left. lia. }
  assert (Hoth : forall r j, start_ r <= end_ r ->
            range_within r (kr (kmr i)) -> (j < nS)%nat ->
            kmr j <> kmr i -> r <> rng j).
  { intros r j Hrv Hrw Hj E.
    pose proof (child_facts j Hj) as (? & ? & ? & ?).
    apply (other_kmer_ranges_differ _ _ (kmr i) (kmr j));
      [lia | lia | congruence | exact Hrv | exact Hrw | split; assumption]. }
  destruct (has_next && (kmr i =? kmr (S i))) eqn:Esn.
  - apply andb_prop in Esn as [Hhn Hsame].
    apply Z.eqb_eq in Hsame. subst has_next. apply Z.ltb_lt in Hhn.
    assert (Hi' : (S i < nS)%nat) by lia.
    pose proof (child_facts (S i) Hi') as (Hv' & Hw1' & Hw2' & _).
    destruct (child_coords (S i) Hi') as [Hc0 Hc1]. rewrite Hc0, Hc1.
    rewrite <- Hsame in Hw1', Hw2'. cbn [andb].
    set (u' := if start_ u <=? end_ (rng (S i)) then _ else u).
    assert (Hu' : end_ u' = end_ u /\ start_ u <= start_ u'
                  /\ end_ (rng (S i)) < start_ u').
    { subst u'. destruct (Z.leb_spec (start_ u) (end_ (rng (S i))));
        cbn [start_ end_]; lia. }
    destruct Hu' as (Hu1 & Hu2 & Hu3).
    split.
    + apply push_valid_srcs; [exact Hs|]. cbn [start_ end_]. intros Hr.
      assert (Hrw : range_within (mkRange (start_ u) (start_ (rng (S i)) - 1))
                      (kr (kmr i))) by (split; cbn; lia).
      split; [exact Hrw|]. split; [exists i; repeat split; trivial; lia|].
      split; [|apply Hold; trivial].
      intros j Hj. destruct (Z.eq_dec (kmr j) (kmr i)) as [E|E].
      * destruct (Nat.le_gt_cases j i) as [Hji|Hji];
          [apply Hlow; trivial|].
        pose proof (sorted_start (S i) j ltac:(lia)).
        apply range_neq. left. cbn [start_]. lia.
      * apply Hoth; trivial.
    + intros _ _ _ _. apply push_valid_grp.
      * unfold grp_inv.
        cbn [beam_set_unchecked b_unchecked b_sources]. repeat split.
        -- lia.
        -- intros j Hj Hj' E.
           destruct (Nat.eq_dec j (S i)) as [->|Hne]; [exact Hu3|].
           pose proof (G2 j ltac:(lia) Hj' E). lia.
        -- eapply Forall_impl; [exact G3|]. cbn beta.
           intros x Hx E. specialize (Hx E). lia.
      * cbn [start_ end_]. intros. lia.
  - assert (Hnone : forall j, (i < j)%nat -> (j < nS)%nat -> kmr j <> kmr i).
    { intros j Hij Hj E.
      assert (Hk1 : kmr (S i) = kmr i).
      { apply (kmer_contiguous i (S i) j); [lia | exact Hj | congruence]. }
      subst has_next.
      destruct (Z.ltb_spec (Z.of_nat i) (Z.of_nat nS - 1)); [|lia].
      rewrite Hk1, Z.eqb_refl in Esn. discriminate. }
    cbn [andb].
    replace (beam_set_unchecked b1 u) with b1 by (destruct b1; reflexivity).
    split.
    + apply push_valid_srcs; [exact Hs|]. intros Hr.
      assert (Hrw : range_within u (kr (kmr i))) by (split; lia).
      split; [exact Hrw|]. split; [exists i; repeat split; trivial; lia|].
      split; [|apply Hold; trivial].
      intros j Hj. destruct (Z.eq_dec (kmr j) (kmr i)) as [E|E].
      * destruct (Nat.le_gt_cases j i) as [Hji|Hji];
          [apply Hlow; trivial|].
        exfalso. apply (Hnone j); trivial.
      * apply Hoth; trivial.
    + intros Hi' E. exfalso. apply (Hnone (S i)); trivial. lia.
Qed.


Definition children_inv (i : nat) (b : Beam) : Prop :=
  length (b_children b) = nS
  /\ forall j, (j < nS)%nat ->
       let c := nth j (b_children b) d in
       fm_range_ c = rng j /\ kmer_ c = kmr j
       /\ seed_prob_ c = seed_prob_ (at_ j)
       /\ ((i <= j)%nat -> c = at_ j)
       /\ ((j < i)%nat -> length_ c = if dupb j then 0 else length_ (at_ j)).

Definition beam_inv (i : nat) (b : Beam) : Prop :=
  children_inv i b /\ srcs_inv i b /\ prev_kmer_inv i b /\ unchecked_inv i b.

Lemma nth_insert_eq {A} (l : list A) (i : nat) (v dflt : A) :
  (i < length l)%nat -> nth i (<[i := v]> l) dflt = v.
Proof.
  intros H. rewrite nth_lookup, list_lookup_insert_eq by exact H. reflexivity.
Qed.

Lemma nth_insert_ne {A} (l : list A) (i j : nat) (v dflt : A) :
  i <> j -> nth j (<[i := v]> l) dflt = nth j l dflt.
Proof.
  intros H. rewrite !nth_lookup, list_lookup_insert_ne by exact H.
  reflexivity.
Qed.

Lemma set_child_inv i b c :
  (i < nS)%nat -> children_inv i b ->
  fm_range_ c = rng i -> kmer_ c = kmr i -> seed_prob_ c = seed_prob_ (at_ i) ->
  length_ c = (if dupb i then 0 else length_ (at_ i)) ->
  children_inv (S i) (beam_set_child b i c (kmr i)).
Proof.
  intros Hi [Hlen Hc] H1 H2 H3 H4. unfold children_inv, beam_set_child.
  cbn [b_children]. rewrite length_insert. split; [exact Hlen|].
  intros j Hj. cbv zeta.
  destruct (Nat.eq_dec i j) as [<-|Hne].
  - rewrite nth_insert_eq by lia. repeat split; trivial. lia.
  - rewrite nth_insert_ne by exact Hne.
    destruct (Hc j Hj) as (A1 & A2 & A3 & A4 & A5).
    repeat split; trivial.
    + intros H. apply A4. lia.
    + intros H. apply A5. lia.
Qed.

Lemma mark_checked_fields p :
  fm_range_ (mark_checked TB o p) = fm_range_ p
  /\ kmer_ (mark_checked TB o p) = kmer_ p
  /\ seed_prob_ (mark_checked TB o p) = seed_prob_ p
  /\ length_ (mark_checked TB o p) = length_ p.
Proof. unfold mark_checked. case_match; repeat split. Qed.

Lemma beam_before_shape b cur :
  b_children (beam_before o probs b cur) = b_children b
  /\ b_prev_kmer (beam_before o probs b cur) = b_prev_kmer b.
Proof.
  unfold beam_before, beam_set_unchecked, beam_push_valid, beam_push.
  repeat case_match; split; reflexivity.
Qed.

Lemma beam_after_shape b cur nxt hn :
  b_children (beam_after o probs b cur nxt hn) = b_children b.
Proof.
  unfold beam_after, beam_set_unchecked, beam_push_valid, beam_push.
  cbn [b_free]. repeat case_match; reflexivity.
Qed.

Lemma beam_step_inv i b :
  (i < nS)%nat -> beam_inv i b -> beam_inv (S i) (beam_step TB o probs b i).
Proof.
  intros Hi (Hc & Hs & Hpk & Hu). unfold beam_step. fold d.
  destruct Hc as [Hlen Hcj].
  assert (Hcur : nth i (b_children b) d = at_ i)
    by (apply (Hcj i Hi); lia).
  assert (Hnxt : nth (S i) (b_children b) d = at_ (S i)).
  { destruct (Nat.lt_ge_cases (S i) nS) as [H|H].
    - apply (Hcj (S i) H); lia.
    - unfold at_. rewrite !nth_overflow; trivial; fold nS; lia. }
  rewrite Hcur, Hnxt, Hlen.
  pose proof (before_inv i b Hi Hs Hpk Hu) as [Hs1 HU1]. cbv zeta in Hs1, HU1.
  set (b1 := beam_before o probs b (at_ i)) in *.
  pose proof (beam_before_shape b (at_ i)) as [Hc1 Hp1]. fold b1 in Hc1, Hp1.
  assert (Hci1 : children_inv i b1)
    by (unfold children_inv; rewrite Hc1; split; assumption).
  change (fm_range_ (at_ i)) with (rng i).
  change (fm_range_ (at_ (S i))) with (rng (S i)).
  change (kmer_ (at_ i)) with (kmr i).
  fold (dupb i). destruct (dupb i) eqn:Edup.
  - assert (Hi' : (S i < nS)%nat).
    { unfold dupb in Edup. apply andb_prop in Edup as [E _].
      apply Z.ltb_lt in E. lia. }
    assert (Hr : rng (S i) = rng i).
    { unfold dupb in Edup. apply andb_prop in Edup as [_ E].
      apply range_eq_true in E. congruence. }
    split; [|split; [|split]].
    + apply set_child_inv; trivial. rewrite Edup. reflexivity.
    + exact Hs1.
    + reflexivity.
    + intros i' Ei _ Hk Hnf Hok. inversion Ei; subst i'.
      rewrite Hk in Hok |- *. destruct (HU1 Hnf Hok) as (G1 & G2 & G3).
      repeat split; trivial.
      intros j Hj Hj' E. destruct (Nat.eq_dec j (S i)) as [->|Hne].
      * change (b_unchecked (beam_set_child b1 i (invalidate (at_ i)) (kmr i)))
          with (b_unchecked b1).
        rewrite Hr. apply (G2 i); trivial; lia.
      * apply (G2 j); trivial; lia.
  - pose proof (after_inv i b1 Hi Hs1 HU1) as [Hs2 HU2]. cbv zeta in Hs2, HU2.
    set (b2 := beam_after o probs b1 (at_ i) (at_ (S i)) _) in *.
    assert (Hc2 : b_children b2 = b_children b)
      by (unfold b2; rewrite beam_after_shape; exact Hc1).
    assert (Hci2 : children_inv i b2)
      by (unfold children_inv; rewrite Hc2; split; assumption).
    destruct (mark_checked_fields (at_ i)) as (M1 & M2 & M3 & M4).
    split; [|split; [|split]].
    + apply set_child_inv; trivial. rewrite Edup. exact M4.
    + exact Hs2.
    + reflexivity.
    + intros i' Ei Hi' Hk Hnf Hok. inversion Ei; subst i'.
      rewrite Hk in Hok |- *. apply HU2; trivial.
Qed.


Lemma beam_fold_inv n :
  forall i b, (i + n <= nS)%nat -> beam_inv i b ->
    beam_inv (i + n) (fold_left (beam_step TB o probs) (seq i n) b).
Proof.
  induction n as [|n IH]; intros i b Hn Hb; cbn [seq fold_left].
  - rewrite Nat.add_0_r. exact Hb.
  - replace (i + S n)%nat with (S i + n)%nat by lia.
    apply IH; [lia|]. apply beam_step_inv; [lia | exact Hb].
Qed.

Lemma beam_inv_init free :
  beam_inv 0 (mkBeam cs [] free (u16 (kmer_count (model_ o))) range_default).
Proof.
  split; [|split; [|split]].
  - split; [reflexivity|]. intros j Hj. cbn [b_children].
    repeat split; trivial. lia.
  - split; [constructor | constructor].
  - reflexivity.
  - intros i' E. discriminate.
Qed.

(** *** The ranges of the sources, whatever the order of the children

    While the beam is not full and the k-mer of the last child passes the
    threshold of the sources, [unchecked_range] ends with the range of that
    k-mer and starts within it; every source lies in the range of its
    k-mer. *)

Definition cur_inv (i : nat) (b : Beam) : Prop :=
  forall i', i = S i' -> beam_full b = false -> ok (kmr i') = true ->
    end_ (b_unchecked b) = end_ (kr (kmr i'))
    /\ start_ (kr (kmr i')) <= start_ (b_unchecked b).

Definition ranges_inv (i : nat) (b : Beam) : Prop :=
  children_inv i b /\ Forall (in_kmer_range o) (b_sources b)
  /\ prev_kmer_inv i b /\ cur_inv i b.

Lemma push_valid_in_kmer b r k pr :
  Forall (in_kmer_range o) (b_sources b) ->
  (start_ r <= end_ r ->
   0 <= k < kmer_count (model_ o) /\ range_within r (kr k)) ->
  Forall (in_kmer_range o) (b_sources (beam_push_valid b r k pr)).
Proof.
  intros HF Hr. unfold beam_push_valid, beam_push, range_is_valid.
  destruct (Z.leb_spec (start_ r) (end_ r)) as [Hv|]; [|exact HF].
  destruct (b_free b) as [|slot free]; [exact HF|].
  cbn [b_sources]. apply Forall_app. split; [exact HF|].
  constructor; [|constructor].
  destruct (Hr Hv) as [Hk Hw].
  unfold in_kmer_range, range_is_valid. cbn [make_source kmer_ fm_range_].
  split; [exact Hk|]. split; [apply Z.leb_le; exact Hv | exact Hw].
Qed.

Lemma before_ranges i b :
  (i < nS)%nat -> Forall (in_kmer_range o) (b_sources b) ->
  prev_kmer_inv i b -> cur_inv i b ->
  let b1 := beam_before o probs b (at_ i) in
  Forall (in_kmer_range o) (b_sources b1)
  /\ (beam_full b1 = false -> ok (kmr i) = true ->
      end_ (b_unchecked b1) = end_ (kr (kmr i))
      /\ start_ (kr (kmr i)) <= start_ (b_unchecked b1)).
Proof.
  intros Hi Hs Hpk Hu b1. subst b1. unfold beam_before, at_.
  fold (kmr i) (rng i) (kr (kmr i)) (ok (kmr i)).
  pose proof (child_facts i Hi) as (Hv & Hw1 & Hw2 & Hk).
  destruct (child_coords i Hi) as [Hc0 Hc1]. rewrite Hc0, Hc1.
  destruct (negb (kmr i =? b_prev_kmer b) && negb (beam_full b) && ok (kmr i))
    eqn:Ec.
  - cbn [beam_set_unchecked b_sources b_unchecked start_ end_]. split.
    + apply push_valid_in_kmer; [exact Hs|]. cbn [start_ end_]. intros Hr.
      split; [exact Hk|]. split; cbn [start_ end_]; lia.
    + intros _ _. split; [reflexivity | lia].
  - split; [exact Hs|]. intros Hnf Hok.
    rewrite Hnf, Hok in Ec. cbn [negb] in Ec. rewrite !andb_true_r in Ec.
    apply negb_false_iff, Z.eqb_eq in Ec.
    unfold prev_kmer_inv in Hpk. destruct i as [|i'].
    + exfalso. rewrite Hpk in Ec. unfold u16 in Ec.
      rewrite Z.mod_small in Ec by lia. lia.
    + rewrite Hpk in Ec. rewrite Ec in Hok |- *.
      apply (Hu i' eq_refl Hnf Hok).
Qed.

Lemma after_ranges i b1 :
  (i < nS)%nat -> Forall (in_kmer_range o) (b_sources b1) ->
  (beam_full b1 = false -> ok (kmr i) = true ->
   end_ (b_unchecked b1) = end_ (kr (kmr i))
   /\ start_ (kr (kmr i)) <= start_ (b_unchecked b1)) ->
  let has_next := Z.of_nat i <? Z.of_nat nS - 1 in
  let b2 := beam_after o probs b1 (at_ i) (at_ (S i)) has_next in
  Forall (in_kmer_range o) (b_sources b2)
  /\ (beam_full b2 = false -> ok (kmr i) = true ->
      end_ (b_unchecked b2) = end_ (kr (kmr i))
      /\ start_ (kr (kmr i)) <= start_ (b_unchecked b2)).
Proof.
  intros Hi Hs HU has_next b2. subst b2. unfold beam_after, at_.
  fold (kmr i) (kmr (S i)) (rng i) (rng (S i)) (ok (kmr i)).
  pose proof (child_facts i Hi) as (Hv & Hw1 & Hw2 & Hk).
  destruct (negb (beam_full b1) && ok (kmr i)) eqn:Ec.
  2:{ split; [exact Hs|]. intros Hnf Hok. rewrite Hnf, Hok in Ec.
      discriminate. }
  apply andb_prop in Ec as [Hnf Hok]. apply negb_true_iff in Hnf.
  destruct (HU Hnf Hok) as (G1 & G2).
  set (u := b_unchecked b1) in *.
  destruct (has_next && (kmr i =? kmr (S i))) eqn:Esn.
  - apply andb_prop in Esn as [Hhn Hsame].
    apply Z.eqb_eq in Hsame. subst has_next. apply Z.ltb_lt in Hhn.
    assert (Hi' : (S i < nS)%nat) by lia.
    pose proof (child_facts (S i) Hi') as (Hv' & Hw1' & Hw2' & _).
    destruct (child_coords (S i) Hi') as [Hc0 Hc1]. rewrite Hc0, Hc1.
    rewrite <- Hsame in Hw1', Hw2'. cbn [andb].
    split.
    + apply push_valid_in_kmer; [exact Hs|]. cbn [start_ end_]. intros Hr.
      split; [exact Hk|]. split; cbn [start_ end_]; lia.
    + intros _ _. rewrite beam_push_valid_unchecked.
      cbn [beam_set_unchecked b_unchecked].
      destruct (Z.leb_spec (start_ u) (end_ (rng (S i))));
        cbn [start_ end_]; lia.
  - cbn [andb]. split.
    + apply push_valid_in_kmer; [exact Hs|]. intros Hr.
      split; [exact Hk|]. split; lia.
    + intros _ _. rewrite beam_push_valid_unchecked.
      cbn [beam_set_unchecked b_unchecked]. fold u. lia.
Qed.

Lemma beam_step_ranges i b :
  (i < nS)%nat -> ranges_inv i b ->
  ranges_inv (S i) (beam_step TB o probs b i).
Proof.
  intros Hi (Hc & Hs & Hpk & Hu). unfold beam_step. fold d.
  destruct Hc as [Hlen Hcj].
  assert (Hcur : nth i (b_children b) d = at_ i)
    by (apply (Hcj i Hi); lia).
  assert (Hnxt : nth (S i) (b_children b) d = at_ (S i)).
  { destruct (Nat.lt_ge_cases (S i) nS) as [H|H].
    - apply (Hcj (S i) H); lia.
    - unfold at_. rewrite !nth_overflow; trivial; fold nS; lia. }
  rewrite Hcur, Hnxt, Hlen.
  pose proof (before_ranges i b Hi Hs Hpk Hu) as [Hs1 HU1].
  cbv zeta in Hs1, HU1.
  set (b1 := beam_before o probs b (at_ i)) in *.
  pose proof (beam_before_shape b (at_ i)) as [Hc1 Hp1]. fold b1 in Hc1, Hp1.
  assert (Hci1 : children_inv i b1)
    by (unfold children_inv; rewrite Hc1; split; assumption).
  change (fm_range_ (at_ i)) with (rng i).
  change (fm_range_ (at_ (S i))) with (rng (S i)).
  change (kmer_ (at_ i)) with (kmr i).
  fold (dupb i). destruct (dupb i) eqn:Edup.
  - split; [|split; [|split]].
    + apply set_child_inv; trivial. rewrite Edup. reflexivity.
    + exact Hs1.
    + reflexivity.
    + intros i' Ei Hnf Hok. inversion Ei; subst i'.
      exact (HU1 Hnf Hok).
  - pose proof (after_ranges i b1 Hi Hs1 HU1) as [Hs2 HU2].
    cbv zeta in Hs2, HU2.
    set (b2 := beam_after o probs b1 (at_ i) (at_ (S i)) _) in *.
    assert (Hc2 : b_children b2 = b_children b)
      by (unfold b2; rewrite beam_after_shape; exact Hc1).
    assert (Hci2 : children_inv i b2)
      by (unfold children_inv; rewrite Hc2; split; assumption).
    destruct (mark_checked_fields (at_ i)) as (M1 & M2 & M3 & M4).
    split; [|split; [|split]].
    + apply set_child_inv; trivial. rewrite Edup. exact M4.
    + exact Hs2.
    + reflexivity.
    + intros i' Ei Hnf Hok. inversion Ei; subst i'.
      exact (HU2 Hnf Hok).
Qed.

Lemma beam_fold_ranges n :
  forall i b, (i + n <= nS)%nat -> ranges_inv i b ->
    ranges_inv (i + n) (fold_left (beam_step TB o probs) (seq i n) b).
Proof.
  induction n as [|n IH]; intros i b Hn Hb; cbn [seq fold_left].
  - rewrite Nat.add_0_r. exact Hb.
  - replace (i + S n)%nat with (S i + n)%nat by lia.
    apply IH; [lia|]. apply beam_step_ranges; [lia | exact Hb].
Qed.

Lemma ranges_inv_init free :
  ranges_inv 0
    (mkBeam cs [] free (u16 (kmer_count (model_ o))) range_default).
Proof.
  split; [|split; [|split]].
  - split; [reflexivity|]. intros j Hj. cbn [b_children].
    repeat split; trivial. lia.
  - constructor.
  - reflexivity.
  - intros i' E. discriminate.
Qed.

Lemma final_entries_in_kmer b :
  ranges_inv nS b ->
  Forall (in_kmer_range o) (b_children b ++ b_sources b).
Proof.
  intros ((Hlen & Hc) & Hs & _). apply Forall_app. split; [|exact Hs].
  apply (Forall_nth _ d). intros j Hj. rewrite Hlen in Hj.
  destruct (Hc j Hj) as (R & K & _).
  unfold in_kmer_range. rewrite R, K. exact (Hchild j Hj).
Qed.

(** *** What the invariant gives at the end of the loop *)

Lemma final_children_distinct b j j' :
  beam_inv nS b -> (j < j' < nS)%nat ->
  is_valid (nth j (b_children b) d) = true ->
  fm_range_ (nth j (b_children b) d) <> fm_range_ (nth j' (b_children b) d).
Proof.
  intros ((_ & Hc) & _) Hj Hv E.
  destruct (Hc j ltac:(lia)) as (R1 & _ & _ & _ & L1).
  destruct (Hc j' ltac:(lia)) as (R2 & _).
  rewrite R1, R2 in E.
  pose proof (dup_adjacent j j' Hj E) as Ha.
  assert (Hd : dupb j = true).
  { unfold dupb. rewrite <- Ha, (proj2 (range_eq_true _ _) eq_refl).
    rewrite andb_true_r. apply Z.ltb_lt. lia. }
  rewrite Hd in L1. unfold is_valid in Hv. rewrite L1 in Hv by lia.
  discriminate.
Qed.

Lemma final_survivor_best b j j' :
  beam_inv nS b -> (j < nS)%nat -> (j' < nS)%nat -> j <> j' ->
  rng j = rng j' ->
  is_valid (nth j' (b_children b) d) = true ->
  is_valid (nth j (b_children b) d) = false
  /\ f32_lt (seed_prob_ (nth j' (b_children b) d)) (seed_prob_ (at_ j)) = false.
Proof.
  intros Hb Hj Hj' Hne E Hv.
  assert (Hlt : (j < j')%nat).
  { destruct (Nat.lt_ge_cases j j') as [|Hge]; [assumption|exfalso].
    apply (final_children_distinct b j' j Hb ltac:(lia) Hv).
    destruct Hb as ((_ & Hc) & _).
    destruct (Hc j Hj) as (R1 & _). destruct (Hc j' Hj') as (R2 & _).
    congruence. }
  split.
  - destruct (is_valid (nth j (b_children b) d)) eqn:Ev; [exfalso|reflexivity].
    apply (final_children_distinct b j j' Hb ltac:(lia) Ev).
    destruct Hb as ((_ & Hc) & _).
    destruct (Hc j Hj) as (R1 & _). destruct (Hc j' Hj') as (R2 & _).
    congruence.
  - destruct Hb as ((_ & Hc) & _).
    destruct (Hc j' Hj') as (_ & _ & P2 & _). rewrite P2.
    pose proof (Hsorted j j' ltac:(lia)) as Hs. unfold path_lt in Hs.
    apply orb_false_iff in Hs as [_ Hs].
    fold (rng j) (rng j') (at_ j) (at_ j') in Hs. rewrite <- E in Hs.
    rewrite (proj2 (range_eq_true _ _) eq_refl) in Hs. exact Hs.
Qed.

Lemma final_survivor_exists b :
  beam_inv nS b ->
  (forall j, (j < nS)%nat -> is_valid (at_ j) = true) ->
  forall n j, (nS - j <= n)%nat -> (j < nS)%nat ->
    exists j', (j <= j' < nS)%nat /\ rng j' = rng j
               /\ is_valid (nth j' (b_children b) d) = true.
Proof.
  intros Hb Hvalid. induction n as [|n IH]; intros j Hn Hj; [lia|].
  destruct (dupb j) eqn:Ed.
  - unfold dupb in Ed. apply andb_prop in Ed as [E1 E2].
    apply Z.ltb_lt in E1. apply range_eq_true in E2.
    destruct (IH (S j) ltac:(lia) ltac:(lia)) as (j' & Hj' & Hr & Hv).
    exists j'. repeat split; trivial; try lia. congruence.
  - exists j. split; [lia|]. split; [reflexivity|].
    destruct Hb as ((_ & Hc) & _).
    destruct (Hc j Hj) as (_ & _ & _ & _ & L). rewrite Ed in L.
    pose proof (Hvalid j Hj) as Hv.
    unfold is_valid in *. rewrite L by lia. exact Hv.
Qed.

Lemma final_entries_distinct b j j' :
  beam_inv nS b ->
  (j < j' < length (b_children b ++ b_sources b))%nat ->
  is_valid (nth j (b_children b ++ b_sources b) d) = true ->
  is_valid (nth j' (b_children b ++ b_sources b) d) = true ->
  fm_range_ (nth j (b_children b ++ b_sources b) d)
  <> fm_range_ (nth j' (b_children b ++ b_sources b) d).
Proof.
  intros Hb Hj Hv Hv'. pose proof Hb as ((Hlen & Hc) & (HF & HN) & _).
  rewrite length_app, Hlen in Hj.
  destruct (Nat.lt_ge_cases j' nS) as [H'|H'].
  - rewrite !app_nth1 in * by lia.
    apply final_children_distinct; trivial. lia.
  - rewrite (app_nth2 _ _ d (n := j')) in * by lia. rewrite Hlen in *.
    assert (Hin : In (nth (j' - nS) (b_sources b) d) (b_sources b))
      by (apply nth_In; lia).
    destruct (Nat.lt_ge_cases j nS) as [H|H].
    + rewrite app_nth1 in * by lia.
      destruct (Hc j H) as (R1 & _). rewrite R1.
      rewrite Forall_forall in HF.
      destruct (HF _ (proj2 (list_elem_of_In _ _) Hin)) as (_ & _ & _ & _ & Hd).
      intros E. apply (Hd j H). congruence.
    + rewrite (app_nth2 _ _ d (n := j)) in * by lia. rewrite Hlen in *.
      intros E.
      assert (Heq : (j - nS = j' - nS)%nat).
      { apply (proj1 (NoDup_nth (map fm_range_ (b_sources b))
                        (fm_range_ d)) (proj1 (NoDup_ListNoDup _) HN));
          rewrite ?length_map; try lia.
        rewrite !(map_nth fm_range_). exact E. }
      lia.
Qed.

End BeamInvariant.

Section DedupPhase.

Context {SeedTracker SeedGroup EventDetector Normalizer Chunk ReadLoc : Type}.
Variable TYPE_BITS : Z.
Variable pdqsort : list PathBuffer -> list PathBuffer.
Variable tracker_add_seed : SeedTracker -> Z -> Z -> Z -> SeedTracker.
Variable o : UncalledOpts.
Local Abbreviation MapperT := (@Mapper SeedTracker EventDetector Normalizer ReadLoc).

Lemma beam_step_length probs b i :
  length (b_children (beam_step TYPE_BITS o probs b i))
  = length (b_children b).
Proof.
  unfold beam_step. case_match; unfold beam_set_child; cbn [b_children];
    rewrite length_insert, ?beam_after_children, beam_before_children;
    reflexivity.
Qed.

Lemma dedup_fold_sim n :
  forall (i : nat) (m : MapperT) np b,
    arr_of (next_paths_ m) np b ->
    (i + n <= length (b_children b))%nat ->
    let st' := fold_left
                 (dedup_step TYPE_BITS tracker_add_seed o
                    (Z.of_nat (length (b_children b))))
                 (map Z.of_nat (seq i n))
                 (m, np, b_prev_kmer b, b_unchecked b) in
    let b' := fold_left (beam_step TYPE_BITS o (kmer_probs_ m)) (seq i n) b in
    arr_of (next_paths_ (fst (fst (fst st')))) (snd (fst (fst st'))) b'.
Proof.
  induction n as [|n IH]; intros i m np b Harr Hn; cbn [seq map fold_left].
  - exact Harr.
  - pose proof (dedup_step_sim TYPE_BITS tracker_add_seed o m np b i Harr
                  ltac:(lia)) as Hs.
    cbv zeta in Hs.
    destruct (dedup_step _ _ _ _ (m, np, b_prev_kmer b, b_unchecked b) _)
      as [[[m1 np1] pk1] ur1].
    cbn [fst snd] in Hs. destruct Hs as (Harr1 & -> & -> & Hk).
    set (b1 := beam_step TYPE_BITS o (kmer_probs_ m) b i) in *.
    assert (Hl : length (b_children b1) = length (b_children b))
      by apply beam_step_length.
    specialize (IH (S i) m1 np1 b1 Harr1 ltac:(lia)).
    cbv zeta in IH. rewrite Hl, Hk in IH. exact IH.
Qed.

(** The loop of Phase C on the array is the loop on the beam made of the
    sorted children, no source yet and the slots that are free. *)
Lemma dedup_phase_arr (m : MapperT) (np : Z) :
  np <> 0 -> 0 <= np <= Z.of_nat (length (next_paths_ m)) ->
  (forall l, Permutation (pdqsort l) l) ->
  let children := pdqsort (take (Z.to_nat np) (next_paths_ m)) in
  let r := dedup_phase TYPE_BITS pdqsort tracker_add_seed o m np in
  length children = Z.to_nat np
  /\ arr_of (next_paths_ (fst r)) (snd r)
       (fold_left (beam_step TYPE_BITS o (kmer_probs_ m))
          (seq 0 (length children))
          (mkBeam children [] (drop (Z.to_nat np) (next_paths_ m))
             (u16 (kmer_count (model_ o))) range_default)).
Proof.
  intros Hnz Hnp Hperm children r.
  assert (Hlen : length children = Z.to_nat np).
  { unfold children. rewrite (Permutation_length (Hperm _)), length_take.
    lia. }
  split; [exact Hlen|].
  set (b0 := mkBeam children [] (drop (Z.to_nat np) (next_paths_ m))
               (u16 (kmer_count (model_ o))) range_default).
  set (m0 := sort_children pdqsort m np).
  assert (Harr0 : arr_of (next_paths_ m0) np b0).
  { split; [reflexivity|]. unfold b0. cbn [b_children b_sources length]. lia. }
  pose proof (dedup_fold_sim (length children) 0 m0 np b0 Harr0
                ltac:(unfold b0; cbn [b_children]; lia))
    as Hsim.
  cbv zeta in Hsim. cbn [b_children b_prev_kmer b_unchecked b0] in Hsim.
  fold b0 in Hsim. change (kmer_probs_ m0) with (kmer_probs_ m) in Hsim.
  subst r. unfold dedup_phase.
  destruct (np =? 0) eqn:E0; [apply Z.eqb_eq in E0; lia|]. cbn [negb].
  unfold zrange. rewrite <- Hlen. fold m0.
  replace (Z.of_nat (length children)) with np in Hsim by lia.
  destruct (fold_left (dedup_step _ _ _ _) _ _) as [[[mN npN] pkN] urN].
  cbn [fst snd] in Hsim |- *. exact Hsim.
Qed.

(** Phase C keeps every path of the generation it works on within the
    range of its k-mer, the sources it appends included. *)
Lemma dedup_phase_in_kmer (m : MapperT) (np : Z) :
  (forall l, Permutation (pdqsort l) l) ->
  (forall k,
     0 <= k < kmer_count (model_ o) ->
     range_is_valid (kmer_fmrange o k) = true ->
     0 < start_ (kmer_fmrange o k) /\ end_ (kmer_fmrange o k) < 2 ^ 64 - 1) ->
  0 <= kmer_count (model_ o) < 2 ^ 16 ->
  next_ok (fun _ => True) (in_kmer_range o) m np ->
  let r := dedup_phase TYPE_BITS pdqsort tracker_add_seed o m np in
  next_ok (fun _ => True) (in_kmer_range o) (fst r) (snd r).
Proof.
  intros Hperm Hcoord Hcount (_ & HF & Hnp) r. unfold next_end in Hnp.
  destruct (Z.eq_dec np 0) as [Hz|Hnz].
  { subst r. unfold dedup_phase. rewrite Hz. cbn [Z.eqb negb fst snd].
    split; [apply Forall_forall; intros; exact I|].
    split; [apply Forall_nil_2 | unfold next_end; lia]. }
  destruct (dedup_phase_arr m np Hnz Hnp Hperm) as [Hlen [Hn Hnp']].
  fold r in Hn, Hnp'.
  set (children := pdqsort (take (Z.to_nat np) (next_paths_ m))) in *.
  set (d := new_path (layout TYPE_BITS o)).
  assert (Hchild : forall j, (j < length children)%nat ->
                     in_kmer_range o (nth j children d)).
  { apply Forall_nth. unfold children. rewrite (Hperm _). exact HF. }
  set (b0 := mkBeam children [] (drop (Z.to_nat np) (next_paths_ m))
               (u16 (kmer_count (model_ o))) range_default) in *.
  pose proof (beam_fold_ranges TYPE_BITS o (kmer_probs_ m) children Hchild
                Hcoord Hcount (length children) 0 b0 ltac:(lia)
                (ranges_inv_init TYPE_BITS o (kmer_probs_ m) children
                   (drop (Z.to_nat np) (next_paths_ m))))
    as Hinv.
  cbn [plus] in Hinv.
  set (bN := fold_left _ _ b0) in *.
  pose proof (final_entries_in_kmer TYPE_BITS o (kmer_probs_ m) children
                Hchild bN Hinv) as Hfin.
  unfold next_ok, next_end, live. rewrite Hn, Hnp'.
  split; [apply Forall_forall; intros; exact I|]. split.
  - rewrite app_assoc, Nat2Z.id.
    rewrite take_app_length' by (rewrite length_app; reflexivity).
    exact Hfin.
  - rewrite !length_app. lia.
Qed.

End DedupPhase.
(** ** The claims on the small instance *)

Lemma add_event_budget_witness :
  snd (Tiny.t_add_events_no_hit (Tiny.opts 3 2 0 2 0) Tiny.m0 [0; 10; 10])
  = true
  /\ state_ (fst (Tiny.t_add_events_no_hit (Tiny.opts 3 2 0 2 0) Tiny.m0
                   [0; 10; 10])) = FAILURE
  /\ event_i_ (fst (Tiny.t_add_events_no_hit (Tiny.opts 3 2 0 2 0) Tiny.m0
                     [0; 10; 10])) = 2.
Proof.
  refine (proj2 (proj2 (add_event_budget Tiny.TYPE_BITS Tiny.ALPH_SIZE
                  Tiny.sort_paths Tiny.tracker_add_seed Tiny.tracker_get_final
                  Tiny.never_valid Tiny.set_mapped (Tiny.opts 3 2 0 2 0))
                  _ _ Tiny.m0 (map f32_of_Z [0; 10; 10]) _ _) _).
  - intros t. reflexivity.
  - vm_compute. split; [discriminate | reflexivity].
  - reflexivity.
  - reflexivity.
  - vm_compute. reflexivity.
Defined.

(** C6 as stated fails: with [max_events_proc = 2] and no hit of the
    tracker, the state after two events is still MAPPING; it is the call
    for the third event that sets FAILURE. *)
Lemma mapping_after_max_events_proc_events :
  let o := Tiny.opts 3 2 0 2 0 in
  let r := Tiny.t_add_events_no_hit o Tiny.m0 [0; 10] in
  max_events_proc_ o = 2
  /\ snd r = false
  /\ event_i_ (fst r) = 2
  /\ state_ (fst r) = MAPPING
  /\ state_ (fst r) <> FAILURE.
Proof. vm_compute. repeat split; congruence. Qed.

(** C8 as stated fails: with [max_chunks_proc = 0] a second chunk exceeds
    the maximum, and yet it is accepted. *)
Lemma swap_chunk_accepts_beyond_zero_maximum :
  let o := Tiny.opts 3 2 0 5 0 in
  let m := Tiny.m0_processed in
  let r := Tiny.t_swap_chunk o m (7, [f32_of_Z 0]) in
  chunk_processed_ (read_ m) = true /\ reset_ m = false
  /\ max_chunks_proc_ o < num_chunks_ (read_ m) + 1
  /\ snd r = true
  /\ state_ (fst (fst r)) = MAPPING
  /\ reset_ (fst (fst r)) = false
  /\ num_chunks_ (read_ (fst (fst r))) = 2.
Proof. vm_compute. repeat split; congruence. Qed.

Lemma skip_events_empties_beam_witness :
  prev_size_ Tiny.m2_chunk = 2
  /\ prev_size_ (fst (Tiny.t_process_chunk Tiny.m2_chunk)) = 0
  /\ event_i_ (fst (Tiny.t_process_chunk Tiny.m2_chunk)) = 4.
Proof.
  split; [reflexivity|]. split; [|vm_compute; reflexivity].
  pose proof (proj1 (proj2 (skip_events_empties_beam (ReadLoc := bool)
                  Tiny.TYPE_BITS
                  Tiny.ALPH_SIZE Tiny.sort_paths Tiny.tracker_add_seed
                  Tiny.ed_add_sample Tiny.ed_get_mean Tiny.norm_add_event
                  Tiny.norm_skip_unread Tiny.o2))) as H.
  refine (proj2 (proj2 (H Tiny.m2_chunk _ [f32_of_Z 0; f32_of_Z 10] []
                          (f32_of_Z 20) _ _ _ _ _ _ _ _ _))).
  - reflexivity.
  - reflexivity.
  - reflexivity.
  - vm_compute. reflexivity.
  - vm_compute. reflexivity.
  - vm_compute. reflexivity.
Defined.

(** C9 on the code.  The second event fills [next_paths_] in Phase C, right
    after [sources_added_[1]] has been set; the loop of Phase D, which is
    where the flags are cleared, is not entered, and the third event starts
    with the flag still raised.  Its Phase D then passes over k-mer 1, which
    has no child, a probability above the threshold and a valid range; with
    the flag cleared the same event appends the source over [2, 3]. *)
Lemma source_flag_survives_full_beam :
  sources_added_ Tiny.m1 = [false; false; false; false]
  /\ sources_added_ Tiny.m2 = [false; true; false; false]
  /\ prev_size_ Tiny.m2 = max_paths_ Tiny.o2
  /\ prev_size_ Tiny.m3 = 0
  /\ prev_size_ (fst (Tiny.t_add_event Tiny.o2 Tiny.m2_clean 10)) = 1
  /\ map (fun p => (fm_range_ p, kmer_ p, length_ p))
         (take 1 (prev_paths_ (fst (Tiny.t_add_event Tiny.o2 Tiny.m2_clean 10))))
     = [(mkRange 2 3, 1, 1)].
Proof. vm_compute. repeat split; reflexivity. Qed.

(** Insertion sort returns a permutation. *)
Lemma insert_path_perm (x : PathBuffer) (l : list PathBuffer) :
  Permutation (Tiny.insert_path x l) (x :: l).
Proof.
  induction l as [|y l IH]; cbn [Tiny.insert_path]; [reflexivity|].
  destruct (path_lt y x); [|reflexivity].
  rewrite IH. apply perm_swap.
Qed.

Lemma sort_paths_perm (l : list PathBuffer) : Permutation (Tiny.sort_paths l) l.
Proof.
  induction l as [|x l IH]; cbn [Tiny.sort_paths fold_right]; [reflexivity|].
  rewrite insert_path_perm. constructor. exact IH.
Qed.

(** * Further properties of the code *)

(** ** The bookkeeping of [make_child] *)

Lemma make_child_consec_stays TB G self p r k pr ty :
  consec_stays_ (make_child TB G self p r k pr ty)
  = u8 ((consec_stays_ p + b2z (is_stay ty)) * b2z (is_stay ty)).
Proof.
  unfold make_child.
  match goal with |- consec_stays_ (if ?c then _ else _) = _ => destruct c end;
    reflexivity.
Qed.

Lemma trailing_stays_snoc tys ty :
  trailing_stays (tys ++ [ty])
  = if is_stay ty then S (trailing_stays tys) else 0%nat.
Proof.
  unfold trailing_stays. rewrite rev_app_distr. destruct ty; reflexivity.
Qed.

(** X2.  [consec_stays_] is the number of STAY events at the end of the path,
    counted in a [u8]: a MATCH sets it back to 0. *)
Theorem consec_stays_counts_trailing_stays (TB : Z) (G : PathStatics)
    (self : PathBuffer) (r : Range) (k : Z) (pr : f32) (xs : list Extension) :
  consec_stays_ (extend TB G (make_source self r k pr) xs)
  = Z.of_nat (trailing_stays (map x_type xs)) mod 2 ^ 8.
Proof.
  induction xs as [|x xs IH] using rev_ind; [reflexivity|].
  rewrite extend_snoc, make_child_consec_stays, map_app, IH. cbn [map].
  rewrite trailing_stays_snoc. unfold u8.
  destruct (x_type x); cbn [is_stay b2z].
  - rewrite Z.mul_0_r. reflexivity.
  - rewrite Z.mul_1_r, Nat2Z.inj_succ, <- Z.add_1_r.
    apply Z.add_mod_idemp_l. lia.
Qed.

Lemma extend_length_le TB G self r k pr xs :
  0 <= length_ (extend TB G (make_source self r k pr) xs)
    <= 1 + Z.of_nat (length xs).
Proof.
  induction xs as [|x xs IH] using rev_ind; [cbn; lia|].
  rewrite extend_snoc, make_child_length_eq, length_app. cbn [length].
  set (l := length_ _) in *. unfold u8.
  assert (0 <= b2z (l <=? MAX_PATH_LEN G) <= 1)
    by (destruct (l <=? MAX_PATH_LEN G); cbn; lia).
  pose proof (Z.mod_pos_bound (l + b2z (l <=? MAX_PATH_LEN G)) (2 ^ 8)
                ltac:(lia)).
  pose proof (Z.mod_le (l + b2z (l <=? MAX_PATH_LEN G)) (2 ^ 8)
                ltac:(lia) ltac:(lia)).
  lia.
Qed.

(** X4.  A path is a seed only from length [seed_len] on: one grown from a
    source by fewer than [seed_len - 1] extensions is never a valid seed,
    whether it has ended or not, and neither is an invalidated path when
    [seed_len >= 1]. *)
Theorem seed_needs_seed_len_events (TB : Z) (G : PathStatics)
    (o : UncalledOpts) (path_ended : bool) :
  (forall self r k pr xs,
     1 + Z.of_nat (length xs) < seed_len_ o ->
     is_seed_valid TB G (extend TB G (make_source self r k pr) xs) o
       path_ended = false)
  /\ (forall p,
        1 <= seed_len_ o ->
        is_seed_valid TB G (invalidate p) o path_ended = false).
Proof.
  split.
  - intros self r k pr xs Hn.
    pose proof (extend_length_le TB G self r k pr xs) as Hl.
    destruct (is_seed_valid _ _ _ _ _) eqn:E; [|reflexivity].
    apply is_seed_valid_conditions in E. destruct E as (_ & E & _). lia.
  - intros p Hs.
    destruct (is_seed_valid _ _ _ _ _) eqn:E; [|reflexivity].
    apply is_seed_valid_conditions in E. destruct E as (_ & E & _).
    cbn in E. lia.
Qed.

Lemma seed_needs_seed_len_events_witness :
  is_seed_valid Tiny.TYPE_BITS Tiny.G3
    (extend Tiny.TYPE_BITS Tiny.G3
       (make_source Tiny.slot (mkRange 2 2) 1 f32_zero)
       [Tiny.ext (mkRange 1 1) 0 MATCH]) Tiny.o2 true = false
  /\ is_seed_valid Tiny.TYPE_BITS Tiny.G3
       (invalidate Tiny.stay_then_match) Tiny.o2 false = false.
Proof.
  split.
  - apply (proj1 (seed_needs_seed_len_events Tiny.TYPE_BITS Tiny.G3 Tiny.o2
                    true)).
    vm_compute. reflexivity.
  - apply (proj2 (seed_needs_seed_len_events Tiny.TYPE_BITS Tiny.G3 Tiny.o2
                    false)).
    vm_compute. discriminate.
Defined.

(** X5.  With a window wider than the 32 bits of [TYPE_ADDS] the constructor of
    [Mapper] stores 0 for STAY too: every event is then recorded as a
    MATCH, and [type_head] and [type_tail] read MATCH whatever the path
    went through. *)
Theorem wide_window_records_no_stay (TB seed_len : Z) :
  1 <= TB -> 32 <= (u8 seed_len - 2) * TB < 64 ->
  let G := init_statics TB seed_len in
  TYPE_ADDS G = [0; 0]
  /\ forall self r k pr xs,
       let q := extend TB G (make_source self r k pr) xs in
       event_types_ q = 0
       /\ type_head TB G q = type_id MATCH
       /\ type_tail G q = type_id MATCH.
Proof.
  intros HTB Hw G.
  assert (Hadds : TYPE_ADDS G = [0; 0]).
  { unfold G, init_statics. cbn [TYPE_ADDS map type_id].
    rewrite Z.shiftl_0_l, Z.shiftl_1_l. f_equal. f_equal.
    unfold u32.
    replace ((u8 seed_len - 2) * TB) with (32 + ((u8 seed_len - 2) * TB - 32))
      by lia.
    rewrite Z.pow_add_r by lia. rewrite Z.mul_comm. apply Z.mod_mul. lia. }
  split; [exact Hadds|].
  intros self r k pr xs q.
  assert (Hets : event_types_ q = 0).
  { subst q. induction xs as [|x xs IH] using rev_ind; [reflexivity|].
    rewrite extend_snoc.
    assert (Hc : forall s p r' k' pr' ty,
               event_types_ p = 0 ->
               event_types_ (make_child TB G s p r' k' pr' ty) = 0).
    { intros s p r' k' pr' ty Hp. unfold make_child.
      rewrite Hadds, Hp, Z.shiftr_0_l.
      match goal with |- event_types_ (if ?c then _ else _) = _ =>
        destruct c end; cbn [event_types_]; destruct ty; reflexivity. }
    apply Hc, IH. }
  split; [exact Hets|].
  unfold type_head, type_tail. rewrite Hets, Z.shiftr_0_l.
  split; reflexivity.
Qed.

Lemma wide_window_records_no_stay_witness :
  (1 <= 2 /\ 32 <= (u8 22 - 2) * 2 < 64)
  /\ type_head 2 (init_statics 2 22)
       (extend 2 (init_statics 2 22)
          (make_source (new_path (init_statics 2 22)) (mkRange 2 2) 1 f32_zero)
          [mkExt (new_path (init_statics 2 22)) (mkRange 2 2) 1 f32_zero STAY])
     = type_id MATCH.
Proof.
  split; [vm_compute; repeat split; discriminate|].
  apply (proj2 (wide_window_records_no_stay 2 22
                  ltac:(vm_compute; discriminate)
                  ltac:(vm_compute; split; [discriminate | reflexivity]))).
Defined.

(** *** The counters of event types *)

Lemma count_type_snoc t l x :
  count_type t (l ++ [x])
  = count_type t l + b2z (type_id x =? type_id t).
Proof.
  unfold count_type. rewrite List.filter_app, length_app. cbn [List.filter].
  destruct (type_id x =? type_id t); cbn [length b2z]; lia.
Qed.

Lemma count_type_drop1 t l :
  l <> [] ->
  count_type t (drop 1 l)
  = count_type t l - b2z (type_id (hd MATCH l) =? type_id t).
Proof.
  destruct l as [|x l]; [congruence|]. intros _.
  change (drop 1 (x :: l)) with l.
  unfold count_type. cbn [hd List.filter].
  destruct (type_id x =? type_id t); cbn [length b2z]; lia.
Qed.

Lemma count_type_bounds t l : 0 <= count_type t l <= Z.of_nat (length l).
Proof.
  unfold count_type. pose proof (List.filter_length_le
    (fun u => type_id u =? type_id t) l). lia.
Qed.

Lemma count_type_total l :
  count_type MATCH l + count_type STAY l = Z.of_nat (length l).
Proof.
  induction l as [|x l IH]; [reflexivity|].
  unfold count_type in *. cbn [List.filter length].
  destruct x;
    change (type_id MATCH =? type_id MATCH) with true;
    change (type_id STAY =? type_id STAY) with true;
    change (type_id MATCH =? type_id STAY) with false;
    change (type_id STAY =? type_id MATCH) with false;
    cbn [length]; lia.
Qed.

Lemma retained_length M tys :
  1 <= M ->
  Z.of_nat (length (retained M tys)) = Z.min (Z.of_nat (length tys)) (M - 1).
Proof. intros HM. unfold retained. rewrite length_drop. lia. Qed.

Lemma retained_snoc_short M tys ty :
  Z.of_nat (length tys) + 1 <= M - 1 ->
  retained M (tys ++ [ty]) = retained M tys ++ [ty].
Proof.
  intros H. unfold retained. rewrite length_app. cbn [length].
  replace (length tys + 1 - Z.to_nat (M - 1))%nat with 0%nat by lia.
  replace (length tys - Z.to_nat (M - 1))%nat with 0%nat by lia.
  reflexivity.
Qed.

Lemma retained_snoc_full M tys ty :
  2 <= M -> M - 1 <= Z.of_nat (length tys) ->
  retained M (tys ++ [ty]) = drop 1 (retained M tys) ++ [ty].
Proof.
  intros HM H. unfold retained. rewrite length_app. cbn [length].
  rewrite drop_drop, drop_app_le by lia. f_equal. f_equal. lia.
Qed.

Lemma zset_head2 {A} (x y : A) (l : list A) (t : Z) (v : A) :
  exists l',
    zset (x :: y :: l) t v
    = (if t =? 0 then v else x) :: (if t =? 1 then v else y) :: l'.
Proof.
  unfold zset. destruct (Z.ltb_spec t 0) as [Hn|Hn].
  - exists l. destruct (Z.eqb_spec t 0), (Z.eqb_spec t 1); try lia.
    reflexivity.
  - destruct (Z.to_nat t) as [|[|n]] eqn:E.
    + exists l. replace t with 0 by lia. reflexivity.
    + exists l. replace t with 1 by lia. reflexivity.
    + exists (<[n := v]> l).
      destruct (Z.eqb_spec t 0), (Z.eqb_spec t 1); try lia. reflexivity.
Qed.

Lemma make_child_counts TB G self p r k pr ty a b rest :
  path_type_counts_ p = a :: b :: rest ->
  let over := u8 (length_ p + b2z (length_ p <=? MAX_PATH_LEN G))
              >? MAX_PATH_LEN G in
  let a1 := if is_stay ty then a else u8 (a + 1) in
  let b1 := if is_stay ty then u8 (b + 1) else b in
  exists rest',
    path_type_counts_ (make_child TB G self p r k pr ty)
    = (if over && (type_tail G p =? 0) then u8 (a1 - 1) else a1)
      :: (if over && (type_tail G p =? 1) then u8 (b1 - 1) else b1)
      :: rest'.
Proof.
  intros Hp over a1 b1. unfold make_child. fold over.
  rewrite Hp. unfold memcpy, NUM_TYPES.
  change (take (Z.to_nat 2) (a :: b :: rest)) with [a; b].
  set (rest0 := drop (Z.to_nat 2) (path_type_counts_ self)).
  assert (H1 : zset ([a; b] ++ rest0) (type_id ty)
                 (u8 (zget 0 ([a; b] ++ rest0) (type_id ty) + 1))
               = a1 :: b1 :: rest0)
    by (destruct ty; reflexivity).
  rewrite H1.
  destruct over; cbn [andb path_type_counts_].
  - destruct (zset_head2 a1 b1 rest0 (type_tail G p)
                (u8 (zget 0 (a1 :: b1 :: rest0) (type_tail G p) - 1)))
      as [l' Hl'].
    exists l'. rewrite Hl'.
    destruct (Z.eqb_spec (type_tail G p) 0) as [E|E];
      destruct (Z.eqb_spec (type_tail G p) 1) as [E1|E1]; try lia;
      rewrite ?E, ?E1; reflexivity.
  - exists rest0. reflexivity.
Qed.

Ltac u8_simpl :=
  repeat match goal with
         | |- context [u8 ?x] => rewrite (u8_small x) by lia
         end.

Section Census.
Variables (TB seed_len : Z).
Hypothesis HTB : 1 <= TB <= 8.
Hypothesis HM : 2 <= u8 seed_len.
Hypothesis Hfit : TB * (u8 seed_len - 1) <= 32.

Let G := init_statics TB seed_len.
Let M := u8 seed_len.

Lemma window_small : M <= 33.
Proof. unfold M. nia. Qed.

Lemma extend_length_eq self r k pr xs :
  length_ (extend TB G (make_source self r k pr) xs)
  = Z.min (1 + Z.of_nat (length xs)) (M + 1).
Proof.
  pose proof window_small as HM33.
  induction xs as [|x xs IH] using rev_ind; [cbn; unfold M in *; lia|].
  rewrite extend_snoc, make_child_length_eq, IH, length_app. cbn [length].
  change (MAX_PATH_LEN G) with M.
  destruct (Z.leb_spec (Z.min (1 + Z.of_nat (length xs)) (M + 1)) M);
    cbn [b2z]; rewrite u8_small; lia.
Qed.

Lemma extend_type_tail self r k pr xs :
  M - 1 <= Z.of_nat (length xs) ->
  type_tail G (extend TB G (make_source self r k pr) xs)
  = type_id (oldest_retained M (map x_type xs)).
Proof.
  intros Hn. rewrite (type_tail_field TB seed_len).
  rewrite oldest_retained_rev by (rewrite ?length_map; unfold M; lia).
  pose proof (extend_fields TB seed_len HTB HM Hfit
                (make_source self r k pr) xs
                ltac:(apply source_window_ok; assumption)
                (Z.to_nat (M - 2))) as H.
  fold G M in H. rewrite Z2Nat.id in H by (unfold M; lia).
  replace (M - 2 - (M - 2)) with 0 in H by lia.
  apply H; unfold M in *; lia.
Qed.

Lemma census_invariant self r k pr xs :
  (2 <= length (path_type_counts_ self))%nat ->
  let q := extend TB G (make_source self r k pr) xs in
  let w := retained M (map x_type xs) in
  exists rest,
    path_type_counts_ q
    = (1 + count_type MATCH w) :: count_type STAY w :: rest.
Proof.
  intros Hself. pose proof window_small as HM33.
  induction xs as [|x xs IH] using rev_ind.
  - cbn. destruct (path_type_counts_ self) as [|a [|b rest]];
      cbn in Hself; try lia.
    exists rest. reflexivity.
  - cbv zeta in IH |- *. destruct IH as [rest IH].
    rewrite extend_snoc, map_app. cbn [map].
    set (p := extend TB G (make_source self r k pr) xs) in *.
    set (tys := map x_type xs) in *.
    assert (Hn : length tys = length xs) by apply length_map.
    destruct (make_child_counts TB G (x_self x) p (x_range x) (x_kmer x)
                (x_prob x) (x_type x) _ _ _ IH) as [rest' Hc].
    cbv zeta in Hc. rewrite Hc. exists rest'.
    pose proof (count_type_bounds MATCH (retained M tys)) as Hb0.
    pose proof (count_type_bounds STAY (retained M tys)) as Hb1.
    pose proof (retained_length M tys ltac:(unfold M; lia)) as Hrl.
    assert (Hlen : length_ p = Z.min (1 + Z.of_nat (length xs)) (M + 1))
      by apply extend_length_eq.
    change (MAX_PATH_LEN G) with M. rewrite Hlen.
    destruct (Z.le_gt_cases (M - 1) (Z.of_nat (length xs))) as [Hfull|Hshort].
    + (* the window of the parent is full: its oldest type is dropped *)
      rewrite retained_snoc_full by (unfold M in *; lia).
      assert (Hne : retained M tys <> []).
      { intros E. rewrite E in Hrl. cbn in Hrl. unfold M in *. lia. }
      rewrite !count_type_snoc, !count_type_drop1 by exact Hne.
      assert (Htail : type_tail G p = type_id (oldest_retained M tys))
        by (apply extend_type_tail; lia).
      rewrite Htail. unfold oldest_retained.
      assert (Hover :
        (u8 (Z.min (1 + Z.of_nat (length xs)) (M + 1)
             + b2z (Z.min (1 + Z.of_nat (length xs)) (M + 1) <=? M)) >? M)
        = true).
      { destruct (Z.leb_spec (Z.min (1 + Z.of_nat (length xs)) (M + 1)) M);
          cbn [b2z]; rewrite u8_small by lia; apply Z.gtb_lt; lia. }
      rewrite Hover. cbn [andb].
      assert (Hhd : 1 <= count_type (hd MATCH (retained M tys))
                          (retained M tys)).
      { destruct (retained M tys) as [|h l]; [congruence|].
        unfold count_type. cbn [hd List.filter]. rewrite Z.eqb_refl.
        cbn [length]. lia. }
      destruct (hd MATCH (retained M tys)), (x_type x);
        cbn [type_id is_stay Z.eqb Pos.eqb b2z] in *;
        u8_simpl; f_equal; try lia; f_equal; lia.
    + rewrite retained_snoc_short by lia.
      rewrite !count_type_snoc.
      assert (Hover :
        (u8 (Z.min (1 + Z.of_nat (length xs)) (M + 1)
             + b2z (Z.min (1 + Z.of_nat (length xs)) (M + 1) <=? M)) >? M)
        = false).
      { destruct (Z.leb_spec (Z.min (1 + Z.of_nat (length xs)) (M + 1)) M);
          cbn [b2z]; rewrite u8_small by lia;
          match goal with |- (?a >? ?b) = false =>
            destruct (Z.gtb_spec a b); [lia | reflexivity] end. }
      rewrite Hover. cbn [andb].
      destruct (x_type x); cbn [type_id is_stay Z.eqb Pos.eqb b2z];
        u8_simpl; f_equal; try lia; f_equal; lia.
Qed.

End Census.

(** X1.  [path_type_counts_] is a census of the window: on a path grown from a
    source, the counter of STAY is the number of STAY events among the
    retained ones (the last [MAX_PATH_LEN - 1] at most), the counter of
    MATCH, which [match_len] returns, is the number of MATCH events among
    them plus one for the source, and the two add up to the length of the
    path capped at [MAX_PATH_LEN]. *)
Theorem type_counts_census (TB seed_len : Z) (self : PathBuffer) (r : Range)
    (k : Z) (pr : f32) (xs : list Extension) :
  1 <= TB <= 8 -> 2 <= u8 seed_len -> TB * (u8 seed_len - 1) <= 32 ->
  (2 <= length (path_type_counts_ self))%nat ->
  let G := init_statics TB seed_len in
  let q := extend TB G (make_source self r k pr) xs in
  let w := retained (MAX_PATH_LEN G) (map x_type xs) in
  match_len q = 1 + count_type MATCH w
  /\ zget 0 (path_type_counts_ q) (type_id STAY) = count_type STAY w
  /\ match_len q + zget 0 (path_type_counts_ q) (type_id STAY)
     = Z.min (length_ q) (MAX_PATH_LEN G).
Proof.
  intros HTB HM Hfit Hself G q w.
  destruct (census_invariant TB seed_len HTB HM Hfit self r k pr xs Hself)
    as [rest Hc].
  fold G q in Hc. change (u8 seed_len) with (MAX_PATH_LEN G) in Hc.
  fold w in Hc.
  unfold match_len. rewrite Hc. cbn [type_id].
  change (zget 0 (?a :: ?b :: rest) 0) with a.
  change (zget 0 (?a :: ?b :: rest) 1) with b.
  split; [reflexivity|]. split; [reflexivity|].
  pose proof (count_type_total w) as Ht.
  pose proof (retained_length (MAX_PATH_LEN G) (map x_type xs)
                ltac:(change (MAX_PATH_LEN G) with (u8 seed_len); lia)) as Hl.
  fold w in Hl. rewrite length_map in Hl.
  unfold q, G. rewrite (extend_length_eq TB seed_len HTB HM Hfit).
  change (MAX_PATH_LEN G) with (u8 seed_len) in Hl.
  change (MAX_PATH_LEN (init_statics TB seed_len)) with (u8 seed_len).
  lia.
Qed.

Lemma type_counts_census_witness :
  (1 <= 2 <= 8 /\ 2 <= u8 3 /\ 2 * (u8 3 - 1) <= 32
   /\ (2 <= length (path_type_counts_ Tiny.slot))%nat)
  /\ match_len Tiny.stay_then_match = 1 + 1
  /\ zget 0 (path_type_counts_ Tiny.stay_then_match) (type_id STAY) = 1.
Proof.
  split; [vm_compute; repeat split; try discriminate; lia|].
  pose proof (type_counts_census 2 3 Tiny.slot (mkRange 2 2) 1 f32_zero
                [Tiny.ext (mkRange 2 2) 1 STAY; Tiny.ext (mkRange 1 1) 0 MATCH]
                ltac:(vm_compute; split; discriminate)
                ltac:(vm_compute; discriminate)
                ltac:(vm_compute; discriminate)
                ltac:(vm_compute; lia)) as (H1 & H2 & _).
  split; [exact H1 | exact H2].
Defined.

(** *** The sums of probabilities *)

Lemma zget_nth {A} (d : A) (l : list A) (i : Z) :
  0 <= i -> zget d l i = nth (Z.to_nat i) l d.
Proof.
  intros Hi. unfold zget. destruct (Z.ltb_spec i 0); [lia|].
  symmetry. apply nth_lookup.
Qed.

Lemma zset_length {A} (l : list A) (i : Z) (v : A) :
  length (zset l i v) = length l.
Proof. unfold zset. destruct (i <? 0); [reflexivity | apply length_insert]. Qed.

Lemma nth_zset_eq {A} (d : A) (l : list A) (i : Z) (v : A) :
  0 <= i < Z.of_nat (length l) -> nth (Z.to_nat i) (zset l i v) d = v.
Proof.
  intros Hi. unfold zset. destruct (Z.ltb_spec i 0); [lia|].
  rewrite nth_lookup, list_lookup_insert_eq by lia. reflexivity.
Qed.

Lemma nth_zset_ne {A} (d : A) (l : list A) (i : Z) (v : A) (j : nat) :
  j <> Z.to_nat i -> nth j (zset l i v) d = nth j l d.
Proof.
  intros Hj. unfold zset. destruct (Z.ltb_spec i 0); [reflexivity|].
  rewrite !nth_lookup, list_lookup_insert_ne by lia. reflexivity.
Qed.

Lemma memcpy_length {A} (dst src : list A) (n : Z) :
  (Z.to_nat n <= length src)%nat -> (Z.to_nat n <= length dst)%nat ->
  length (memcpy dst src n) = length dst.
Proof.
  intros Hs Hd. unfold memcpy. rewrite length_app, length_take, length_drop.
  lia.
Qed.

Lemma nth_memcpy {A} (d : A) (dst src : list A) (n : Z) (j : nat) :
  (j < Z.to_nat n)%nat -> (Z.to_nat n <= length src)%nat ->
  nth j (memcpy dst src n) d = nth j src d.
Proof.
  intros Hj Hs. unfold memcpy.
  rewrite app_nth1 by (rewrite length_take; lia).
  rewrite !nth_lookup, lookup_take_lt by lia. reflexivity.
Qed.

Lemma nth_drop {A} (d : A) (l : list A) (a j : nat) :
  nth j (drop a l) d = nth (a + j) l d.
Proof. rewrite !nth_lookup, lookup_drop. reflexivity. Qed.

Lemma run_sums_snoc_lt acc ps p j :
  (j <= length ps)%nat ->
  nth j (run_sums acc (ps ++ [p])) f32_zero = nth j (run_sums acc ps) f32_zero.
Proof.
  revert acc j. induction ps as [|q ps IH]; intros acc j Hj.
  - cbn in Hj. replace j with 0%nat by lia. reflexivity.
  - cbn [app run_sums]. destruct j as [|j]; [reflexivity|].
    cbn [nth]. apply IH. cbn in Hj. lia.
Qed.

Lemma run_sums_snoc_last acc ps p :
  nth (S (length ps)) (run_sums acc (ps ++ [p])) f32_zero
  = f32_add (nth (length ps) (run_sums acc ps) f32_zero) p.
Proof.
  revert acc. induction ps as [|q ps IH]; intros acc; [reflexivity|].
  cbn [app run_sums length nth]. apply IH.
Qed.

Lemma prob_sums_of_snoc_lt pr ps p j :
  (j <= S (length ps))%nat ->
  nth j (prob_sums_of pr (ps ++ [p])) f32_zero
  = nth j (prob_sums_of pr ps) f32_zero.
Proof.
  intros Hj. unfold prob_sums_of. destruct j as [|j]; [reflexivity|].
  cbn [nth]. apply run_sums_snoc_lt. lia.
Qed.

Lemma prob_sums_of_snoc_last pr ps p :
  nth (S (S (length ps))) (prob_sums_of pr (ps ++ [p])) f32_zero
  = f32_add (nth (S (length ps)) (prob_sums_of pr ps) f32_zero) p.
Proof. unfold prob_sums_of. cbn [nth]. apply run_sums_snoc_last. Qed.

Section Sums.
Variable TB : Z.
Variable G : PathStatics.
Hypothesis HM : 1 <= MAX_PATH_LEN G <= 254.

Let M := MAX_PATH_LEN G.

Lemma sums_inv_source self r k pr :
  length (prob_sums_ self) = Z.to_nat (M + 1) ->
  sums_inv G pr [] (make_source self r k pr).
Proof.
  intros Hs. unfold sums_inv. cbv zeta. fold M.
  cbn [length make_source prob_sums_ length_].
  rewrite !zset_length.
  split; [exact Hs|]. split; [unfold M in *; lia|].
  intros j Hj.
  replace (0 + 1 - Z.to_nat M + j)%nat with j by (unfold M in *; lia).
  destruct j as [|[|j]].
  - rewrite nth_zset_ne by (cbn; lia).
    apply (nth_zset_eq f32_zero (prob_sums_ self) 0). unfold M in *. lia.
  - apply (nth_zset_eq f32_zero (zset (prob_sums_ self) 0 f32_zero) 1).
    rewrite zset_length. unfold M in *. lia.
  - unfold M in *. lia.
Qed.

Lemma sums_inv_child pr ps q self r k p ty :
  length (prob_sums_ self) = Z.to_nat (M + 1) ->
  sums_inv G pr ps q ->
  sums_inv G pr (ps ++ [p]) (make_child TB G self q r k p ty).
Proof.
  intros Hself (Hlen & Hl & Hnth). unfold sums_inv. cbv zeta. fold M.
  cbv zeta in Hl, Hnth, Hlen. fold M in Hl, Hnth, Hlen.
  rewrite length_app. cbn [length].
  set (n := length ps) in *.
  assert (Hq : u8 (length_ q + b2z (length_ q <=? MAX_PATH_LEN G))
               = Z.min (2 + Z.of_nat n) (M + 1)).
  { rewrite Hl. fold M.
    destruct (Z.leb_spec (Z.min (1 + Z.of_nat n) (M + 1)) M); cbn [b2z];
      rewrite u8_small; unfold M in *; lia. }
  unfold make_child. rewrite Hq. fold M.
  destruct (Z.gtb_spec (Z.min (2 + Z.of_nat n) (M + 1)) M) as [Hov|Hno];
    cbn [prob_sums_ length_].
  - (* the window slides *)
    assert (HnM : M - 1 <= Z.of_nat n) by lia.
    rewrite zset_length, memcpy_length
      by (rewrite ?length_drop; unfold M in *; lia).
    split; [exact Hself|]. split; [lia|].
    intros j Hj.
    destruct (Nat.eq_dec j (Z.to_nat M)) as [->|Hne].
    + rewrite nth_zset_eq
        by (rewrite memcpy_length
              by (rewrite ?length_drop; unfold M in *; lia);
            unfold M in *; lia).
      rewrite zget_nth by (unfold M in *; lia).
      rewrite nth_memcpy
        by (rewrite ?length_drop; unfold M in *; lia).
      rewrite nth_drop.
      replace (1 + Z.to_nat (M - 1))%nat with (Z.to_nat M)
        by (unfold M in *; lia).
      rewrite Hnth by (unfold M in *; lia).
      replace (n + 1 + 1 - Z.to_nat M + Z.to_nat M)%nat with (S (S n))
        by (unfold M in *; lia).
      replace (n + 1 - Z.to_nat M + Z.to_nat M)%nat with (S n)
        by (unfold M in *; lia).
      unfold n. symmetry. apply prob_sums_of_snoc_last.
    + rewrite nth_zset_ne by (unfold M in *; lia).
      rewrite nth_memcpy
        by (rewrite ?length_drop; unfold M in *; lia).
      rewrite nth_drop, Hnth by (unfold M in *; lia).
      rewrite prob_sums_of_snoc_lt by (fold n; unfold M in *; lia).
      f_equal. unfold M in *. lia.
  - (* the window still grows *)
    assert (HnM : Z.of_nat n + 2 <= M) by lia.
    replace (Z.min (2 + Z.of_nat n) (M + 1)) with (2 + Z.of_nat n) by lia.
    rewrite zset_length, memcpy_length by (unfold M in *; lia).
    split; [exact Hself|]. split; [lia|].
    intros j Hj.
    replace (n + 1 + 1 - Z.to_nat M + j)%nat with j by (unfold M in *; lia).
    destruct (Nat.eq_dec j (S (S n))) as [->|Hne].
    + replace (S (S n)) with (Z.to_nat (2 + Z.of_nat n)) at 1 by lia.
      rewrite nth_zset_eq
        by (rewrite memcpy_length by (unfold M in *; lia);
            unfold M in *; lia).
      rewrite zget_nth by lia.
      rewrite nth_memcpy by (unfold M in *; lia).
      rewrite Hnth by (unfold M in *; lia).
      replace (n + 1 - Z.to_nat M + Z.to_nat (2 + Z.of_nat n - 1))%nat
        with (S n) by (unfold M in *; lia).
      unfold n. symmetry. apply prob_sums_of_snoc_last.
    + rewrite nth_zset_ne by lia.
      rewrite nth_memcpy by (unfold M in *; lia).
      rewrite Hnth by (unfold M in *; lia).
      rewrite prob_sums_of_snoc_lt by (fold n; unfold M in *; lia).
      f_equal. unfold M in *. lia.
Qed.

Lemma sums_inv_extend self r k pr xs :
  length (prob_sums_ self) = Z.to_nat (M + 1) ->
  Forall (fun x => length (prob_sums_ (x_self x)) = Z.to_nat (M + 1)) xs ->
  sums_inv G pr (map x_prob xs) (extend TB G (make_source self r k pr) xs).
Proof.
  intros Hs Hxs. induction xs as [|x xs IH] using rev_ind.
  - apply sums_inv_source, Hs.
  - apply Forall_app in Hxs. destruct Hxs as [Hxs Hx].
    rewrite extend_snoc, map_app. cbn [map].
    apply sums_inv_child; [|apply IH, Hxs].
    inversion Hx; assumption.
Qed.

Lemma make_child_seed_prob self p r k pr ty :
  let q := make_child TB G self p r k pr ty in
  seed_prob_ q
  = if length_ q >? M
    then f32_div (f32_sub (zget f32_zero (prob_sums_ q) M)
                          (zget f32_zero (prob_sums_ q) 0)) (f32_of_Z M)
    else f32_div (zget f32_zero (prob_sums_ q) (length_ q))
                 (f32_of_Z (length_ q)).
Proof.
  unfold make_child. fold M.
  destruct (_ >? M) eqn:E; cbn [seed_prob_ length_ prob_sums_]; rewrite E;
    reflexivity.
Qed.

End Sums.

(** X3.  [prob_sums_] is a window on the running sums of the probabilities of
    the path, added up in binary32 in the order of the events: entry [j]
    is the sum of the first [max(0, n + 1 - MAX_PATH_LEN) + j] of the
    [n + 1] probabilities.  [seed_prob_] is the probability of the source on
    a source, the mean of all probabilities while the path has fewer than
    [MAX_PATH_LEN] extensions, and from then on the difference of the last
    sum and the one [MAX_PATH_LEN] events before it, over [MAX_PATH_LEN]. *)
Theorem prob_sums_window (TB : Z) (G : PathStatics) (self : PathBuffer)
    (r : Range) (k : Z) (pr : f32) (xs : list Extension) :
  1 <= MAX_PATH_LEN G <= 254 ->
  length (prob_sums_ self) = Z.to_nat (MAX_PATH_LEN G + 1) ->
  Forall (fun x => length (prob_sums_ (x_self x))
                   = Z.to_nat (MAX_PATH_LEN G + 1)) xs ->
  let M := MAX_PATH_LEN G in
  let n := Z.of_nat (length xs) in
  let q := extend TB G (make_source self r k pr) xs in
  let S := fun i : Z =>
    nth (Z.to_nat i) (prob_sums_of pr (map x_prob xs)) f32_zero in
  (forall j, 0 <= j <= Z.min (n + 1) M ->
     zget f32_zero (prob_sums_ q) j = S (Z.max 0 (n + 1 - M) + j))
  /\ seed_prob_ q
     = if n =? 0 then pr
       else if n <? M then f32_div (S (n + 1)) (f32_of_Z (n + 1))
       else f32_div (f32_sub (S (n + 1)) (S (n + 1 - M))) (f32_of_Z M).
Proof.
  intros HM Hs Hxs M n q S.
  pose proof (sums_inv_extend TB G HM self r k pr xs Hs Hxs)
    as (Hlen & Hl & Hnth).
  rewrite length_map in Hl, Hnth. cbv zeta in Hnth. fold q M n in Hl, Hnth.
  assert (Hget : forall j, 0 <= j <= Z.min (n + 1) M ->
     zget f32_zero (prob_sums_ q) j = S (Z.max 0 (n + 1 - M) + j)).
  { intros j Hj. rewrite zget_nth by lia. rewrite Hnth by (unfold n; lia).
    unfold S. f_equal. unfold n in *. lia. }
  split; [exact Hget|].
  destruct xs as [|x0 xs0] eqn:Exs using rev_ind.
  - reflexivity.
  - clear IHxs0.
    assert (Hn : 1 <= n) by (unfold n; rewrite length_app; cbn; lia).
    destruct (Z.eqb_spec n 0) as [|_]; [lia|].
    unfold q. rewrite extend_snoc.
    rewrite make_child_seed_prob. rewrite <- extend_snoc. fold q M.
    rewrite Hl.
    destruct (Z.ltb_spec n M) as [Hlt|Hge].
    + destruct (Z.gtb_spec (Z.min (1 + n) (M + 1)) M) as [|_]; [lia|].
      replace (Z.min (1 + n) (M + 1)) with (n + 1) by lia.
      rewrite Hget by lia. do 2 f_equal. lia.
    + destruct (Z.gtb_spec (Z.min (1 + n) (M + 1)) M) as [_|]; [|lia].
      rewrite !Hget by lia. do 3 f_equal; lia.
Qed.

(** ** The order of the sort *)

Lemma f32_lt_key (x y : f32) :
  f32_lt x y = true
  <-> f32_is_nan x = false /\ f32_is_nan y = false
      /\ key_lt (f32_key x) (f32_key y).
Proof.
  unfold f32_lt, SFltb, SFcompare, key_lt.
  change (PosDef.Pos.compare_cont Eq) with Pos.compare.
  destruct x as [sx|sx| |sx mx ex], y as [sy|sy| |sy my ey];
    try destruct sx; try destruct sy;
    cbn [f32_key f32_is_nan fst snd];
    repeat match goal with
           | |- context [(?a ?= ?b)%Z] => destruct (Z.compare_spec a b)
           | |- context [Pos.compare ?a ?b] => destruct (Pos.compare_spec a b)
           end;
    cbn [CompOpp];
    (split; [intros Hlt; try discriminate Hlt; repeat split; lia
            | intros (Hn1 & Hn2 & Hk); try discriminate;
              try reflexivity; lia]).
Qed.

Lemma f32_lt_irrefl (x : f32) : f32_lt x x = false.
Proof.
  destruct (f32_lt x x) eqn:E; [|reflexivity].
  apply f32_lt_key in E. destruct E as (_ & _ & E). unfold key_lt in E. lia.
Qed.

Lemma f32_lt_trans (x y z : f32) :
  f32_lt x y = true -> f32_lt y z = true -> f32_lt x z = true.
Proof.
  rewrite !f32_lt_key. unfold key_lt.
  intros (Hx & Hy & H1) (_ & Hz & H2). repeat split; trivial. lia.
Qed.

Lemma f32_lt_false (x y : f32) :
  f32_is_nan x = false -> f32_is_nan y = false ->
  f32_lt x y = false <-> ~ key_lt (f32_key x) (f32_key y).
Proof.
  intros Hx Hy. rewrite <- not_true_iff_false, f32_lt_key. tauto.
Qed.

Lemma f32_le_of_not_lt (x y : f32) :
  f32_is_nan x = false -> f32_is_nan y = false ->
  f32_lt y x = false -> f32_le x y = true.
Proof.
  unfold f32_lt, f32_le, SFltb, SFleb, SFcompare.
  change (PosDef.Pos.compare_cont Eq) with Pos.compare.
  destruct x as [sx|sx| |sx mx ex], y as [sy|sy| |sy my ey];
    try destruct sx; try destruct sy; cbn [f32_is_nan];
    intros Hx Hy; try discriminate;
    repeat match goal with
           | |- context [(?a ?= ?b)%Z] => destruct (Z.compare_spec a b)
           | |- context [Pos.compare ?a ?b] => destruct (Pos.compare_spec a b)
           end;
    cbn [CompOpp]; intros Hlt; try discriminate; try reflexivity; lia.
Qed.

Lemma f32_lt_nan_l (x y : f32) : f32_is_nan x = true -> f32_lt x y = false.
Proof. destruct x; try discriminate. reflexivity. Qed.

Lemma f32_lt_nan_r (x y : f32) : f32_is_nan y = true -> f32_lt x y = false.
Proof. destruct y; try discriminate. destruct x; reflexivity. Qed.

Lemma f32_incomparable_trans (x y z : f32) :
  f32_is_nan y = false ->
  f32_lt x y = false -> f32_lt y x = false ->
  f32_lt y z = false -> f32_lt z y = false ->
  f32_lt x z = false /\ f32_lt z x = false.
Proof.
  intros Hy.
  destruct (f32_is_nan x) eqn:Hx;
    [intros; split; [apply f32_lt_nan_l | apply f32_lt_nan_r]; exact Hx|].
  destruct (f32_is_nan z) eqn:Hz;
    [intros; split; [apply f32_lt_nan_r | apply f32_lt_nan_l]; exact Hz|].
  rewrite !f32_lt_false by assumption. unfold key_lt. lia.
Qed.

Lemma path_lt_spec (p q : PathBuffer) :
  path_lt p q = true
  <-> (start_ (fm_range_ p) < start_ (fm_range_ q)
       \/ (start_ (fm_range_ p) = start_ (fm_range_ q)
           /\ end_ (fm_range_ p) < end_ (fm_range_ q)))
      \/ ((start_ (fm_range_ p) = start_ (fm_range_ q)
           /\ end_ (fm_range_ p) = end_ (fm_range_ q))
          /\ f32_lt (seed_prob_ p) (seed_prob_ q) = true).
Proof.
  unfold path_lt, range_lt, range_eq.
  rewrite !orb_true_iff, !andb_true_iff, !Z.ltb_lt, !Z.eqb_eq. tauto.
Qed.

Lemma path_equiv_spec (p q : PathBuffer) :
  path_equiv p q = true
  <-> (start_ (fm_range_ p) = start_ (fm_range_ q)
       /\ end_ (fm_range_ p) = end_ (fm_range_ q))
      /\ f32_lt (seed_prob_ p) (seed_prob_ q) = false
      /\ f32_lt (seed_prob_ q) (seed_prob_ p) = false.
Proof.
  unfold path_equiv.
  rewrite andb_true_iff, !negb_true_iff, <- !not_true_iff_false.
  rewrite !path_lt_spec. split.
  - intros [H1 H2].
    assert (Hr : start_ (fm_range_ p) = start_ (fm_range_ q)
                 /\ end_ (fm_range_ p) = end_ (fm_range_ q)) by lia.
    split; [exact Hr|]. split; intros Hlt.
    + apply H1. right. split; [exact Hr | exact Hlt].
    + apply H2. right. split; [lia | exact Hlt].
  - intros (Hr & H1 & H2). split; intros [Hlt|[_ Hlt]]; try lia.
    + apply H1, Hlt.
    + apply H2, Hlt.
Qed.

(** X6.  [operator<] is a strict order on paths: no path is below itself, two
    paths are never below each other, and it is transitive; this holds for
    every value of [seed_prob_], not-a-number included. *)
Theorem path_lt_strict_order :
  (forall p, path_lt p p = false)
  /\ (forall p q, path_lt p q = true -> path_lt q p = false)
  /\ (forall p q r,
        path_lt p q = true -> path_lt q r = true -> path_lt p r = true).
Proof.
  assert (Hirr : forall p, path_lt p p = false).
  { intros p. apply not_true_iff_false. rewrite path_lt_spec.
    rewrite f32_lt_irrefl. intros [H|[_ H]]; [lia | discriminate]. }
  assert (Htr : forall p q r,
            path_lt p q = true -> path_lt q r = true -> path_lt p r = true).
  { intros p q r. rewrite !path_lt_spec.
    intros [H1|[E1 H1]] [H2|[E2 H2]].
    - left. lia.
    - left. lia.
    - left. lia.
    - right. split; [lia|]. eapply f32_lt_trans; eassumption. }
  split; [exact Hirr|]. split; [|exact Htr].
  intros p q Hpq. destruct (path_lt q p) eqn:Hqp; [|reflexivity].
  rewrite <- (Hirr p). symmetry. eapply Htr; eassumption.
Qed.

Lemma path_lt_strict_order_witness :
  path_lt (make_source Tiny.slot (mkRange 1 1) 0 f32_zero)
          (make_source Tiny.slot (mkRange 2 3) 1 f32_zero) = true
  /\ path_lt (make_source Tiny.slot (mkRange 2 3) 1 f32_zero)
             (make_source Tiny.slot (mkRange 1 1) 0 f32_zero) = false.
Proof.
  split; [reflexivity|].
  apply (proj1 (proj2 path_lt_strict_order)). reflexivity.
Defined.

(** X7.  Being unordered by [operator<] is transitive as long as the path in
    the middle carries a number in [seed_prob_]: on paths whose
    [seed_prob_] is not a NaN, [operator<] is the strict weak order that a
    sort asks for, and the classes of unordered paths are the paths of one
    range and one probability. *)
Theorem path_equiv_transitive (p q r : PathBuffer) :
  f32_is_nan (seed_prob_ q) = false ->
  path_equiv p q = true -> path_equiv q r = true -> path_equiv p r = true.
Proof.
  intros Hq. rewrite !path_equiv_spec.
  intros (R1 & A1 & B1) (R2 & A2 & B2).
  split; [lia|].
  exact (f32_incomparable_trans _ _ _ Hq A1 B1 A2 B2).
Qed.

Lemma path_equiv_transitive_witness :
  path_equiv (make_source Tiny.slot (mkRange 2 3) 1 (S754_zero false))
             (make_source Tiny.slot (mkRange 2 3) 0 (S754_zero true)) = true.
Proof.
  apply (path_equiv_transitive _
           (make_source Tiny.slot (mkRange 2 3) 2 (S754_zero false)));
    reflexivity.
Defined.

(** With a NaN in the middle two unordered pairs chain into an ordered
    one. *)
Lemma path_equiv_broken_by_nan :
  let mk := fun x => make_source Tiny.slot (mkRange 2 3) 1 x in
  path_equiv (mk (f32_of_Z 1)) (mk S754_nan) = true
  /\ path_equiv (mk S754_nan) (mk (f32_of_Z 2)) = true
  /\ path_lt (mk (f32_of_Z 1)) (mk (f32_of_Z 2)) = true.
Proof. vm_compute. repeat split. Qed.

(** ** Invariants of the beam *)

Section BeamShape.

Context {SeedTracker SeedGroup EventDetector Normalizer Chunk ReadLoc : Type}.

Variables TYPE_BITS ALPH_SIZE : Z.
Variable pdqsort : list PathBuffer -> list PathBuffer.
Variable tracker_add_seed : SeedTracker -> Z -> Z -> Z -> SeedTracker.
Variable tracker_get_final : SeedTracker -> SeedGroup.
Variable sg_is_valid : SeedGroup -> bool.
Variable set_mapped :
  UncalledOpts -> SeedGroup -> @ReadBuffer ReadLoc -> ReadLoc.
Variable o : UncalledOpts.

Local Abbreviation MapperT :=
  (@Mapper SeedTracker EventDetector Normalizer ReadLoc).
Local Abbreviation L := (layout TYPE_BITS o).

Hypothesis Hsort_length : forall l, length (pdqsort l) = length l.

Local Ltac shape_step :=
  unfold shape;
  repeat first
    [ progress cbn [fst snd shape prev_paths_ next_paths_ kmer_probs_
                    sources_added_ set_state set_reset
                    set_last_chunk set_event_i set_prev_size set_prev_paths
                    set_next_paths set_kmer_probs set_sources_added
                    set_seed_tracker set_read set_event_detector set_norm]
    | rewrite zset_length
    | case_match ];
  try reflexivity; try congruence.

Lemma put_child_shape (m : MapperT) np parent r k pr ty :
  shape (put_child TYPE_BITS o m np parent r k pr ty) = shape m.
Proof. unfold put_child. shape_step. Qed.

Lemma update_seeds_shape (m : MapperT) p pe :
  shape (fst (update_seeds TYPE_BITS tracker_add_seed o m p pe)) = shape m.
Proof. unfold update_seeds. shape_step. Qed.

Lemma match_loop_shape fuel :
  forall b parent thresh (m : MapperT) np found,
    shape (fst (fst (match_loop TYPE_BITS o fuel b parent thresh m np found)))
    = shape m.
Proof.
  induction fuel as [|fuel IH]; intros b parent thresh m np found;
    [reflexivity|].
  cbn [match_loop].
  repeat case_match; cbn [fst]; rewrite ?IH; try apply put_child_shape;
    reflexivity.
Qed.

Lemma extend_path_shape (m : MapperT) pi np :
  shape (fst (fst (extend_path TYPE_BITS ALPH_SIZE tracker_add_seed o m pi np)))
  = shape m.
Proof.
  unfold extend_path.
  destruct (negb (is_valid _)); [reflexivity|].
  set (pp := zget _ _ pi).
  set (stay := (_ <? _) && _).
  set (m1 := if stay then _ else m).
  assert (H1 : shape m1 = shape m)
    by (subst m1; destruct stay; [apply put_child_shape | reflexivity]).
  destruct (stay && _); [exact H1|].
  pose proof (match_loop_shape (Z.to_nat ALPH_SIZE) 0 pp
                (get_prob_thresh o (range_length (fm_range_ pp))) m1
                (if stay then np + 1 else np) stay) as H2.
  destruct (match_loop _ _ _ _ _ _ m1 _ _) as [[m2 np2] cf].
  cbn [fst] in H2 |- *.
  destruct (negb cf && negb (sa_checked_ pp)); [|congruence].
  pose proof (update_seeds_shape m2 pp true) as H3.
  destruct (update_seeds _ _ _ m2 pp true) as [m' p']. cbn [fst] in H3 |- *.
  rewrite <- H1, <- H2, <- H3. unfold shape. shape_step.
Qed.

Lemma extend_loop_shape fuel :
  forall pi (m : MapperT) np,
    shape (fst (extend_loop TYPE_BITS ALPH_SIZE tracker_add_seed o fuel pi m
                  np))
    = shape m.
Proof.
  induction fuel as [|fuel IH]; intros pi m np; [reflexivity|].
  cbn [extend_loop].
  pose proof (extend_path_shape m pi np) as H.
  destruct (extend_path _ _ _ _ m pi np) as [[m' np'] stop].
  cbn [fst] in H. destruct stop; cbn [fst]; [exact H|].
  rewrite IH. exact H.
Qed.

Lemma source_before_shape (m : MapperT) np pk u i sk :
  shape (fst (fst (source_before TYPE_BITS o m np pk u i sk))) = shape m.
Proof.
  unfold source_before, push_source.
  destruct (_ && _); [|reflexivity].
  destruct (range_is_valid _); cbn [fst]; unfold shape; cbn;
    rewrite ?zset_length; reflexivity.
Qed.

Lemma source_after_shape ns (m : MapperT) np u i sk :
  shape (fst (fst (source_after TYPE_BITS o ns m np u i sk))) = shape m.
Proof.
  unfold source_after, push_source.
  destruct (_ && _); [|reflexivity].
  destruct (range_is_valid _); cbn [fst]; unfold shape; cbn;
    rewrite ?zset_length; reflexivity.
Qed.

Lemma dedup_step_shape ns (st : MapperT * Z * Z * Range) i :
  shape (fst (fst (fst (dedup_step TYPE_BITS tracker_add_seed o ns st i))))
  = shape (fst (fst (fst st))).
Proof.
  destruct st as [[[m np] pk] u]. unfold dedup_step. cbn [fst].
  pose proof (source_before_shape m np pk u i (kmer_ (next_at TYPE_BITS o m i)))
    as H1.
  destruct (source_before _ _ m np pk u i _) as [[m1 np1] u1].
  cbn [fst] in H1.
  destruct (_ && _).
  - cbn [fst]. rewrite <- H1. unfold shape. shape_step.
  - pose proof (source_after_shape ns m1 np1 u1 i
                  (kmer_ (next_at TYPE_BITS o m i))) as H2.
    destruct (source_after _ _ ns m1 np1 u1 i _) as [[m2 np2] u2].
    cbn [fst] in H2.
    pose proof (update_seeds_shape m2 (next_at TYPE_BITS o m2 i) false) as H3.
    destruct (update_seeds _ _ _ m2 _ false) as [m3 p3]. cbn [fst] in H3 |- *.
    rewrite <- H1, <- H2, <- H3. unfold shape. shape_step.
Qed.

Lemma dedup_fold_shape ns (l : list Z) :
  forall st : MapperT * Z * Z * Range,
    shape (fst (fst (fst
      (fold_left (dedup_step TYPE_BITS tracker_add_seed o ns) l st))))
    = shape (fst (fst (fst st))).
Proof.
  induction l as [|i l IH]; intros st; [reflexivity|].
  cbn [fold_left]. rewrite IH. apply dedup_step_shape.
Qed.

Lemma sort_children_shape (m : MapperT) np :
  shape (sort_children pdqsort m np) = shape m.
Proof.
  unfold sort_children, shape. cbn.
  rewrite length_app, Hsort_length, <- length_app, take_drop. reflexivity.
Qed.

Lemma dedup_phase_shape (m : MapperT) np :
  shape (fst (dedup_phase TYPE_BITS pdqsort tracker_add_seed o m np)) = shape m.
Proof.
  unfold dedup_phase. destruct (negb (np =? 0)); [|reflexivity].
  pose proof (dedup_fold_shape np (zrange np)
                (sort_children pdqsort m np, np,
                 u16 (kmer_count (model_ o)), range_default)) as H.
  destruct (fold_left _ _ _) as [[[m' np'] pk] u]. cbn [fst] in H |- *.
  rewrite H. apply sort_children_shape.
Qed.

Lemma source_loop_shape fuel :
  forall kmer (m : MapperT) np,
    shape (fst (source_loop TYPE_BITS o fuel kmer m np)) = shape m.
Proof.
  induction fuel as [|fuel IH]; intros kmer m np; [reflexivity|].
  cbn [source_loop].
  destruct (_ && negb (np =? next_end m)); [|reflexivity].
  destruct (_ && _).
  - unfold push_source. rewrite IH. unfold shape. shape_step.
  - rewrite IH. unfold shape. shape_step.
Qed.

Lemma fill_kmer_probs_length (probs : list f32) f (l : list Z) :
  length (fold_left (fun ps k => zset ps k (f k)) l probs) = length probs.
Proof.
  revert probs. induction l as [|k l IH]; intros probs; [reflexivity|].
  cbn [fold_left]. rewrite IH. apply zset_length.
Qed.

Lemma fill_kmer_probs_shape (m : MapperT) e :
  shape (fill_kmer_probs o m e) = shape m.
Proof.
  unfold fill_kmer_probs, shape. cbn.
  rewrite fill_kmer_probs_length. reflexivity.
Qed.

End BeamShape.

Lemma zget_Forall {A} (R : A -> Prop) (d : A) (l : list A) (i : Z) :
  Forall R l -> 0 <= i < Z.of_nat (length l) -> R (zget d l i).
Proof.
  intros HR Hi. rewrite zget_nth by lia. rewrite nth_lookup.
  destruct (l !! Z.to_nat i) eqn:E.
  - cbn. eapply Forall_lookup_1; eassumption.
  - apply lookup_ge_None in E. lia.
Qed.

Lemma zget_Forall_live {A} (R : A -> Prop) (d : A) (l : list A) (n i : Z) :
  Forall R (take (Z.to_nat n) l) ->
  0 <= i < n -> i < Z.of_nat (length l) -> R (zget d l i).
Proof.
  intros HR Hi Hl. rewrite zget_nth by lia. rewrite nth_lookup.
  destruct (l !! Z.to_nat i) eqn:E.
  - cbn. apply (Forall_lookup_1 _ _ (Z.to_nat i) _ HR).
    rewrite lookup_take_lt by lia. exact E.
  - apply lookup_ge_None in E. lia.
Qed.

Lemma Forall_zset {A} (R : A -> Prop) (l : list A) (i : Z) (v : A) :
  Forall R l -> R v -> Forall R (zset l i v).
Proof.
  intros Hl Hv. unfold zset. destruct (i <? 0); [exact Hl|].
  apply Forall_insert; assumption.
Qed.

Lemma Forall_live_zset {A} (R : A -> Prop) (l : list A) (n i : Z) (v : A) :
  Forall R (take (Z.to_nat n) l) -> R v ->
  Forall R (take (Z.to_nat n) (zset l i v)).
Proof.
  intros Hl Hv. unfold zset. destruct (i <? 0); [exact Hl|].
  destruct (Nat.lt_ge_cases (Z.to_nat i) (Z.to_nat n)).
  - rewrite take_insert_lt by lia. apply Forall_insert; assumption.
  - rewrite take_insert_ge by lia. exact Hl.
Qed.

Lemma Forall_live_push {A} (R : A -> Prop) (l : list A) (n : Z) (v : A) :
  Forall R (take (Z.to_nat n) l) -> R v -> 0 <= n < Z.of_nat (length l) ->
  Forall R (take (Z.to_nat (n + 1)) (zset l n v)).
Proof.
  intros Hl Hv Hn. unfold zset. destruct (Z.ltb_spec n 0); [lia|].
  replace (Z.to_nat (n + 1)) with (S (Z.to_nat n)) by lia.
  rewrite (take_S_r _ _ v) by (apply list_lookup_insert_eq; lia).
  rewrite take_insert_ge by lia.
  apply Forall_app. split; [exact Hl|]. constructor; [exact Hv|constructor].
Qed.

Section BeamForall.

Context {SeedTracker SeedGroup EventDetector Normalizer Chunk ReadLoc : Type}.

Variables TYPE_BITS ALPH_SIZE : Z.
Variable pdqsort : list PathBuffer -> list PathBuffer.
Variable tracker_add_seed : SeedTracker -> Z -> Z -> Z -> SeedTracker.
Variable tracker_get_final : SeedTracker -> SeedGroup.
Variable sg_is_valid : SeedGroup -> bool.
Variable set_mapped :
  UncalledOpts -> SeedGroup -> @ReadBuffer ReadLoc -> ReadLoc.
Variable o : UncalledOpts.

Local Abbreviation MapperT :=
  (@Mapper SeedTracker EventDetector Normalizer ReadLoc).
Local Abbreviation L := (layout TYPE_BITS o).

(** [W] holds of every slot, [P] of the paths of the generation that is
    extended, [Q] of the paths of the generation that is built. *)
Variables W P Q : PathBuffer -> Prop.

Hypothesis Hsort : forall l, Permutation (pdqsort l) l.
Hypothesis HW_src : forall s r k pr, W s -> W (make_source s r k pr).
Hypothesis HW_child : forall s p r k pr ty,
  W s -> W p -> W (make_child TYPE_BITS L s p r k pr ty).
Hypothesis HW_inv : forall p, W p -> W (invalidate p).
Hypothesis HW_chk : forall p, W p -> W (set_checked p).
Hypothesis HP_chk : forall p, P p -> P (set_checked p).
Hypothesis HQ_src : forall s r k pr,
  W s -> range_is_valid r = true -> Q (make_source s r k pr).
Hypothesis HQ_stay : forall s p pr,
  W s -> W p -> P p -> is_valid p = true ->
  consec_stays_ p < max_consec_stay_ o ->
  Q (make_child TYPE_BITS L s p (fm_range_ p) (kmer_ p) pr STAY).
Hypothesis HQ_match : forall s p b pr,
  W s -> W p -> P p -> is_valid p = true -> 0 <= b < ALPH_SIZE ->
  range_is_valid (fmi_get_neighbor (fmi_ o) (fm_range_ p) b) = true ->
  Q (make_child TYPE_BITS L s p
       (fmi_get_neighbor (fmi_ o) (fm_range_ p) b)
       (model_get_neighbor (model_ o) (kmer_ p) b) pr MATCH).
Hypothesis HQ_inv : forall p, Q p -> Q (invalidate p).
Hypothesis HQ_chk : forall p, Q p -> Q (set_checked p).

Lemma next_at_W (m : MapperT) np i :
  next_ok W Q m np -> 0 <= i < next_end m -> W (next_at TYPE_BITS o m i).
Proof.
  intros (HW & _ & _) Hi. unfold next_at. apply zget_Forall; assumption.
Qed.

Lemma next_at_Q (m : MapperT) np i :
  next_ok W Q m np -> 0 <= i < np -> Q (next_at TYPE_BITS o m i).
Proof.
  intros (_ & HQ & Hnp) Hi. unfold next_end in Hnp. unfold next_at.
  apply (zget_Forall_live Q _ _ np); [exact HQ | lia | lia].
Qed.

Lemma next_ok_push (m : MapperT) np c :
  next_ok W Q m np -> np < next_end m -> W c -> Q c ->
  next_ok W Q (set_next_paths (zset (next_paths_ m) np c) m) (np + 1).
Proof.
  intros (HW & HQ & Hnp) Hlt Hc HQc. unfold next_ok, next_end in *.
  cbn [next_paths_ set_next_paths]. rewrite zset_length.
  split; [apply Forall_zset; assumption|].
  split; [apply Forall_live_push; trivial; lia | lia].
Qed.

Lemma next_ok_update (m : MapperT) np i c :
  next_ok W Q m np -> W c -> Q c ->
  next_ok W Q (set_next_paths (zset (next_paths_ m) i c) m) np.
Proof.
  intros (HW & HQ & Hnp) Hc HQc. unfold next_ok, next_end in *.
  cbn [next_paths_ set_next_paths]. rewrite zset_length.
  split; [apply Forall_zset; assumption|].
  split; [apply Forall_live_zset; assumption | lia].
Qed.

Lemma update_seeds_cases (m : MapperT) p pe :
  (update_seeds TYPE_BITS tracker_add_seed o m p pe = (m, p))
  \/ (is_seed_valid TYPE_BITS L p o pe = true
      /\ snd (update_seeds TYPE_BITS tracker_add_seed o m p pe) = set_checked p
      /\ exists trk,
           fst (update_seeds TYPE_BITS tracker_add_seed o m p pe)
           = set_seed_tracker trk m).
Proof.
  unfold update_seeds. destruct (is_seed_valid _ _ _ _ _); [right|left].
  - split; [reflexivity|]. split; [reflexivity|]. eexists. reflexivity.
  - reflexivity.
Qed.

Lemma match_loop_ok fuel :
  forall b parent thresh (m : MapperT) np found,
    next_ok W Q m np -> np < next_end m ->
    W parent -> P parent -> is_valid parent = true ->
    0 <= b -> b + Z.of_nat fuel <= Z.max 0 ALPH_SIZE ->
    let r := match_loop TYPE_BITS o fuel b parent thresh m np found in
    next_ok W Q (fst (fst r)) (snd (fst r))
    /\ prev_paths_ (fst (fst r)) = prev_paths_ m
    /\ prev_size_ (fst (fst r)) = prev_size_ m
    /\ seed_tracker_ (fst (fst r)) = seed_tracker_ m.
Proof.
  induction fuel as [|fuel IH]; intros b parent thresh m np found
    Hok Hlt HWp HPp Hv Hb Hbf; [cbn; auto|].
  cbn [match_loop].
  destruct (f32_lt _ thresh); [apply IH; trivial; lia|].
  destruct (negb (range_is_valid _)) eqn:Er; [apply IH; trivial; lia|].
  apply negb_false_iff in Er.
  assert (Hput : next_ok W Q (put_child TYPE_BITS o m np parent
                   (fmi_get_neighbor (fmi_ o) (fm_range_ parent) b)
                   (model_get_neighbor (model_ o) (kmer_ parent) b)
                   (zget f32_zero (kmer_probs_ m)
                      (model_get_neighbor (model_ o) (kmer_ parent) b))
                   MATCH) (np + 1)).
  { unfold put_child. destruct Hok as (HW & HQ & Hnp).
    assert (HWs : W (next_at TYPE_BITS o m np))
      by (unfold next_at; apply zget_Forall; trivial;
          unfold next_end in *; lia).
    apply next_ok_push; [split; auto | exact Hlt | |].
    - apply HW_child; assumption.
    - apply HQ_match; trivial; lia. }
  set (m1 := put_child _ _ _ _ _ _ _ _ _) in *.
  destruct (np + 1 =? next_end m1) eqn:Ee.
  - cbn [fst snd]. split; [exact Hput|]. repeat split.
  - apply Z.eqb_neq in Ee.
    destruct (IH (b + 1) parent thresh m1 (np + 1) true Hput
                ltac:(destruct Hput as (_ & _ & ?); lia) HWp HPp Hv
                ltac:(lia) ltac:(lia))
      as (A & B & C & D).
    split; [exact A|]. split; [exact B|]. split; [exact C | exact D].
Qed.

Lemma extend_path_ok (m : MapperT) pi np :
  next_ok W Q m np -> np < next_end m -> prev_ok W P m ->
  0 <= pi < prev_size_ m ->
  let r := extend_path TYPE_BITS ALPH_SIZE tracker_add_seed o m pi np in
  next_ok W Q (fst (fst r)) (snd (fst r))
  /\ prev_ok W P (fst (fst r))
  /\ prev_size_ (fst (fst r)) = prev_size_ m
  /\ (snd r = false -> snd (fst r) < next_end (fst (fst r)))
  /\ (no_seed TYPE_BITS o P Q -> seed_tracker_ (fst (fst r)) = seed_tracker_ m).
Proof.
  intros Hok Hlt (HWp & HPp) Hpi. unfold extend_path.
  set (pp := zget (new_path L) (prev_paths_ m) pi).
  destruct (negb (is_valid pp)) eqn:Ev.
  { cbn [fst snd]. split; [exact Hok|]. split; [split; assumption|].
    split; [reflexivity|]. split; [intros _; exact Hlt | reflexivity]. }
  apply negb_false_iff in Ev.
  assert (Hin : pi < Z.of_nat (length (prev_paths_ m))).
  { destruct (Z.lt_ge_cases pi (Z.of_nat (length (prev_paths_ m))));
      [assumption|].
    exfalso. unfold pp in Ev. rewrite zget_nth in Ev by lia.
    rewrite nth_overflow in Ev by lia. discriminate. }
  assert (HWpp : W pp) by (apply zget_Forall; trivial; lia).
  assert (HPpp : P pp)
    by (apply (zget_Forall_live P _ _ (prev_size_ m)); trivial; lia).
  set (thresh := get_prob_thresh o (range_length (fm_range_ pp))).
  set (stay := (consec_stays_ pp <? max_consec_stay_ o) && _).
  set (m1 := if stay then _ else m).
  set (np1 := if stay then np + 1 else np).
  assert (H1 : next_ok W Q m1 np1 /\ prev_paths_ m1 = prev_paths_ m
               /\ prev_size_ m1 = prev_size_ m
               /\ seed_tracker_ m1 = seed_tracker_ m).
  { subst m1 np1. destruct stay eqn:Es; [|auto].
    split; [|auto]. unfold put_child.
    apply andb_true_iff in Es. destruct Es as [Es _].
    apply Z.ltb_lt in Es.
    assert (HWs : W (next_at TYPE_BITS o m np))
      by (apply (next_at_W m np); trivial; destruct Hok as (_ & _ & ?); lia).
    apply next_ok_push; trivial.
    - apply HW_child; assumption.
    - apply HQ_stay; assumption. }
  destruct H1 as (Hok1 & Hpp1 & Hps1 & Htr1).
  destruct (stay && (np1 =? next_end m1)) eqn:Estop.
  { cbn [fst snd]. split; [exact Hok1|].
    split; [unfold prev_ok; rewrite Hpp1, Hps1; auto|].
    split; [exact Hps1|]. split; [discriminate | auto]. }
  assert (Hlt1 : np1 < next_end m1).
  { destruct Hok1 as (_ & _ & Hb). subst np1 m1. destruct stay.
    - cbn [andb] in Estop. apply Z.eqb_neq in Estop. lia.
    - exact Hlt. }
  pose proof (match_loop_ok (Z.to_nat ALPH_SIZE) 0 pp thresh m1 np1 stay
                Hok1 Hlt1 HWpp HPpp Ev (Z.le_refl 0) ltac:(lia)) as H2.
  cbv zeta in H2.
  destruct (match_loop _ _ _ _ _ _ m1 np1 stay) as [[m2 np2] cf].
  cbn [fst snd] in H2. destruct H2 as (Hok2 & Hpp2 & Hps2 & Htr2).
  destruct (negb cf && negb (sa_checked_ pp)).
  - destruct (update_seeds_cases m2 pp true) as [E|(Esv & Ep & trk & Em)].
    + rewrite E. cbn [fst snd next_end next_paths_ set_prev_paths
                      prev_paths_ prev_size_ seed_tracker_].
      split; [exact Hok2|].
      split.
      { unfold prev_ok. cbn [prev_paths_ set_prev_paths prev_size_].
        rewrite Hpp2, Hpp1, Hps2, Hps1. split.
        - apply Forall_zset; assumption.
        - apply Forall_live_zset; assumption. }
      split; [congruence|].
      split.
      { intros Hs. apply Z.eqb_neq in Hs.
        destruct Hok2 as (_ & _ & Hb). unfold next_end in *.
        cbn [next_paths_ set_prev_paths] in *. lia. }
      intros _. congruence.
    + destruct (update_seeds _ _ _ m2 pp true) as [m' p'].
      cbn [fst snd] in Ep, Em. subst m' p'.
      cbn [fst snd next_end next_paths_ set_prev_paths set_seed_tracker
           prev_paths_ prev_size_ seed_tracker_].
      split; [exact Hok2|].
      split.
      { unfold prev_ok. cbn [prev_paths_ set_prev_paths set_seed_tracker
                              prev_size_].
        rewrite Hpp2, Hpp1, Hps2, Hps1. split.
        - apply Forall_zset; auto.
        - apply Forall_live_zset; auto. }
      split; [congruence|].
      split.
      { intros Hs. apply Z.eqb_neq in Hs.
        destruct Hok2 as (_ & _ & Hb). unfold next_end in *.
        cbn [next_paths_ set_prev_paths set_seed_tracker] in *. lia. }
      intros Hns. rewrite (Hns pp true (or_introl HPpp)) in Esv.
      discriminate.
  - cbn [fst snd]. split; [exact Hok2|].
    split; [unfold prev_ok; rewrite Hpp2, Hpp1, Hps2, Hps1; auto|].
    split; [congruence|].
    split.
    { intros Hs. apply Z.eqb_neq in Hs.
      destruct Hok2 as (_ & _ & Hb). lia. }
    intros _. congruence.
Qed.

Lemma extend_loop_ok fuel :
  forall pi (m : MapperT) np,
    next_ok W Q m np -> np < next_end m -> prev_ok W P m ->
    0 <= pi -> pi + Z.of_nat fuel <= prev_size_ m ->
    let r := extend_loop TYPE_BITS ALPH_SIZE tracker_add_seed o fuel pi m np in
    next_ok W Q (fst r) (snd r) /\ prev_ok W P (fst r)
    /\ prev_size_ (fst r) = prev_size_ m
    /\ (no_seed TYPE_BITS o P Q -> seed_tracker_ (fst r) = seed_tracker_ m).
Proof.
  induction fuel as [|fuel IH]; intros pi m np Hok Hlt Hp Hpi Hf.
  - cbn. auto.
  - cbn [extend_loop].
    pose proof (extend_path_ok m pi np Hok Hlt Hp ltac:(lia)) as H.
    cbv zeta in H.
    destruct (extend_path _ _ _ _ m pi np) as [[m' np'] stop].
    cbn [fst snd] in H. destruct H as (A & B & C & D & E).
    destruct stop; cbn [fst snd]; [auto|].
    destruct (IH (pi + 1) m' np' A (D eq_refl) B ltac:(lia) ltac:(lia))
      as (A' & B' & C' & E').
    split; [exact A'|]. split; [exact B'|]. split; [congruence|].
    intros Hns. rewrite (E' Hns). apply E, Hns.
Qed.

Lemma sort_children_ok (m : MapperT) np :
  next_ok W Q m np -> next_ok W Q (sort_children pdqsort m np) np.
Proof.
  intros (HW & HQ & Hnp). unfold next_ok, next_end, live in *.
  unfold sort_children. cbn [next_paths_ set_next_paths].
  assert (Hl : length (pdqsort (take (Z.to_nat np) (next_paths_ m)))
               = Z.to_nat np).
  { rewrite (Permutation_length (Hsort _)), length_take. lia. }
  split; [|split].
  - apply Forall_app. split.
    + rewrite (Hsort _). apply Forall_take, HW.
    + apply Forall_drop, HW.
  - rewrite take_app_length' by (symmetry; exact Hl).
    rewrite (Hsort _). exact HQ.
  - rewrite length_app, Hl, length_drop. lia.
Qed.

Lemma push_source_ok (m : MapperT) np r k pr :
  next_ok W Q m np -> np < next_end m -> range_is_valid r = true ->
  next_ok W Q (fst (push_source TYPE_BITS o m np r k pr))
          (snd (push_source TYPE_BITS o m np r k pr)).
Proof.
  intros Hok Hlt Hr. unfold push_source. cbn [fst snd].
  assert (HWs : W (next_at TYPE_BITS o m np))
    by (apply (next_at_W m np); trivial; destruct Hok as (_ & _ & ?); lia).
  apply next_ok_push; auto.
Qed.

Lemma source_before_ok (m : MapperT) np pk u i sk :
  next_ok W Q m np ->
  let r := source_before TYPE_BITS o m np pk u i sk in
  next_ok W Q (fst (fst r)) (snd (fst r)) /\ np <= snd (fst r)
  /\ prev_paths_ (fst (fst r)) = prev_paths_ m
  /\ prev_size_ (fst (fst r)) = prev_size_ m
  /\ seed_tracker_ (fst (fst r)) = seed_tracker_ m.
Proof.
  intros Hok. unfold source_before.
  destruct (_ && _) eqn:Ec;
    [|cbn [fst snd]; split; [exact Hok|]; repeat split; lia].
  apply andb_true_iff in Ec. destruct Ec as [Ec _].
  apply andb_true_iff in Ec. destruct Ec as [_ Ec].
  apply negb_true_iff, Z.eqb_neq in Ec.
  set (m1 := set_sources_added _ m).
  assert (Hok1 : next_ok W Q m1 np) by exact Hok.
  destruct (range_is_valid _) eqn:Er.
  - pose proof (push_source_ok m1 np _ sk
                  (zget f32_zero (kmer_probs_ m) sk) Hok1
                  ltac:(destruct Hok as (_ & _ & ?);
                        change (next_end m1) with (next_end m); lia) Er) as H.
    unfold push_source in H |- *. cbn [fst snd] in H |- *.
    split; [exact H|]. repeat split. lia.
  - cbn [fst snd]. split; [exact Hok1|]. repeat split. lia.
Qed.

Lemma source_after_ok ns (m : MapperT) np u i sk :
  next_ok W Q m np ->
  let r := source_after TYPE_BITS o ns m np u i sk in
  next_ok W Q (fst (fst r)) (snd (fst r)) /\ np <= snd (fst r)
  /\ prev_paths_ (fst (fst r)) = prev_paths_ m
  /\ prev_size_ (fst (fst r)) = prev_size_ m
  /\ seed_tracker_ (fst (fst r)) = seed_tracker_ m.
Proof.
  intros Hok. unfold source_after.
  destruct (_ && _) eqn:Ec;
    [|cbn [fst snd]; split; [exact Hok|]; repeat split; lia].
  apply andb_true_iff in Ec. destruct Ec as [Ec _].
  apply negb_true_iff, Z.eqb_neq in Ec.
  destruct (range_is_valid _) eqn:Er.
  - pose proof (push_source_ok m np _ sk
                  (zget f32_zero (kmer_probs_ m) sk) Hok
                  ltac:(destruct Hok as (_ & _ & ?); lia) Er) as H.
    unfold push_source in H |- *. cbn [fst snd] in H |- *.
    split; [exact H|]. repeat split. lia.
  - cbn [fst snd]. split; [exact Hok|]. repeat split. lia.
Qed.

Lemma dedup_step_ok ns (m : MapperT) np pk u i :
  next_ok W Q m np -> 0 <= i < np ->
  let r := dedup_step TYPE_BITS tracker_add_seed o ns (m, np, pk, u) i in
  let m' := fst (fst (fst r)) in
  let np' := snd (fst (fst r)) in
  next_ok W Q m' np' /\ np <= np'
  /\ prev_paths_ m' = prev_paths_ m
  /\ prev_size_ m' = prev_size_ m
  /\ (no_seed TYPE_BITS o P Q -> seed_tracker_ m' = seed_tracker_ m).
Proof.
  intros Hok Hi. unfold dedup_step.
  pose proof (source_before_ok m np pk u i (kmer_ (next_at TYPE_BITS o m i))
                Hok) as H1.
  cbv zeta in H1.
  destruct (source_before _ _ m np pk u i _) as [[m1 np1] u1].
  cbn [fst snd] in H1. destruct H1 as (Hok1 & Hle1 & Hpp1 & Hps1 & Htr1).
  assert (HQi : Q (next_at TYPE_BITS o m1 i))
    by (apply (next_at_Q m1 np1); trivial; lia).
  assert (HWi : W (next_at TYPE_BITS o m1 i))
    by (apply (next_at_W m1 np1); trivial;
        destruct Hok1 as (_ & _ & ?); lia).
  destruct (_ && _).
  - cbn [fst snd].
    split; [apply next_ok_update; auto|].
    split; [lia|]. cbn [prev_paths_ prev_size_ seed_tracker_ set_next_paths].
    repeat split; congruence.
  - pose proof (source_after_ok ns m1 np1 u1 i
                  (kmer_ (next_at TYPE_BITS o m i)) Hok1) as H2.
    cbv zeta in H2.
    destruct (source_after _ _ ns m1 np1 u1 i _) as [[m2 np2] u2].
    cbn [fst snd] in H2. destruct H2 as (Hok2 & Hle2 & Hpp2 & Hps2 & Htr2).
    assert (HQ2 : Q (next_at TYPE_BITS o m2 i))
      by (apply (next_at_Q m2 np2); trivial; lia).
    assert (HW2 : W (next_at TYPE_BITS o m2 i))
      by (apply (next_at_W m2 np2); trivial;
          destruct Hok2 as (_ & _ & ?); lia).
    destruct (update_seeds_cases m2 (next_at TYPE_BITS o m2 i) false)
      as [E|(Esv & Ep & trk & Em)].
    + rewrite E. cbn [fst snd].
      split; [apply next_ok_update; auto|].
      split; [lia|].
      cbn [prev_paths_ prev_size_ seed_tracker_ set_next_paths].
      repeat split; congruence.
    + destruct (update_seeds _ _ _ m2 _ false) as [m3 p3].
      cbn [fst snd] in Ep, Em |- *. subst m3 p3.
      split.
      { apply (next_ok_update (set_seed_tracker trk m2)); auto. }
      split; [lia|].
      cbn [prev_paths_ prev_size_ seed_tracker_ set_next_paths
           set_seed_tracker].
      split; [congruence|]. split; [congruence|].
      intros Hns. rewrite (Hns _ false (or_intror HQ2)) in Esv. discriminate.
Qed.

Lemma dedup_fold_ok ns (l : list Z) :
  forall (m : MapperT) np pk u,
    next_ok W Q m np -> Forall (fun i => 0 <= i < np) l ->
    let r := fold_left (dedup_step TYPE_BITS tracker_add_seed o ns) l
               (m, np, pk, u) in
    let m' := fst (fst (fst r)) in
    let np' := snd (fst (fst r)) in
    next_ok W Q m' np'
    /\ prev_paths_ m' = prev_paths_ m
    /\ prev_size_ m' = prev_size_ m
    /\ (no_seed TYPE_BITS o P Q -> seed_tracker_ m' = seed_tracker_ m).
Proof.
  induction l as [|i l IH]; intros m np pk u Hok Hl.
  - cbn. auto.
  - cbn [fold_left]. inversion Hl as [|? ? Hi Hl']; subst.
    pose proof (dedup_step_ok ns m np pk u i Hok Hi) as H.
    cbv zeta in H.
    destruct (dedup_step _ _ _ ns (m, np, pk, u) i) as [[[m1 np1] pk1] u1].
    cbn [fst snd] in H. destruct H as (Hok1 & Hle & Hpp & Hps & Htr).
    destruct (IH m1 np1 pk1 u1 Hok1
                ltac:(eapply Forall_impl; [exact Hl'|];
                      cbn; intros; lia)) as (A & B & C & D).
    split; [exact A|]. split; [congruence|]. split; [congruence|].
    intros Hns. rewrite (D Hns). apply Htr, Hns.
Qed.

Lemma zrange_bounds n : Forall (fun i => 0 <= i < n) (zrange n).
Proof.
  unfold zrange. apply Forall_forall. intros i Hi.
  apply list_elem_of_In, in_map_iff in Hi. destruct Hi as (j & <- & Hj).
  apply in_seq in Hj. lia.
Qed.

Lemma dedup_phase_ok (m : MapperT) np :
  next_ok W Q m np ->
  let r := dedup_phase TYPE_BITS pdqsort tracker_add_seed o m np in
  next_ok W Q (fst r) (snd r)
  /\ prev_paths_ (fst r) = prev_paths_ m
  /\ prev_size_ (fst r) = prev_size_ m
  /\ (no_seed TYPE_BITS o P Q -> seed_tracker_ (fst r) = seed_tracker_ m).
Proof.
  intros Hok. unfold dedup_phase.
  destruct (negb (np =? 0)); [|cbn; auto].
  pose proof (dedup_fold_ok np (zrange np) (sort_children pdqsort m np) np
                (u16 (kmer_count (model_ o))) range_default
                (sort_children_ok m np Hok) (zrange_bounds np)) as H.
  cbv zeta in H.
  destruct (fold_left _ _ _) as [[[m' np'] pk] u]. cbn [fst snd] in H |- *.
  exact H.
Qed.

Lemma source_loop_ok fuel :
  forall kmer (m : MapperT) np,
    next_ok W Q m np ->
    let r := source_loop TYPE_BITS o fuel kmer m np in
    next_ok W Q (fst r) (snd r)
    /\ prev_paths_ (fst r) = prev_paths_ m
    /\ prev_size_ (fst r) = prev_size_ m
    /\ seed_tracker_ (fst r) = seed_tracker_ m.
Proof.
  induction fuel as [|fuel IH]; intros kmer m np Hok; [cbn; auto|].
  cbn [source_loop].
  destruct (_ && negb (np =? next_end m)) eqn:Ec; [|cbn; auto].
  apply andb_true_iff in Ec. destruct Ec as [_ Ec].
  apply negb_true_iff, Z.eqb_neq in Ec.
  destruct (_ && range_is_valid _) eqn:Es.
  - apply andb_true_iff in Es. destruct Es as [_ Er].
    pose proof (push_source_ok m np _ kmer
                  (zget f32_zero (kmer_probs_ m) kmer) Hok
                  ltac:(destruct Hok as (_ & _ & ?); lia) Er) as H.
    unfold push_source in H |- *. cbn [fst snd] in H.
    destruct (IH (kmer + 1) _ _ H) as (A & B & C & D).
    split; [exact A|]. repeat split; assumption.
  - apply (IH (kmer + 1)
             (set_sources_added (zset (sources_added_ m) kmer false) m) np).
    exact Hok.
Qed.

(** The event step takes a beam whose paths satisfy [P] to one whose paths
    satisfy [Q]; when no such path is a valid seed, the tracker is not
    touched. *)
Lemma event_step_beam (m : MapperT) (e : f32) :
  beam_holds W P m ->
  let r := event_step TYPE_BITS ALPH_SIZE pdqsort tracker_add_seed
             tracker_get_final sg_is_valid set_mapped o m e in
  beam_holds W Q (fst r)
  /\ shape (fst r) = shape m
  /\ (no_seed TYPE_BITS o P Q -> seed_tracker_ (fst r) = seed_tracker_ m).
Proof.
  intros (HWp & HWn & HP & Hlen & Hps). unfold event_step.
  set (mA := fill_kmer_probs o m e).
  assert (HokA : next_ok W Q mA 0).
  { split; [exact HWn|]. split; [apply Forall_nil_2|].
    unfold next_end. split; lia. }
  assert (HpA : prev_ok W P mA) by (split; assumption).
  assert (HB : let r := extend_loop TYPE_BITS ALPH_SIZE tracker_add_seed o
                          (Z.to_nat (prev_size_ mA)) 0 mA 0 in
               next_ok W Q (fst r) (snd r) /\ prev_ok W P (fst r)
               /\ prev_size_ (fst r) = prev_size_ mA
               /\ (no_seed TYPE_BITS o P Q ->
                   seed_tracker_ (fst r) = seed_tracker_ mA)).
  { change (prev_size_ mA) with (prev_size_ m).
    destruct (Z.eq_dec (prev_size_ m) 0) as [E0|Hn0].
    - rewrite E0. cbn. auto.
    - assert (H1 : 0 < next_end mA).
      { change (next_end mA) with (Z.of_nat (length (next_paths_ m))). lia. }
      assert (H2 : 0 + Z.of_nat (Z.to_nat (prev_size_ m)) <= prev_size_ mA).
      { change (prev_size_ mA) with (prev_size_ m). lia. }
      exact (extend_loop_ok (Z.to_nat (prev_size_ m)) 0 mA 0 HokA H1 HpA
               (Z.le_refl 0) H2). }
  change (prev_size_ mA) with (prev_size_ m) in HB.
  cbv zeta in HB.
  pose proof (extend_loop_shape TYPE_BITS ALPH_SIZE tracker_add_seed o
                (Z.to_nat (prev_size_ mA)) 0 mA 0) as SB.
  destruct (extend_loop _ _ _ _ _ 0 mA 0) as [mB npB].
  cbn [fst snd] in HB, SB. destruct HB as (HokB & HpB & HpsB & HtrB).
  pose proof (dedup_phase_ok mB npB HokB) as HC. cbv zeta in HC.
  pose proof (dedup_phase_shape TYPE_BITS pdqsort tracker_add_seed o
                ltac:(intros l; apply Permutation_length, Hsort) mB npB) as SC.
  destruct (dedup_phase _ _ _ _ mB npB) as [mC npC].
  cbn [fst snd] in HC, SC. destruct HC as (HokC & HppC & HpsC & HtrC).
  pose proof (source_loop_ok (Z.to_nat (kmer_count (model_ o))) 0 mC npC
                HokC) as HD. cbv zeta in HD.
  pose proof (source_loop_shape TYPE_BITS o
                (Z.to_nat (kmer_count (model_ o))) 0 mC npC) as SD.
  destruct (source_loop _ _ _ 0 mC npC) as [mD npD].
  cbn [fst snd] in HD, SD. destruct HD as (HokD & HppD & HpsD & HtrD).
  assert (Hshape : shape mD = shape m)
    by (rewrite SD, SC, SB; apply fill_kmer_probs_shape).
  unfold shape in Hshape. inversion Hshape as [[Hl1 Hl2 Hl3 Hl4]].
  assert (HWprev : Forall W (prev_paths_ mD)).
  { rewrite HppD, HppC. apply HpB. }
  assert (Hfin : beam_holds W Q
            (set_event_i (u32 (event_i_ mD + 1))
               (set_next_paths (prev_paths_ (set_prev_size npD mD))
                  (set_prev_paths (next_paths_ (set_prev_size npD mD))
                     (set_prev_size npD mD))))).
  { unfold beam_holds.
    cbn [prev_paths_ next_paths_ prev_size_ set_event_i set_next_paths
         set_prev_paths set_prev_size].
    destruct HokD as (A & B & C). unfold next_end in C.
    split; [exact A|]. split; [exact HWprev|]. split; [exact B|].
    split; [lia | lia]. }
  split; [destruct (sg_is_valid _); cbn [fst]; exact Hfin|].
  split.
  - destruct (sg_is_valid _); cbn [fst]; unfold shape; cbn;
      rewrite Hl1, Hl2, Hl3, Hl4, Hlen; reflexivity.
  - intros Hns.
    assert (Ht : seed_tracker_ mD = seed_tracker_ m).
    { rewrite HtrD, (HtrC Hns), (HtrB Hns). reflexivity. }
    destruct (sg_is_valid _); cbn [fst]; exact Ht.
Qed.

End BeamForall.

(** ** Predicates that the event step carries over *)

Lemma u8_bounds x : 0 <= u8 x < 256.
Proof. unfold u8. apply Z.mod_pos_bound. lia. Qed.

Lemma u8_le x : 0 <= x -> u8 x <= x.
Proof. intros H. unfold u8. apply Z.mod_le; lia. Qed.

Lemma make_child_range TB G s p r k pr ty :
  fm_range_ (make_child TB G s p r k pr ty) = r.
Proof.
  unfold make_child.
  match goal with |- fm_range_ (if ?c then _ else _) = _ => destruct c end;
    reflexivity.
Qed.

Lemma make_child_kmer TB G s p r k pr ty :
  kmer_ (make_child TB G s p r k pr ty) = k.
Proof.
  unfold make_child.
  match goal with |- kmer_ (if ?c then _ else _) = _ => destruct c end;
    reflexivity.
Qed.

Lemma make_child_slot_ok TB G s p r k pr ty :
  0 <= MAX_PATH_LEN G -> slot_ok G s -> slot_ok G p ->
  slot_ok G (make_child TB G s p r k pr ty).
Proof.
  intros HM [Hs1 Hs2] [Hp1 Hp2]. unfold slot_ok, make_child.
  set (len := u8 _).
  assert (Hlen : 0 <= len) by (subst len; apply u8_bounds).
  destruct (Z.gtb_spec len (MAX_PATH_LEN G));
    cbn [path_type_counts_ prob_sums_]; rewrite !zset_length;
    rewrite !memcpy_length; try split; trivial;
    rewrite ?length_drop; unfold NUM_TYPES in *; lia.
Qed.

Lemma step_keeps_slots TB o :
  step_keeps TB o (slot_ok (layout TB o)) (fun _ => True) (fun _ => True).
Proof.
  unfold step_keeps. repeat split; trivial.
  - cbn [make_source path_type_counts_]. rewrite !zset_length. apply H.
  - cbn [make_source prob_sums_]. rewrite !zset_length. apply H.
  - apply make_child_slot_ok; trivial.
    unfold layout, init_statics. cbn [MAX_PATH_LEN]. apply u8_bounds.
  - apply make_child_slot_ok; trivial.
    unfold layout, init_statics. cbn [MAX_PATH_LEN]. apply u8_bounds.
  - apply H.
  - apply H.
  - apply H.
  - apply H.
Qed.

Lemma step_keeps_ranges TB o :
  let R := fun p => range_is_valid (fm_range_ p) = true in
  step_keeps TB o (fun _ => True) R R.
Proof.
  unfold step_keeps. repeat split; trivial; intros;
    rewrite ?make_child_range; assumption.
Qed.

Lemma step_keeps_stays TB o :
  let S := fun p => 0 <= consec_stays_ p <= Z.max 0 (max_consec_stay_ o) in
  step_keeps TB o (fun _ => True) S S.
Proof.
  unfold step_keeps. repeat split; trivial; intros;
    rewrite ?make_child_consec_stays; cbn [consec_stays_ make_source
      invalidate set_checked is_stay b2z]; try lia.
  - pose proof (u8_bounds ((consec_stays_ p + 1) * 1)). lia.
  - pose proof (u8_le ((consec_stays_ p + 1) * 1) ltac:(lia)). lia.
  - rewrite Z.mul_0_r. change (u8 0) with 0. lia.
  - rewrite Z.mul_0_r. change (u8 0) with 0. lia.
Qed.

Lemma step_keeps_lengths TB o k :
  0 <= k ->
  step_keeps TB o (fun _ => True)
    (fun p => 0 <= length_ p <= k) (fun p => 0 <= length_ p <= k + 1).
Proof.
  intros Hk. unfold step_keeps. repeat split; trivial; intros;
    rewrite ?make_child_length_eq;
    cbn [length_ make_source invalidate set_checked]; try lia.
  all: match goal with
       | |- 0 <= u8 ?x => pose proof (u8_bounds x); lia
       | |- u8 (?l + b2z ?b) <= _ =>
           pose proof (u8_le (l + b2z b) ltac:(destruct b; cbn; lia));
           destruct b; cbn [b2z] in *; lia
       end.
Qed.

(** ** The calls of a client *)

Section Calls.

Context {SeedTracker SeedGroup EventDetector Normalizer Chunk ReadLoc : Type}.

Variables TYPE_BITS ALPH_SIZE : Z.
Variable pdqsort : list PathBuffer -> list PathBuffer.
Variable tracker_reset : SeedTracker -> SeedTracker.
Variable tracker_add_seed : SeedTracker -> Z -> Z -> Z -> SeedTracker.
Variable tracker_get_final : SeedTracker -> SeedGroup.
Variable sg_is_valid : SeedGroup -> bool.
Variable ed_add_sample : EventDetector -> f32 -> EventDetector * bool.
Variable ed_get_mean : EventDetector -> f32.
Variable ed_reset : EventDetector -> EventDetector.
Variable norm_add_event : Normalizer -> f32 -> Normalizer * bool.
Variable norm_skip_unread : Normalizer -> option Z -> Normalizer * Z.
Variable chunk_clear : Chunk -> Chunk.
Variable read_of_chunk : Chunk -> @ReadBuffer ReadLoc.
Variable read_add_chunk :
  @ReadBuffer ReadLoc -> Chunk -> @ReadBuffer ReadLoc * Chunk * bool.
Variable set_mapped :
  UncalledOpts -> SeedGroup -> @ReadBuffer ReadLoc -> ReadLoc.
Variable norm_empty : Normalizer -> bool.
Variable norm_pop_event : Normalizer -> Normalizer * f32.
Variable get_max_events : Z -> Z.
Variable o : UncalledOpts.

Local Abbreviation MapperT :=
  (@Mapper SeedTracker EventDetector Normalizer ReadLoc).
Local Abbreviation L := (layout TYPE_BITS o).
Local Abbreviation add_event' :=
  (add_event TYPE_BITS ALPH_SIZE pdqsort tracker_add_seed tracker_get_final
     sg_is_valid set_mapped o).
Local Abbreviation event_step' :=
  (event_step TYPE_BITS ALPH_SIZE pdqsort tracker_add_seed tracker_get_final
     sg_is_valid set_mapped o).
Local Abbreviation map_loop' :=
  (map_loop TYPE_BITS ALPH_SIZE pdqsort tracker_add_seed tracker_get_final
     sg_is_valid set_mapped norm_empty norm_pop_event o).
Local Abbreviation map_chunk' :=
  (map_chunk TYPE_BITS ALPH_SIZE pdqsort tracker_add_seed tracker_get_final
     sg_is_valid set_mapped norm_empty norm_pop_event get_max_events o).
Local Abbreviation process_chunk' :=
  (process_chunk ed_add_sample ed_get_mean norm_add_event norm_skip_unread).
Local Abbreviation process_sample' :=
  (process_sample ed_add_sample ed_get_mean norm_add_event norm_skip_unread).
Local Abbreviation process_samples' :=
  (process_samples ed_add_sample ed_get_mean norm_add_event norm_skip_unread).
Local Abbreviation call' :=
  (call TYPE_BITS ALPH_SIZE pdqsort tracker_reset tracker_add_seed
     tracker_get_final sg_is_valid ed_add_sample ed_get_mean ed_reset
     norm_add_event norm_skip_unread chunk_clear read_of_chunk read_add_chunk
     set_mapped norm_empty norm_pop_event get_max_events o).
Local Abbreviation calls' :=
  (calls TYPE_BITS ALPH_SIZE pdqsort tracker_reset tracker_add_seed
     tracker_get_final sg_is_valid ed_add_sample ed_get_mean ed_reset
     norm_add_event norm_skip_unread chunk_clear read_of_chunk read_add_chunk
     set_mapped norm_empty norm_pop_event get_max_events o).

(** *** What [process_chunk] leaves alone *)

Lemma process_sample_held (m : MapperT) n s :
  held (sum_mapper (process_sample' m n s)) = held m
  /\ (prev_size_ (sum_mapper (process_sample' m n s)) = prev_size_ m
      \/ prev_size_ (sum_mapper (process_sample' m n s)) = 0).
Proof.
  unfold process_sample.
  destruct (ed_add_sample _ s) as [ed emitted].
  destruct emitted; [|cbn; auto].
  cbn [event_detector_ set_event_detector norm_].
  destruct (norm_add_event _ _) as [nm ok].
  destruct ok; [cbn; auto|]. cbn [negb norm_ set_norm].
  destruct (norm_skip_unread nm (Some n)) as [nm1 nskip].
  unfold skip_events. cbn [norm_ set_norm set_prev_size set_event_i].
  destruct (norm_add_event nm1 _) as [nm2 ok2].
  destruct ok2; cbn; auto.
Qed.

Lemma process_samples_held (l : list f32) :
  forall (m : MapperT) n,
    held (sum_mapper (process_samples' l m n)) = held m
    /\ (prev_size_ (sum_mapper (process_samples' l m n)) = prev_size_ m
        \/ prev_size_ (sum_mapper (process_samples' l m n)) = 0).
Proof.
  induction l as [|s l IH]; intros m n; [cbn; auto|].
  cbn [process_samples].
  pose proof (process_sample_held m n s) as [H1 H2].
  destruct (process_sample _ _ _ _ m n s) as [[m1 n1]|[m1 n1]];
    cbn [sum_mapper fst] in *.
  - destruct (IH m1 n1) as [H3 H4]. split; [congruence|].
    destruct H4 as [H4|H4]; [rewrite H4; exact H2 | right; exact H4].
  - auto.
Qed.

Lemma process_chunk_held (m : MapperT) :
  held (fst (process_chunk' m)) = held m
  /\ (prev_size_ (fst (process_chunk' m)) = prev_size_ m
      \/ prev_size_ (fst (process_chunk' m)) = 0).
Proof.
  unfold process_chunk. destruct (_ || _); [cbn; auto|].
  pose proof (process_samples_held (chunk_ (read_ m)) m 0) as [H1 H2].
  destruct (process_samples _ _ _ _ _ m 0) as [[m1 n1]|[m1 n1]];
    cbn [sum_mapper fst] in *; auto.
Qed.

(** *** The event step and the calls *)

Lemma event_step_control (m : MapperT) (e : f32) :
  let r := event_step' m e in
  reset_ (fst r) = reset_ m
  /\ last_chunk_ (fst r) = last_chunk_ m
  /\ event_i_ (fst r) = u32 (event_i_ m + 1)
  /\ event_detector_ (fst r) = event_detector_ m
  /\ norm_ (fst r) = norm_ m
  /\ (snd r = true -> state_ (fst r) = SUCCESS)
  /\ (snd r = false -> state_ (fst r) = state_ m /\ read_ (fst r) = read_ m).
Proof.
  unfold event_step.
  set (mA := fill_kmer_probs o m e).
  pose proof (extend_loop_control TYPE_BITS ALPH_SIZE tracker_add_seed o
                (Z.to_nat (prev_size_ mA)) 0 mA 0) as HB.
  destruct (extend_loop _ _ _ _ _ 0 mA 0) as [mB npB]. cbn [fst] in HB.
  pose proof (dedup_phase_control TYPE_BITS pdqsort tracker_add_seed o
                mB npB) as HC.
  destruct (dedup_phase _ _ _ _ mB npB) as [mC npC]. cbn [fst] in HC.
  pose proof (source_loop_control TYPE_BITS o
                (Z.to_nat (kmer_count (model_ o))) 0 mC npC) as HD.
  destruct (source_loop _ _ _ 0 mC npC) as [mD npD]. cbn [fst] in HD.
  assert (H : control mD = control m)
    by (rewrite HD, HC, HB; reflexivity).
  unfold control in H. inversion H.
  destruct (sg_is_valid _); cbn; repeat split; try congruence;
    intros; congruence.
Qed.

Lemma beam_holds_reset W P (m m' : MapperT) :
  beam_holds W P m ->
  prev_paths_ m' = prev_paths_ m -> next_paths_ m' = next_paths_ m ->
  prev_size_ m' = prev_size_ m \/ prev_size_ m' = 0 ->
  beam_holds W P m'.
Proof.
  intros (A & B & C & D & E) Hp Hn Hs. unfold beam_holds.
  rewrite Hp, Hn.
  destruct Hs as [Hs|Hs]; rewrite Hs; repeat split; trivial; try lia;
    try apply Forall_nil_2.
Qed.

Hypothesis Hsort : forall l, Permutation (pdqsort l) l.

Lemma event_step_keeps W P Q (m : MapperT) (e : f32) :
  step_keeps TYPE_BITS o W P Q -> beam_holds W P m ->
  beam_holds W Q (fst (event_step' m e))
  /\ shape (fst (event_step' m e)) = shape m
  /\ (no_seed TYPE_BITS o P Q ->
      seed_tracker_ (fst (event_step' m e)) = seed_tracker_ m).
Proof.
  intros (H1 & H2 & H3 & H4 & H5 & H6 & H7 & H8 & H9 & H10) Hb.
  exact (event_step_beam TYPE_BITS ALPH_SIZE pdqsort tracker_add_seed
           tracker_get_final sg_is_valid set_mapped o W P Q Hsort
           H1 H2 H3 H4 H5 H6 H7
           (fun s p b pr Hs Hp HP Hv _ Hr => H8 s p _ _ pr Hs Hp HP Hv Hr)
           H9 H10 m e Hb).
Qed.

(** A property of the beam that the event step carries over holds after
    every call. *)
Lemma add_event_carries W P (m : MapperT) (e : f32) :
  (forall (m : MapperT) e, beam_holds W P m ->
     beam_holds W P (fst (event_step' m e))
     /\ shape (fst (event_step' m e)) = shape m) ->
  beam_holds W P m ->
  beam_holds W P (fst (add_event' m e))
  /\ shape (fst (add_event' m e)) = shape m.
Proof.
  intros Hk Hb. unfold add_event. destruct (_ || _).
  - cbn [fst]. split; [exact Hb | reflexivity].
  - exact (Hk m e Hb).
Qed.

Lemma map_loop_carries W P timed_out fuel :
  (forall (m : MapperT) e, beam_holds W P m ->
     beam_holds W P (fst (event_step' m e))
     /\ shape (fst (event_step' m e)) = shape m) ->
  forall i n (m : MapperT),
    beam_holds W P m ->
    beam_holds W P (fst (map_loop' timed_out fuel i n m))
    /\ shape (fst (map_loop' timed_out fuel i n m)) = shape m.
Proof.
  intros Hk. induction fuel as [|fuel IH]; intros i n m Hb; [cbn; auto|].
  cbn [map_loop]. destruct (_ && _); [|cbn; auto].
  destruct (norm_pop_event (norm_ m)) as [nm ev].
  pose proof (add_event_carries W P (set_norm nm m) ev Hk Hb) as [A B].
  destruct (add_event _ _ _ _ _ _ _ _ (set_norm nm m) ev) as [m' t].
  cbn [fst] in A, B.
  destruct t; [cbn; auto|]. destruct (timed_out i); [cbn; auto|].
  destruct (IH (i + 1) n m' A) as [A' B']. split; [exact A'|].
  rewrite B'. exact B.
Qed.

Lemma call_carries W P (m : MapperT) (c : Call) :
  (forall (m : MapperT) e, beam_holds W P m ->
     beam_holds W P (fst (event_step' m e))
     /\ shape (fst (event_step' m e)) = shape m) ->
  beam_holds W P m ->
  beam_holds W P (call' m c) /\ shape (call' m c) = shape m.
Proof.
  intros Hk Hb. destruct c; cbn [call].
  - split; [|reflexivity].
    apply (beam_holds_reset W P m); auto.
  - unfold swap_chunk. destruct (_ || _); [cbn; auto|].
    destruct (_ && _); [cbn; auto|].
    destruct (read_add_chunk _ _) as [[rd ch] added]. cbn. auto.
  - pose proof (process_chunk_held m) as [H1 H2].
    unfold held in H1. inversion H1 as [[E1 E2 E3 E4 E5 E6 E7 E8 E9 E10 E11]].
    split.
    + apply (beam_holds_reset W P m); auto.
    + unfold shape. rewrite E4, E5, E6, E7. reflexivity.
  - unfold map_chunk. destruct (_ || _); [cbn; auto|].
    apply map_loop_carries; assumption.
  - apply add_event_carries; assumption.
  - cbn. auto.
  - split; [|reflexivity]. apply (beam_holds_reset W P m); auto.
  - cbn. auto.
  - cbn. auto.
  - cbn. auto.
Qed.

Lemma calls_carry W P (cs : list Call) :
  (forall (m : MapperT) e, beam_holds W P m ->
     beam_holds W P (fst (event_step' m e))
     /\ shape (fst (event_step' m e)) = shape m) ->
  forall m : MapperT,
    beam_holds W P m ->
    beam_holds W P (calls' m cs) /\ shape (calls' m cs) = shape m.
Proof.
  intros Hk. induction cs as [|c cs IH]; intros m Hb; [cbn; auto|].
  unfold calls. cbn [fold_left].
  destruct (call_carries W P m c Hk Hb) as [A B].
  destruct (IH _ A) as [A' B']. split; [exact A'|].
  unfold calls in B'. rewrite B'. exact B.
Qed.

Lemma calls_keeps W P (cs : list Call) :
  step_keeps TYPE_BITS o W P P ->
  forall m : MapperT,
    beam_holds W P m ->
    beam_holds W P (calls' m cs) /\ shape (calls' m cs) = shape m.
Proof.
  intros Hk. apply calls_carry. intros m e Hb.
  destruct (event_step_keeps W P P m e Hk Hb) as (A & B & _).
  split; assumption.
Qed.

Lemma mapper_init_beam W P reset0 last0 (read0 : @ReadBuffer ReadLoc)
    (trk : SeedTracker) (ed : EventDetector) (nm : Normalizer) :
  W (new_path L) ->
  beam_holds W P
    (mapper_init TYPE_BITS tracker_reset o reset0 last0 read0 trk ed nm).
Proof.
  intros HW. unfold beam_holds, mapper_init.
  cbn [prev_paths_ next_paths_ prev_size_].
  split; [apply Forall_replicate, HW|].
  split; [apply Forall_replicate, HW|].
  split; [apply Forall_nil_2|]. split; [reflexivity | lia].
Qed.

Lemma new_path_slot_ok G : 0 <= MAX_PATH_LEN G -> slot_ok G (new_path G).
Proof.
  intros HM. unfold slot_ok, new_path. cbn [path_type_counts_ prob_sums_].
  rewrite length_replicate. split; reflexivity.
Qed.

(** X8.  In every state that the calls of a client reach from the constructor,
    the two generations and the two tables keep the sizes the constructor
    gave them, every slot keeps its [NUM_TYPES] counters and its
    [MAX_PATH_LEN + 1] sums, and [prev_size_] stays within the generation:
    no call moves the beam past [max_paths] paths. *)
Theorem beam_within_bounds (reset0 last0 : bool)
    (read0 : @ReadBuffer ReadLoc) (trk : SeedTracker) (ed : EventDetector)
    (nm : Normalizer) (cs : list Call) :
  let m := calls'
    (mapper_init TYPE_BITS tracker_reset o reset0 last0 read0 trk ed nm) cs in
  length (prev_paths_ m) = Z.to_nat (max_paths_ o)
  /\ length (next_paths_ m) = Z.to_nat (max_paths_ o)
  /\ length (kmer_probs_ m) = Z.to_nat (kmer_count (model_ o))
  /\ length (sources_added_ m) = Z.to_nat (kmer_count (model_ o))
  /\ 0 <= prev_size_ m <= Z.of_nat (length (prev_paths_ m))
  /\ Forall (slot_ok L) (prev_paths_ m)
  /\ Forall (slot_ok L) (next_paths_ m).
Proof.
  intros m.
  destruct (calls_keeps (slot_ok L) (fun _ => True) cs
              (step_keeps_slots TYPE_BITS o) _
              (mapper_init_beam (slot_ok L) (fun _ => True) reset0 last0
                 read0 trk ed nm
                 (new_path_slot_ok L ltac:(apply u8_bounds))))
    as [(A & B & _ & _ & E) S].
  fold m in A, B, E, S. unfold shape in S. cbn in S.
  rewrite !length_replicate in S. inversion S as [[S1 S2 S3 S4]].
  repeat split; trivial; try lia.
  all: rewrite ?S1, ?S2, ?S3, ?S4; trivial; lia.
Qed.

(** X9.  Every path in use has an FM range that is not empty, in every state
    that the calls of a client reach from the constructor: children are
    only made with such a range, and so are sources. *)
Theorem live_paths_have_ranges (reset0 last0 : bool)
    (read0 : @ReadBuffer ReadLoc) (trk : SeedTracker) (ed : EventDetector)
    (nm : Normalizer) (cs : list Call) :
  let m := calls'
    (mapper_init TYPE_BITS tracker_reset o reset0 last0 read0 trk ed nm) cs in
  Forall (fun p => range_is_valid (fm_range_ p) = true)
    (live (prev_size_ m) (prev_paths_ m)).
Proof.
  intros m.
  destruct (calls_keeps (fun _ => True)
              (fun p => range_is_valid (fm_range_ p) = true) cs
              (step_keeps_ranges TYPE_BITS o) _
              (mapper_init_beam (fun _ => True) _ reset0 last0
                 read0 trk ed nm I))
    as [(_ & _ & C & _) _].
  exact C.
Qed.

(** X10.  No path in use has more than [max_consec_stay] consecutive stays, in
    every state that the calls of a client reach from the constructor. *)
Theorem live_paths_bound_stays (reset0 last0 : bool)
    (read0 : @ReadBuffer ReadLoc) (trk : SeedTracker) (ed : EventDetector)
    (nm : Normalizer) (cs : list Call) :
  let m := calls'
    (mapper_init TYPE_BITS tracker_reset o reset0 last0 read0 trk ed nm) cs in
  Forall (fun p => 0 <= consec_stays_ p <= Z.max 0 (max_consec_stay_ o))
    (live (prev_size_ m) (prev_paths_ m)).
Proof.
  intros m.
  destruct (calls_keeps (fun _ => True)
              (fun p => 0 <= consec_stays_ p <= Z.max 0 (max_consec_stay_ o))
              cs (step_keeps_stays TYPE_BITS o) _
              (mapper_init_beam (fun _ => True) _ reset0 last0
                 read0 trk ed nm I))
    as [(_ & _ & C & _) _].
  exact C.
Qed.

Local Abbreviation add_events' :=
  (add_events TYPE_BITS ALPH_SIZE pdqsort tracker_add_seed tracker_get_final
     sg_is_valid set_mapped o).

Lemma add_events_quiet (es : list f32) :
  forall (k : Z) (m : MapperT),
    0 <= k ->
    beam_holds (fun _ => True) (fun p => 0 <= length_ p <= k) m ->
    k + Z.of_nat (length es) < seed_len_ o ->
    seed_tracker_ (fst (add_events' m es)) = seed_tracker_ m.
Proof.
  induction es as [|e es IH]; intros k m Hk Hb Hlen; [reflexivity|].
  cbn [add_events length] in *. unfold add_event.
  destruct (_ || _); [reflexivity|].
  destruct (event_step_keeps (fun _ => True)
              (fun p => 0 <= length_ p <= k)
              (fun p => 0 <= length_ p <= k + 1) m e
              (step_keeps_lengths TYPE_BITS o k Hk) Hb) as (A & _ & T).
  assert (Hns : no_seed TYPE_BITS o (fun p => 0 <= length_ p <= k)
                  (fun p => 0 <= length_ p <= k + 1)).
  { intros p pe Hp.
    destruct (is_seed_valid _ _ _ _ _) eqn:E; [|reflexivity].
    apply is_seed_valid_conditions in E. destruct E as (_ & E & _).
    destruct Hp; lia. }
  specialize (T Hns).
  destruct (event_step _ _ _ _ _ _ _ _ m e) as [m' t]. cbn [fst] in A, T.
  destruct t; [exact T|].
  rewrite (IH (k + 1) m' ltac:(lia) A ltac:(lia)). exact T.
Qed.

(** X11.  After [new_read], the tracker receives no seed while fewer than
    [seed_len] events have been added: a path needs [seed_len - 1]
    extensions to be a seed, and the paths of the [k]-th event have at
    most [k - 1]. *)
Theorem no_seed_before_seed_len_events (m : MapperT) (chunk : Chunk)
    (es : list f32) :
  length (prev_paths_ m) = length (next_paths_ m) ->
  Z.of_nat (length es) < seed_len_ o ->
  seed_tracker_
    (fst (add_events'
            (new_read tracker_reset ed_reset norm_skip_unread read_of_chunk
               m chunk) es))
  = tracker_reset (seed_tracker_ m).
Proof.
  intros Hl Hes.
  rewrite (add_events_quiet es 0); [reflexivity | lia | | lia].
  unfold beam_holds, new_read.
  cbn [prev_paths_ next_paths_ prev_size_ set_norm set_event_detector
       set_seed_tracker set_state set_last_chunk set_reset set_event_i
       set_prev_size set_read].
  split; [apply Forall_forall; intros; exact I|].
  split; [apply Forall_forall; intros; exact I|].
  split; [apply Forall_nil_2|]. split; [exact Hl | lia].
Qed.

(** *** Termination, the budget of a call and the reset flag *)

Lemma add_event_frame (m : MapperT) (e : f32) :
  let r := add_event' m e in
  (snd r = true -> finished (fst r) = true)
  /\ (snd r = false -> state_ (fst r) = state_ m)
  /\ last_chunk_ (fst r) = last_chunk_ m
  /\ (event_i_ (fst r) = event_i_ m
      \/ event_i_ (fst r) = u32 (event_i_ m + 1)).
Proof.
  unfold add_event. destruct (_ || _).
  { cbn. repeat split; auto; discriminate. }
  pose proof (event_step_control m e) as (A & B & C & D & E & F & G).
  cbv zeta in *.
  destruct (event_step _ _ _ _ _ _ _ _ m e) as [m' t]. cbn [fst snd] in *.
  split; [intros Ht; unfold finished; rewrite (F Ht); reflexivity|].
  split; [intros Ht; apply (G Ht)|]. split; [exact B | right; exact C].
Qed.

(** X12.  [add_event] reports termination only with the mapper in SUCCESS or
    FAILURE.  When it reports none, it has counted one event, the state is
    the one before the call, and neither a reset nor the budget stood in
    the way.  It never sets another state than these two, and it leaves
    [last_chunk_] alone. *)
Theorem add_event_outcome (m : MapperT) (e : f32) :
  let r := add_event' m e in
  (snd r = true -> finished (fst r) = true)
  /\ (snd r = false ->
      state_ (fst r) = state_ m
      /\ reset_ m = false /\ reset_ (fst r) = false
      /\ event_i_ m < max_events_proc_ o
      /\ event_i_ (fst r) = u32 (event_i_ m + 1))
  /\ (state_ (fst r) = state_ m
      \/ state_ (fst r) = SUCCESS \/ state_ (fst r) = FAILURE)
  /\ last_chunk_ (fst r) = last_chunk_ m.
Proof.
  unfold add_event.
  destruct (reset_ m) eqn:Er; cbn [orb].
  { cbn. repeat split; auto; discriminate. }
  destruct (Z.geb_spec (event_i_ m) (max_events_proc_ o)) as [Hge|Hlt].
  { cbn. repeat split; auto; discriminate. }
  pose proof (event_step_control m e) as (A & B & C & D & E & F & G).
  cbv zeta in *.
  destruct (event_step _ _ _ _ _ _ _ _ m e) as [m' t]. cbn [fst snd] in *.
  split; [intros Ht; unfold finished; rewrite (F Ht); reflexivity|].
  split.
  { intros Ht. destruct (G Ht) as [G1 _]. repeat split; trivial; congruence. }
  split; [|exact B].
  destruct t; [right; left; apply F; reflexivity | left; apply G; reflexivity].
Qed.

Lemma map_loop_outcome timed_out fuel :
  forall i n (m : MapperT),
    let r := map_loop' timed_out fuel i n m in
    (snd r = true -> finished (fst r) = true)
    /\ (snd r = false -> state_ (fst r) = state_ m)
    /\ last_chunk_ (fst r) = last_chunk_ m
    /\ (0 <= event_i_ m -> event_i_ m + Z.of_nat fuel < 2 ^ 32 ->
        event_i_ m <= event_i_ (fst r) <= event_i_ m + Z.of_nat fuel).
Proof.
  induction fuel as [|fuel IH]; intros i n m.
  { cbn. repeat split; try discriminate; lia. }
  cbn [map_loop]. destruct (_ && _).
  2:{ cbn [fst snd]. repeat split; try discriminate; lia. }
  destruct (norm_pop_event (norm_ m)) as [nm ev].
  pose proof (add_event_frame (set_norm nm m) ev) as (A & B & D & Hev).
  cbv zeta in A, B, D, Hev.
  destruct (add_event _ _ _ _ _ _ _ _ (set_norm nm m) ev) as [m' t].
  cbn [fst snd state_ last_chunk_ event_i_ reset_ set_norm] in *.
  assert (Hbound : 0 <= event_i_ m ->
                   event_i_ m + Z.of_nat (S fuel) < 2 ^ 32 ->
                   event_i_ m <= event_i_ m' <= event_i_ m + 1).
  { intros H0 H1. destruct Hev as [->| ->]; [lia|].
    rewrite u32_small by lia. lia. }
  destruct t.
  { cbn [fst snd]. split; [exact A|]. split; [discriminate|].
    split; [exact D|]. intros H0 H1. specialize (Hbound H0 H1). lia. }
  pose proof (B eq_refl) as B1.
  destruct (timed_out i).
  { cbn [fst snd]. split; [discriminate|]. split; [intros _; exact B1|].
    split; [exact D|]. intros H0 H1. specialize (Hbound H0 H1). lia. }
  destruct (IH (i + 1) n m') as (A' & B' & D' & E').
  split; [exact A'|]. split; [intros Hf; rewrite (B' Hf); exact B1|].
  split; [congruence|].
  intros H0 H1. specialize (Hbound H0 H1).
  specialize (E' ltac:(lia) ltac:(lia)). lia.
Qed.

(** X13.  [map_chunk] reports termination only with the mapper in SUCCESS or
    FAILURE, and leaves the state alone when it reports none.  A raised
    reset flag makes it fail the read at once, and it leaves the flag
    raised.  A call never consumes more events than
    [get_max_events(event_i_)], whatever the clock says. *)
Theorem map_chunk_outcome (timed_out : Z -> bool) (m : MapperT) :
  let r := map_chunk' timed_out m in
  (reset_ m = true -> r = (set_state FAILURE m, true))
  /\ (snd r = true -> finished (fst r) = true)
  /\ (snd r = false -> state_ (fst r) = state_ m)
  /\ (0 <= event_i_ m -> event_i_ m + 2 ^ 16 <= 2 ^ 32 ->
      event_i_ m <= event_i_ (fst r)
        <= event_i_ m + u16 (get_max_events (event_i_ m))).
Proof.
  unfold map_chunk. split.
  { intros Hr. rewrite Hr. reflexivity. }
  destruct (_ || _).
  { cbn. repeat split; try discriminate; try lia.
    pose proof (Z.mod_pos_bound (get_max_events (event_i_ m)) (2 ^ 16)
                  ltac:(lia)). unfold u16. lia. }
  pose proof (map_loop_outcome timed_out
                (Z.to_nat (u16 (get_max_events (event_i_ m)))) 0
                (u16 (get_max_events (event_i_ m))) m) as (A & B & _ & D).
  split; [exact A|]. split; [exact B|].
  intros H0 H1.
  pose proof (Z.mod_pos_bound (get_max_events (event_i_ m)) (2 ^ 16)
                ltac:(lia)) as Hu.
  fold (u16 (get_max_events (event_i_ m))) in Hu.
  specialize (D H0 ltac:(lia)). lia.
Qed.

Lemma call_last_chunk (m : MapperT) (c : Call) :
  last_chunk_ (call' m c) = last_chunk_ m \/ last_chunk_ (call' m c) = false.
Proof.
  destruct c; cbn [call].
  - right. reflexivity.
  - left. unfold swap_chunk. destruct (_ || _); [reflexivity|].
    destruct (_ && _); [reflexivity|].
    destruct (read_add_chunk _ _) as [[rd ch] added]. reflexivity.
  - left. pose proof (process_chunk_held m) as [H _].
    unfold held in H. inversion H. reflexivity.
  - left. unfold map_chunk. destruct (_ || _); [reflexivity|].
    apply map_loop_outcome.
  - left. apply add_event_frame.
  - left. reflexivity.
  - left. reflexivity.
  - left. reflexivity.
  - left. reflexivity.
  - left. reflexivity.
Qed.

(** X15.  No call raises [last_chunk_]: after [new_read] it is false for good,
    and the test [last_chunk_ && norm_.empty()] of [map_chunk] never
    holds. *)
Theorem last_chunk_never_raised (m : MapperT) (chunk : Chunk)
    (cs : list Call) :
  last_chunk_ (calls' (call' m (CNewRead chunk)) cs) = false.
Proof.
  assert (H : forall (cs : list Call) (m : MapperT),
            last_chunk_ m = false -> last_chunk_ (calls' m cs) = false).
  { clear. induction cs as [|c cs IH]; intros m Hm; [exact Hm|].
    unfold calls. cbn [fold_left]. apply IH.
    destruct (call_last_chunk m c) as [E|E]; congruence. }
  apply H. reflexivity.
Qed.

(** X14.  While the reset flag is raised, the calls on chunks do nothing but
    fail the read: [swap_chunk] refuses the chunk, [process_chunk] turns
    no sample into an event, [map_chunk] sets FAILURE, and the flag stays
    raised through any sequence of them.  [add_event], [end_reset],
    [deactivate] and [new_read] are the calls that clear it. *)
Theorem reset_blocks_chunk_calls (m : MapperT) :
  reset_ m = true ->
  (forall chunk,
     swap_chunk chunk_clear read_add_chunk o m chunk = (m, chunk, false))
  /\ process_chunk' m = (m, 0)
  /\ (forall timed_out, map_chunk' timed_out m = (set_state FAILURE m, true))
  /\ (forall cs : list Call,
        forallb chunk_call cs = true ->
        calls' m cs = if existsb map_call cs then set_state FAILURE m else m)
  /\ (forall e, reset_ (call' m (CAddEvent e)) = false)
  /\ reset_ (call' m CEndReset) = false
  /\ reset_ (call' m CDeactivate) = false
  /\ (forall chunk, reset_ (call' m (CNewRead chunk)) = false).
Proof.
  intros Hr.
  assert (Hswap : forall (m : MapperT) chunk, reset_ m = true ->
            swap_chunk chunk_clear read_add_chunk o m chunk
            = (m, chunk, false)).
  { intros m0 chunk H0. unfold swap_chunk. rewrite H0, orb_true_r.
    reflexivity. }
  assert (Hproc : forall m : MapperT, reset_ m = true ->
            process_chunk' m = (m, 0)).
  { intros m0 H0. unfold process_chunk. rewrite H0, orb_true_r.
    reflexivity. }
  assert (Hmap : forall (m : MapperT) t, reset_ m = true ->
            map_chunk' t m = (set_state FAILURE m, true)).
  { intros m0 t H0. unfold map_chunk. rewrite H0. reflexivity. }
  split; [intros; apply Hswap, Hr|]. split; [apply Hproc, Hr|].
  split; [intros; apply Hmap, Hr|].
  split.
  { intros cs. revert m Hr.
    induction cs as [|c cs IH]; intros m Hr Hall; [reflexivity|].
    cbn [forallb] in Hall. apply andb_true_iff in Hall.
    destruct Hall as [Hc Hall].
    unfold calls. cbn [fold_left existsb].
    destruct c; try discriminate Hc; cbn [call map_call orb].
    - rewrite Hswap by exact Hr. cbn [fst]. apply IH; assumption.
    - rewrite Hproc by exact Hr. cbn [fst]. apply IH; assumption.
    - rewrite Hmap by exact Hr. cbn [fst].
      fold (calls' (set_state FAILURE m) cs).
      rewrite (IH (set_state FAILURE m) Hr Hall).
      destruct (existsb map_call cs); reflexivity. }
  split.
  { intros e. cbn [call]. unfold add_event. rewrite Hr. reflexivity. }
  repeat split.
Qed.

Lemma process_sample_read (m : MapperT) n s :
  read_ (sum_mapper (process_sample' m n s)) = read_ m.
Proof.
  unfold process_sample.
  destruct (ed_add_sample _ s) as [ed emitted].
  destruct emitted; [|reflexivity].
  cbn [event_detector_ set_event_detector norm_].
  destruct (norm_add_event _ _) as [nm ok].
  destruct ok; [reflexivity|]. cbn [negb norm_ set_norm].
  destruct (norm_skip_unread nm (Some n)) as [nm1 nskip].
  unfold skip_events. cbn [norm_ set_norm set_prev_size set_event_i].
  destruct (norm_add_event nm1 _) as [nm2 ok2].
  destruct ok2; reflexivity.
Qed.

Lemma process_samples_read (l : list f32) :
  forall (m : MapperT) n,
    read_ (sum_mapper (process_samples' l m n)) = read_ m.
Proof.
  induction l as [|s l IH]; intros m n; [reflexivity|].
  cbn [process_samples].
  pose proof (process_sample_read m n s) as Hs.
  destruct (process_sample _ _ _ _ m n s) as [[m1 n1]|[m1 n1]];
    cbn [sum_mapper fst] in Hs |- *; [|exact Hs].
  rewrite IH. exact Hs.
Qed.

Lemma process_sample_count (m : MapperT) n s :
  0 <= n -> n + 1 < 2 ^ 16 ->
  n <= snd (match process_sample' m n s with inl y => y | inr y => y end)
    <= n + 1.
Proof.
  intros Hn Hb. unfold process_sample.
  destruct (ed_add_sample _ s) as [ed emitted].
  destruct emitted; [|cbn; lia].
  cbn [event_detector_ set_event_detector norm_].
  destruct (norm_add_event _ _) as [nm ok].
  destruct ok; cbn [negb norm_ set_norm].
  { cbn. unfold u16. rewrite Z.mod_small by lia. lia. }
  destruct (norm_skip_unread nm (Some n)) as [nm1 nskip].
  unfold skip_events. cbn [norm_ set_norm set_prev_size set_event_i].
  destruct (norm_add_event nm1 _) as [nm2 ok2].
  destruct ok2; cbn; [|lia].
  unfold u16. rewrite Z.mod_small by lia. lia.
Qed.

Lemma process_samples_count (l : list f32) :
  forall (m : MapperT) n,
    0 <= n -> n + Z.of_nat (length l) < 2 ^ 16 ->
    n <= snd (match process_samples' l m n with inl y => y | inr y => y end)
      <= n + Z.of_nat (length l).
Proof.
  induction l as [|s l IH]; intros m n Hn Hl; [cbn; lia|].
  cbn [process_samples length] in *.
  pose proof (process_sample_count m n s Hn ltac:(lia)) as Hs.
  destruct (process_sample _ _ _ _ m n s) as [[m1 n1]|[m1 n1]];
    cbn [snd] in Hs |- *; [|lia].
  pose proof (IH m1 n1 ltac:(lia) ltac:(lia)). lia.
Qed.

(** X16.  [process_chunk] leaves alone the state and the flags, the four
    vectors, the tracker and the identity of the read; [prev_size_] is kept
    or set to 0.  It counts at most one event per sample.  Unless a processed
    chunk or a reset stands in the way, it either consumes the chunk, which
    is then empty and marked as processed, or stops at a normaliser that
    stays full and leaves the read as it was, its chunk unprocessed. *)
Theorem process_chunk_frame (m : MapperT) :
  let r := process_chunk' m in
  held (fst r) = held m
  /\ (prev_size_ (fst r) = prev_size_ m \/ prev_size_ (fst r) = 0)
  /\ (Z.of_nat (length (chunk_ (read_ m))) < 2 ^ 16 ->
      0 <= snd r <= Z.of_nat (length (chunk_ (read_ m))))
  /\ (chunk_processed_ (read_ m) = false -> reset_ m = false ->
      (chunk_processed_ (read_ (fst r)) = true
       /\ chunk_ (read_ (fst r)) = [])
      \/ read_ (fst r) = read_ m).
Proof.
  intros r. subst r.
  pose proof (process_chunk_held m) as [H1 H2].
  split; [exact H1|]. split; [exact H2|].
  unfold process_chunk.
  destruct (chunk_processed_ (read_ m)) eqn:Ep; cbn [orb].
  { split; [cbn; lia | discriminate]. }
  destruct (reset_ m) eqn:Er.
  { split; [cbn; lia | discriminate]. }
  pose proof (process_samples_read (chunk_ (read_ m)) m 0) as Hread.
  split.
  - intros Hlen.
    pose proof (process_samples_count (chunk_ (read_ m)) m 0
                  ltac:(lia) ltac:(lia)) as A.
    destruct (process_samples _ _ _ _ _ m 0) as [[m1 n1]|[m1 n1]];
      cbn [snd] in *; lia.
  - intros _ _.
    destruct (process_samples _ _ _ _ _ m 0) as [[m1 n1]|[m1 n1]];
      cbn [sum_mapper fst] in Hread |- *.
    + left. split; reflexivity.
    + right. exact Hread.
Qed.

(** *** Phase C in every event step *)

Lemma extend_phase_in_kmer (m : MapperT) (e : f32) :
  fm_contract ALPH_SIZE o ->
  beam_holds (fun _ => True) (in_kmer_range o) m ->
  let mA := fill_kmer_probs o m e in
  let r := extend_loop TYPE_BITS ALPH_SIZE tracker_add_seed o
             (Z.to_nat (prev_size_ mA)) 0 mA 0 in
  next_ok (fun _ => True) (in_kmer_range o) (fst r) (snd r).
Proof.
  intros (_ & _ & Hnb) (HWp & HWn & HP & Hlen & Hps) mA r.
  assert (HokA : next_ok (fun _ => True) (in_kmer_range o) mA 0).
  { split; [exact HWn|]. split; [apply Forall_nil_2|].
    unfold next_end. split; lia. }
  subst r. change (prev_size_ mA) with (prev_size_ m).
  destruct (Z.eq_dec (prev_size_ m) 0) as [E0|Hn0].
  { rewrite E0. exact HokA. }
  assert (H1 : 0 < next_end mA).
  { change (next_end mA) with (Z.of_nat (length (next_paths_ m))). lia. }
  assert (H2 : 0 + Z.of_nat (Z.to_nat (prev_size_ m)) <= prev_size_ mA).
  { change (prev_size_ mA) with (prev_size_ m). lia. }
  assert (HpA : prev_ok (fun _ => True) (in_kmer_range o) mA)
    by (split; assumption).
  refine (proj1 (extend_loop_ok TYPE_BITS ALPH_SIZE tracker_add_seed o
                   (fun _ => True) (in_kmer_range o) (in_kmer_range o)
                   _ _ _ _ _
                   (Z.to_nat (prev_size_ m)) 0 mA 0 HokA H1 HpA
                   (Z.le_refl 0) H2)).
  - intros; exact I.
  - intros; exact I.
  - intros p Hp; exact Hp.
  - intros s p pr _ _ Hp _ _. unfold in_kmer_range.
    rewrite make_child_range, make_child_kmer. exact Hp.
  - intros s p b pr _ _ (Hk & Hv & Hw) _ Hb Hr. unfold in_kmer_range.
    rewrite make_child_range, make_child_kmer.
    destruct (Hnb (fm_range_ p) (kmer_ p) b Hk Hb Hv Hw Hr) as [A B].
    split; [exact A|]. split; [exact Hr | exact B].
Qed.

Lemma source_loop_in_kmer fuel :
  forall kmer (m : MapperT) np,
    0 <= kmer ->
    next_ok (fun _ => True) (in_kmer_range o) m np ->
    let r := source_loop TYPE_BITS o fuel kmer m np in
    next_ok (fun _ => True) (in_kmer_range o) (fst r) (snd r).
Proof.
  induction fuel as [|fuel IH]; intros kmer m np Hk Hok; [exact Hok|].
  cbn [source_loop].
  destruct (_ && negb (np =? next_end m)) eqn:Ec; [|exact Hok].
  apply andb_true_iff in Ec. destruct Ec as [Ek Ec].
  apply Z.ltb_lt in Ek. apply negb_true_iff, Z.eqb_neq in Ec.
  destruct (_ && range_is_valid _) eqn:Es.
  - apply andb_true_iff in Es. destruct Es as [_ Er].
    unfold push_source. apply (IH (kmer + 1)); [lia|].
    apply next_ok_push; [exact Hok | | exact I |].
    + destruct Hok as (_ & _ & ?). lia.
    + unfold in_kmer_range, range_within.
      cbn [make_source kmer_ fm_range_].
      split; [lia|]. split; [exact Er | lia].
  - apply (IH (kmer + 1)); [lia | exact Hok].
Qed.

(** The event step keeps the paths in use within the ranges of their
    k-mers. *)
Lemma event_step_in_kmer (m : MapperT) (e : f32) :
  fm_contract ALPH_SIZE o -> 0 <= kmer_count (model_ o) < 2 ^ 16 ->
  beam_holds (fun _ => True) (in_kmer_range o) m ->
  beam_holds (fun _ => True) (in_kmer_range o) (fst (event_step' m e))
  /\ shape (fst (event_step' m e)) = shape m.
Proof.
  intros Hfm Hcount Hb.
  pose proof (extend_phase_in_kmer m e Hfm Hb) as HB. cbv zeta in HB.
  destruct Hfm as (_ & Hcoord & _).
  destruct Hb as (_ & _ & _ & Hlen & _).
  unfold event_step.
  set (mA := fill_kmer_probs o m e) in *.
  pose proof (extend_loop_shape TYPE_BITS ALPH_SIZE tracker_add_seed o
                (Z.to_nat (prev_size_ mA)) 0 mA 0) as SB.
  destruct (extend_loop _ _ _ _ _ 0 mA 0) as [mB npB].
  cbn [fst snd] in HB, SB.
  pose proof (dedup_phase_in_kmer TYPE_BITS pdqsort tracker_add_seed o mB npB
                Hsort Hcoord Hcount HB) as HC. cbv zeta in HC.
  pose proof (dedup_phase_shape TYPE_BITS pdqsort tracker_add_seed o
                ltac:(intros l; apply Permutation_length, Hsort) mB npB) as SC.
  destruct (dedup_phase _ _ _ _ mB npB) as [mC npC].
  cbn [fst snd] in HC, SC.
  pose proof (source_loop_in_kmer (Z.to_nat (kmer_count (model_ o))) 0 mC npC
                (Z.le_refl 0) HC) as HD. cbv zeta in HD.
  pose proof (source_loop_shape TYPE_BITS o
                (Z.to_nat (kmer_count (model_ o))) 0 mC npC) as SD.
  destruct (source_loop _ _ _ 0 mC npC) as [mD npD].
  cbn [fst snd] in HD, SD.
  assert (Hshape : shape mD = shape m)
    by (rewrite SD, SC, SB; apply fill_kmer_probs_shape).
  unfold shape in Hshape. inversion Hshape as [[Hl1 Hl2 Hl3 Hl4]].
  destruct HD as (_ & HQ & Hnp). unfold next_end in Hnp.
  assert (Hfin : beam_holds (fun _ => True) (in_kmer_range o)
            (set_event_i (u32 (event_i_ mD + 1))
               (set_next_paths (prev_paths_ (set_prev_size npD mD))
                  (set_prev_paths (next_paths_ (set_prev_size npD mD))
                     (set_prev_size npD mD))))).
  { unfold beam_holds.
    cbn [prev_paths_ next_paths_ prev_size_ set_event_i set_next_paths
         set_prev_paths set_prev_size].
    split; [apply Forall_forall; intros; exact I|].
    split; [apply Forall_forall; intros; exact I|].
    split; [exact HQ|]. split; [lia | lia]. }
  split; [destruct (sg_is_valid _); cbn [fst]; exact Hfin|].
  destruct (sg_is_valid _); cbn [fst]; unfold shape; cbn;
    rewrite Hl1, Hl2, Hl3, Hl4, Hlen; reflexivity.
Qed.


End Calls.

(** ** Phase A and Phase D *)

Lemma zget_zset_ne {A} (d : A) (l : list A) (i j : Z) (v : A) :
  i <> j -> zget d (zset l i v) j = zget d l j.
Proof.
  intros Hij. unfold zget, zset.
  destruct (Z.ltb_spec j 0); [reflexivity|].
  destruct (Z.ltb_spec i 0); [reflexivity|].
  rewrite list_lookup_insert_ne by lia. reflexivity.
Qed.

Lemma zget_zset_default {A} (d : A) (l : list A) (i : Z) :
  zget d (zset l i d) i = d.
Proof.
  unfold zget, zset. destruct (Z.ltb_spec i 0); [reflexivity|].
  destruct (Nat.lt_ge_cases (Z.to_nat i) (length l)).
  - rewrite list_lookup_insert_eq by lia. reflexivity.
  - rewrite (proj2 (lookup_ge_None _ _)); [reflexivity|].
    rewrite length_insert. lia.
Qed.

Lemma fill_fold (f : Z -> f32) (n : nat) :
  forall probs : list f32,
    (n <= length probs)%nat ->
    fold_left (fun ps k => zset ps k (f k)) (map Z.of_nat (seq 0 n)) probs
    = map f (map Z.of_nat (seq 0 n)) ++ drop n probs.
Proof.
  induction n as [|n IH]; intros probs Hn; [reflexivity|].
  rewrite seq_S, !map_app, fold_left_app, IH by lia. cbn [map fold_left plus].
  unfold zset. destruct (Z.ltb_spec (Z.of_nat n) 0); [lia|].
  rewrite Nat2Z.id.
  destruct (lookup_lt_is_Some_2 probs n ltac:(lia)) as [y Hy].
  rewrite (drop_S _ y n Hy).
  rewrite insert_app_r_alt by (rewrite !length_map, length_seq; lia).
  rewrite !length_map, length_seq, Nat.sub_diag. cbn [insert].
  rewrite <- app_assoc. reflexivity.
Qed.

Lemma zip_nil {A B C} (f : A -> B -> C) (l : list A) :
  zip_with f l (@nil B) = [].
Proof. destruct l; reflexivity. Qed.

Section SourcePhase.

Context {SeedTracker EventDetector Normalizer ReadLoc : Type}.
Variable TYPE_BITS : Z.
Variable o : UncalledOpts.

Local Abbreviation MapperT :=
  (@Mapper SeedTracker EventDetector Normalizer ReadLoc).

(** X17.  Phase A overwrites the whole table of emission probabilities: after
    it, the entry of every k-mer is the probability of the event at hand,
    and nothing of the previous event is left. *)
Theorem fill_kmer_probs_table (m : MapperT) (e : f32) :
  length (kmer_probs_ m) = Z.to_nat (kmer_count (model_ o)) ->
  kmer_probs_ (fill_kmer_probs o m e)
  = map (event_match_prob (model_ o) e) (zrange (kmer_count (model_ o))).
Proof.
  intros Hl. unfold fill_kmer_probs, zrange. cbn [kmer_probs_ set_kmer_probs].
  rewrite fill_fold by lia.
  rewrite <- Hl, drop_all, app_nil_r. reflexivity.
Qed.

Lemma source_loop_flags fuel :
  forall kmer (m : MapperT) np,
    let r := source_loop TYPE_BITS o fuel kmer m np in
    next_end (fst r) = next_end m
    /\ (forall k, k < kmer ->
          zget false (sources_added_ (fst r)) k
          = zget false (sources_added_ m) k)
    /\ (snd r <> next_end m ->
        forall k, kmer <= k -> k < kmer + Z.of_nat fuel ->
          k < kmer_count (model_ o) ->
          zget false (sources_added_ (fst r)) k = false).
Proof.
  induction fuel as [|fuel IH]; intros kmer m np.
  { cbn. repeat split; intros; lia. }
  cbn [source_loop].
  destruct (Z.ltb_spec kmer (kmer_count (model_ o))) as [Hk|Hk]; cbn [andb].
  2:{ cbn. repeat split; intros; lia. }
  destruct (Z.eqb_spec np (next_end m)) as [He|He]; cbn [negb].
  { cbn. repeat split; intros; try lia; congruence. }
  destruct (_ && range_is_valid _) eqn:Es.
  - apply andb_true_iff in Es. destruct Es as [Es _].
    apply andb_true_iff in Es. destruct Es as [Es _].
    apply andb_true_iff in Es. destruct Es as [Es _].
    apply negb_true_iff in Es.
    unfold push_source.
    set (m1 := set_next_paths _ m).
    destruct (IH (kmer + 1) m1 (np + 1)) as (A & B & C).
    assert (He1 : next_end m1 = next_end m)
      by (unfold next_end, m1; cbn; rewrite zset_length; reflexivity).
    split; [congruence|]. split.
    + intros k Hlt. rewrite B by lia. reflexivity.
    + intros Hne k H1 H2 H3.
      destruct (Z.eq_dec k kmer) as [->|Hn].
      * rewrite B by lia. exact Es.
      * apply C; try lia; congruence.
  - set (m1 := set_sources_added _ m).
    destruct (IH (kmer + 1) m1 np) as (A & B & C).
    split; [exact A|]. split.
    + intros k Hlt. rewrite B by lia. unfold m1.
      cbn [sources_added_ set_sources_added].
      apply zget_zset_ne. lia.
    + intros Hne k H1 H2 H3.
      destruct (Z.eq_dec k kmer) as [->|Hn].
      * rewrite B by lia. unfold m1. cbn [sources_added_ set_sources_added].
        apply zget_zset_default.
      * apply C; try lia; exact Hne.
Qed.

(** X19.  When Phase D ends with room left in [next_paths_], it has visited
    every k-mer, and every flag of [sources_added_] is false: the flags
    are cleared for the next event as long as the beam does not fill up. *)
Theorem source_loop_clears_flags (m : MapperT) (np : Z) :
  let r := source_loop TYPE_BITS o (Z.to_nat (kmer_count (model_ o))) 0 m np in
  snd r <> next_end (fst r) ->
  forall k, 0 <= k < kmer_count (model_ o) ->
    zget false (sources_added_ (fst r)) k = false.
Proof.
  intros r Hne k Hk. subst r.
  destruct (source_loop_flags (Z.to_nat (kmer_count (model_ o))) 0 m np)
    as (A & _ & C).
  apply C; try lia; rewrite <- A; exact Hne.
Qed.

Lemma filter_wants_ext (m1 m : MapperT) (l : list Z) :
  kmer_probs_ m1 = kmer_probs_ m ->
  (forall k, In k l ->
     zget false (sources_added_ m1) k = zget false (sources_added_ m) k) ->
  List.filter (wants_source o m1) l = List.filter (wants_source o m) l.
Proof.
  intros Hp Hf. induction l as [|k l IH]; [reflexivity|].
  cbn [List.filter]. rewrite IH by (intros; apply Hf; right; assumption).
  unfold wants_source at 1 3. rewrite Hp, (Hf k) by (left; reflexivity).
  reflexivity.
Qed.

Lemma source_loop_sources fuel :
  forall (kmer : nat) (m : MapperT) np,
    0 <= np <= next_end m ->
    Z.of_nat kmer + Z.of_nat fuel <= kmer_count (model_ o) ->
    let f := fun slot k =>
      make_source slot (kmer_fmrange o k) k
        (zget f32_zero (kmer_probs_ m) k) in
    let ks := take (Z.to_nat (next_end m - np))
                (List.filter (wants_source o m)
                   (map Z.of_nat (seq kmer fuel))) in
    let r := source_loop TYPE_BITS o fuel (Z.of_nat kmer) m np in
    snd r = np + Z.of_nat (length ks)
    /\ next_paths_ (fst r)
       = take (Z.to_nat np) (next_paths_ m)
         ++ zip_with f (drop (Z.to_nat np) (next_paths_ m)) ks
         ++ drop (Z.to_nat np + length ks) (next_paths_ m)
    /\ kmer_probs_ (fst r) = kmer_probs_ m
    /\ prev_paths_ (fst r) = prev_paths_ m.
Proof.
  induction fuel as [|fuel IH]; intros kmer m np Hnp Hk f ks r.
  { subst r ks f. cbn [seq map List.filter source_loop fst snd].
    rewrite !take_nil. rewrite zip_nil. cbn [length app].
    rewrite Nat.add_0_r, take_drop. repeat split; lia. }
  subst r. cbn [source_loop].
  destruct (Z.ltb_spec (Z.of_nat kmer) (kmer_count (model_ o))) as [_|Hge];
    [|lia]. cbn [andb].
  destruct (Z.eqb_spec np (next_end m)) as [He|He]; cbn [negb].
  { subst ks. rewrite He, Z.sub_diag. change (Z.to_nat 0) with 0%nat.
    rewrite take_0, zip_nil. cbn [length fst snd app].
    rewrite Nat.add_0_r, take_drop. repeat split; lia. }
  rewrite andb_true_r.
  fold (wants_source o m (Z.of_nat kmer)).
  subst ks. cbn [seq map List.filter].
  destruct (wants_source o m (Z.of_nat kmer)) eqn:Ew.
  - unfold push_source.
    set (s := make_source (next_at TYPE_BITS o m np) _ _ _).
    set (m1 := set_next_paths _ m).
    assert (He1 : next_end m1 = next_end m)
      by (unfold next_end, m1; cbn; rewrite zset_length; reflexivity).
    pose proof (IH (S kmer) m1 (np + 1) ltac:(lia) ltac:(lia)) as H.
    cbv zeta in H.
    replace (Z.of_nat (S kmer)) with (Z.of_nat kmer + 1) in H by lia.
    destruct H as (A & B & C).
    rewrite (filter_wants_ext m1 m) in A, B
      by (try reflexivity; intros; reflexivity).
    rewrite He1 in A, B.
    replace (Z.to_nat (next_end m - np))
      with (S (Z.to_nat (next_end m - (np + 1)))) by lia.
    cbn [take length].
    set (ks1 := take _ (List.filter _ _)) in *.
    split; [lia|]. split; [|exact C].
    rewrite B. unfold m1. cbn [next_paths_ set_next_paths kmer_probs_].
    unfold next_end in *.
    destruct (lookup_lt_is_Some_2 (next_paths_ m) (Z.to_nat np) ltac:(lia))
      as [x Hx].
    assert (Hs : s = f x (Z.of_nat kmer)).
    { unfold s, f, next_at. rewrite zget_nth by lia.
      rewrite (nth_lookup_Some _ _ _ _ Hx). reflexivity. }
    unfold zset. destruct (Z.ltb_spec np 0); [lia|].
    replace (Z.to_nat (np + 1)) with (S (Z.to_nat np)) by lia.
    rewrite (take_S_r _ _ s)
      by (apply list_lookup_insert_eq; lia).
    rewrite take_insert_ge, !drop_insert_lt by lia.
    rewrite (drop_S _ x (Z.to_nat np) Hx). cbn [zip_with].
    rewrite <- Hs, <- !app_assoc. cbn [app].
    replace (Z.to_nat np + S (length ks1))%nat
      with (S (Z.to_nat np) + length ks1)%nat by lia.
    reflexivity.
  - set (m1 := set_sources_added _ m).
    pose proof (IH (S kmer) m1 np Hnp ltac:(lia)) as H. cbv zeta in H.
    replace (Z.of_nat (S kmer)) with (Z.of_nat kmer + 1) in H by lia.
    rewrite (filter_wants_ext m1 m) in H.
    + exact H.
    + reflexivity.
    + intros k Hin. apply in_map_iff in Hin. destruct Hin as (j & <- & Hj).
      apply in_seq in Hj. unfold m1. cbn [sources_added_ set_sources_added].
      apply zget_zset_ne. lia.
Qed.

(** X18.  Phase D appends sources in the order of the k-mers, one over the whole
    range of every k-mer that has no source yet, reaches the source
    probability and has a range, until [next_paths_] is full: the new
    entries are these sources and no other entry changes. *)
Theorem source_loop_appends_sources (m : MapperT) (np : Z) :
  0 <= np <= next_end m ->
  let ks := take (Z.to_nat (next_end m - np))
              (List.filter (wants_source o m)
                 (zrange (kmer_count (model_ o)))) in
  let r := source_loop TYPE_BITS o (Z.to_nat (kmer_count (model_ o))) 0 m np in
  snd r = np + Z.of_nat (length ks)
  /\ next_paths_ (fst r)
     = take (Z.to_nat np) (next_paths_ m)
       ++ zip_with
            (fun slot k =>
               make_source slot (kmer_fmrange o k) k
                 (zget f32_zero (kmer_probs_ m) k))
            (drop (Z.to_nat np) (next_paths_ m)) ks
       ++ drop (Z.to_nat np + length ks) (next_paths_ m).
Proof.
  intros Hnp ks r.
  destruct (Z.le_gt_cases 0 (kmer_count (model_ o))) as [Hk|Hk].
  - pose proof (source_loop_sources (Z.to_nat (kmer_count (model_ o)))
                  0%nat m np Hnp ltac:(lia)) as (A & B & _).
    split; [exact A | exact B].
  - subst r ks. unfold zrange.
    replace (Z.to_nat (kmer_count (model_ o))) with 0%nat by lia.
    cbn [seq map List.filter source_loop fst snd].
    rewrite !take_nil. rewrite zip_nil. cbn [length app].
    rewrite Nat.add_0_r, take_drop. split; [lia | reflexivity].
Qed.

End SourcePhase.

(** ** An event on an empty beam *)

Section EmptyBeam.

Context {SeedTracker SeedGroup EventDetector Normalizer ReadLoc : Type}.

Variables TYPE_BITS ALPH_SIZE : Z.
Variable pdqsort : list PathBuffer -> list PathBuffer.
Variable tracker_add_seed : SeedTracker -> Z -> Z -> Z -> SeedTracker.
Variable tracker_get_final : SeedTracker -> SeedGroup.
Variable sg_is_valid : SeedGroup -> bool.
Variable set_mapped :
  UncalledOpts -> SeedGroup -> @ReadBuffer ReadLoc -> ReadLoc.
Variable o : UncalledOpts.

Local Abbreviation MapperT :=
  (@Mapper SeedTracker EventDetector Normalizer ReadLoc).

(** X20.  An event that finds no path in use, as the first one after
    [new_read] or after [skip_events], extends nothing and sorts nothing:
    the generation it leaves consists of the sources of the last loop, one
    for each k-mer that wants one, in the order of the k-mers, as far as
    [max_paths] allows; the slots of the two generations are swapped. *)
Theorem event_on_empty_beam (m : MapperT) (e : f32) :
  prev_size_ m = 0 -> reset_ m = false ->
  event_i_ m < max_events_proc_ o ->
  let mA := fill_kmer_probs o m e in
  let ks := take (length (next_paths_ m))
              (List.filter (wants_source o mA)
                 (zrange (kmer_count (model_ o)))) in
  let r := add_event TYPE_BITS ALPH_SIZE pdqsort tracker_add_seed
             tracker_get_final sg_is_valid set_mapped o m e in
  prev_size_ (fst r) = Z.of_nat (length ks)
  /\ prev_paths_ (fst r)
     = zip_with
         (fun slot k =>
            make_source slot (kmer_fmrange o k) k
              (zget f32_zero (kmer_probs_ mA) k))
         (next_paths_ m) ks
       ++ drop (length ks) (next_paths_ m)
  /\ next_paths_ (fst r) = prev_paths_ m.
Proof.
  intros H0 Hr Hi mA ks r. subst r. unfold add_event.
  rewrite Hr. cbn [orb].
  destruct (Z.geb_spec (event_i_ m) (max_events_proc_ o)) as [|_]; [lia|].
  unfold event_step. fold mA.
  change (prev_size_ mA) with (prev_size_ m). rewrite H0.
  change (extend_loop TYPE_BITS ALPH_SIZE tracker_add_seed o
            (Z.to_nat 0) 0 mA 0) with (mA, 0).
  cbv beta iota.
  change (dedup_phase TYPE_BITS pdqsort tracker_add_seed o mA 0)
    with (mA, 0).
  cbv beta iota.
  assert (HD : let rD := source_loop TYPE_BITS o
                           (Z.to_nat (kmer_count (model_ o))) 0 mA 0 in
               snd rD = Z.of_nat (length ks)
               /\ next_paths_ (fst rD)
                  = zip_with
                      (fun slot k =>
                         make_source slot (kmer_fmrange o k) k
                           (zget f32_zero (kmer_probs_ mA) k))
                      (next_paths_ m) ks
                    ++ drop (length ks) (next_paths_ m)
               /\ prev_paths_ (fst rD) = prev_paths_ m).
  { assert (Hks : ks = take (Z.to_nat (next_end mA - 0))
                         (List.filter (wants_source o mA)
                            (zrange (kmer_count (model_ o))))).
    { unfold ks, next_end. f_equal.
      change (next_paths_ mA) with (next_paths_ m). lia. }
    destruct (Z.le_gt_cases 0 (kmer_count (model_ o))) as [Hk|Hk].
    - pose proof (source_loop_sources TYPE_BITS o
                    (Z.to_nat (kmer_count (model_ o))) 0%nat mA 0
                    ltac:(unfold next_end; lia) ltac:(lia))
        as (A & B & _ & C).
      unfold zrange in Hks. rewrite <- Hks in A, B.
      change (next_paths_ mA) with (next_paths_ m) in B.
      cbn [Z.to_nat take drop app plus] in B.
      split; [exact A|]. split; [exact B | exact C].
    - assert (Hnil : ks = []).
      { rewrite Hks. unfold zrange.
        replace (Z.to_nat (kmer_count (model_ o))) with 0%nat by lia.
        apply take_nil. }
      rewrite Hnil.
      replace (Z.to_nat (kmer_count (model_ o))) with 0%nat by lia.
      cbn [source_loop fst snd length]. rewrite zip_nil.
      repeat split. }
  cbv zeta in HD.
  destruct (source_loop _ _ _ 0 mA 0) as [mD npD].
  cbn [fst snd] in HD. destruct HD as (A & B & C).
  cbv zeta.
  destruct (sg_is_valid (tracker_get_final _)); cbn;
    repeat split; assumption.
Qed.

End EmptyBeam.

(** ** The properties on the small instance *)

Lemma prob_sums_window_witness :
  (1 <= MAX_PATH_LEN Tiny.G3 <= 254)
  /\ seed_prob_ Tiny.stay_then_match
     = f32_div
         (nth 3 (prob_sums_of f32_zero [f32_zero; f32_zero]) f32_zero)
         (f32_of_Z 3).
Proof.
  split; [vm_compute; split; discriminate|].
  refine (proj2 (prob_sums_window Tiny.TYPE_BITS Tiny.G3 Tiny.slot
                   (mkRange 2 2) 1 f32_zero
                   [Tiny.ext (mkRange 2 2) 1 STAY;
                    Tiny.ext (mkRange 1 1) 0 MATCH] _ _ _)).
  - vm_compute. split; discriminate.
  - reflexivity.
  - repeat constructor.
Defined.

Lemma beam_within_bounds_witness :
  length (prev_paths_ TinyCalls.after_session) = Z.to_nat (max_paths_ Tiny.o2)
  /\ 0 <= prev_size_ TinyCalls.after_session
       <= Z.of_nat (length (prev_paths_ TinyCalls.after_session)).
Proof.
  pose proof (beam_within_bounds Tiny.TYPE_BITS Tiny.ALPH_SIZE Tiny.sort_paths
                Tiny.tracker_reset Tiny.tracker_add_seed
                Tiny.tracker_get_final Tiny.sg_is_valid Tiny.ed_add_sample
                Tiny.ed_get_mean Tiny.ed_reset Tiny.norm_add_event
                Tiny.norm_skip_unread Tiny.chunk_clear Tiny.read_of_chunk
                Tiny.read_add_chunk Tiny.set_mapped TinyCalls.norm_empty
                TinyCalls.norm_pop_event TinyCalls.get_max_events Tiny.o2
                sort_paths_perm
                false false (mkRead 0 0 true [] false) [] f32_zero []
                TinyCalls.session) as H.
  cbv zeta in H. destruct H as (A & _ & _ & _ & E & _).
  split; [exact A | exact E].
Defined.

Lemma live_paths_have_ranges_witness :
  Forall (fun p => range_is_valid (fm_range_ p) = true)
    (live (prev_size_ TinyCalls.after_session)
       (prev_paths_ TinyCalls.after_session)).
Proof.
  exact (live_paths_have_ranges Tiny.TYPE_BITS Tiny.ALPH_SIZE Tiny.sort_paths
                Tiny.tracker_reset Tiny.tracker_add_seed
                Tiny.tracker_get_final Tiny.sg_is_valid Tiny.ed_add_sample
                Tiny.ed_get_mean Tiny.ed_reset Tiny.norm_add_event
                Tiny.norm_skip_unread Tiny.chunk_clear Tiny.read_of_chunk
                Tiny.read_add_chunk Tiny.set_mapped TinyCalls.norm_empty
                TinyCalls.norm_pop_event TinyCalls.get_max_events Tiny.o2
                sort_paths_perm
           false false (mkRead 0 0 true [] false) [] f32_zero []
                TinyCalls.session).
Defined.

Lemma live_paths_bound_stays_witness :
  Forall (fun p => 0 <= consec_stays_ p <= Z.max 0 (max_consec_stay_ Tiny.o2))
    (live (prev_size_ TinyCalls.after_session)
       (prev_paths_ TinyCalls.after_session)).
Proof.
  exact (live_paths_bound_stays Tiny.TYPE_BITS Tiny.ALPH_SIZE Tiny.sort_paths
                Tiny.tracker_reset Tiny.tracker_add_seed
                Tiny.tracker_get_final Tiny.sg_is_valid Tiny.ed_add_sample
                Tiny.ed_get_mean Tiny.ed_reset Tiny.norm_add_event
                Tiny.norm_skip_unread Tiny.chunk_clear Tiny.read_of_chunk
                Tiny.read_add_chunk Tiny.set_mapped TinyCalls.norm_empty
                TinyCalls.norm_pop_event TinyCalls.get_max_events Tiny.o2
                sort_paths_perm
           false false (mkRead 0 0 true [] false) [] f32_zero []
                TinyCalls.session).
Defined.

Lemma no_seed_before_seed_len_events_witness :
  (length (prev_paths_ (Tiny.init Tiny.o2))
   = length (next_paths_ (Tiny.init Tiny.o2))
   /\ Z.of_nat (length [f32_of_Z 0; f32_of_Z 10]) < seed_len_ Tiny.o2)
  /\ seed_tracker_
       (fst (add_events Tiny.TYPE_BITS Tiny.ALPH_SIZE Tiny.sort_paths
               Tiny.tracker_add_seed Tiny.tracker_get_final Tiny.sg_is_valid
               Tiny.set_mapped Tiny.o2
               (new_read Tiny.tracker_reset Tiny.ed_reset
                  Tiny.norm_skip_unread Tiny.read_of_chunk
                  (Tiny.init Tiny.o2) (7, []))
               [f32_of_Z 0; f32_of_Z 10]))
     = Tiny.tracker_reset (seed_tracker_ (Tiny.init Tiny.o2)).
Proof.
  assert (H1 : length (prev_paths_ (Tiny.init Tiny.o2))
               = length (next_paths_ (Tiny.init Tiny.o2))) by reflexivity.
  assert (H2 : Z.of_nat (length [f32_of_Z 0; f32_of_Z 10])
               < seed_len_ Tiny.o2) by reflexivity.
  split; [split; assumption|].
  exact (no_seed_before_seed_len_events Tiny.TYPE_BITS Tiny.ALPH_SIZE
           Tiny.sort_paths Tiny.tracker_reset Tiny.tracker_add_seed
           Tiny.tracker_get_final Tiny.sg_is_valid Tiny.ed_reset
           Tiny.norm_skip_unread Tiny.read_of_chunk Tiny.set_mapped
           Tiny.o2 sort_paths_perm (Tiny.init Tiny.o2) (7, [])
           [f32_of_Z 0; f32_of_Z 10] H1 H2).
Defined.

Lemma add_event_outcome_witness :
  snd (Tiny.t_add_event Tiny.o2 Tiny.m0 0) = false
  /\ state_ (fst (Tiny.t_add_event Tiny.o2 Tiny.m0 0)) = state_ Tiny.m0
  /\ event_i_ (fst (Tiny.t_add_event Tiny.o2 Tiny.m0 0))
     = u32 (event_i_ Tiny.m0 + 1).
Proof.
  unfold Tiny.t_add_event.
  assert (Hf : snd (add_event Tiny.TYPE_BITS Tiny.ALPH_SIZE Tiny.sort_paths
                      Tiny.tracker_add_seed Tiny.tracker_get_final
                      Tiny.sg_is_valid Tiny.set_mapped Tiny.o2 Tiny.m0
                      (f32_of_Z 0)) = false)
    by (vm_compute; reflexivity).
  split; [exact Hf|].
  pose proof (add_event_outcome Tiny.TYPE_BITS Tiny.ALPH_SIZE Tiny.sort_paths
                Tiny.tracker_add_seed Tiny.tracker_get_final Tiny.sg_is_valid
                Tiny.set_mapped Tiny.o2 Tiny.m0 (f32_of_Z 0)) as H.
  cbv zeta in H. destruct H as (_ & H & _).
  destruct (H Hf) as (A & _ & _ & _ & B). split; [exact A | exact B].
Defined.

Lemma map_chunk_outcome_witness :
  (0 <= event_i_ TinyCalls.m1_waiting
   /\ event_i_ TinyCalls.m1_waiting + 2 ^ 16 <= 2 ^ 32)
  /\ event_i_ TinyCalls.m1_waiting
       <= event_i_ (fst (TinyCalls.t_map_chunk Tiny.o2 TinyCalls.m1_waiting))
       <= event_i_ TinyCalls.m1_waiting
          + u16 (TinyCalls.get_max_events (event_i_ TinyCalls.m1_waiting)).
Proof.
  assert (H0 : 0 <= event_i_ TinyCalls.m1_waiting)
    by (vm_compute; discriminate).
  assert (H1 : event_i_ TinyCalls.m1_waiting + 2 ^ 16 <= 2 ^ 32)
    by (vm_compute; discriminate).
  split; [split; assumption|].
  pose proof (map_chunk_outcome Tiny.TYPE_BITS Tiny.ALPH_SIZE Tiny.sort_paths
                Tiny.tracker_add_seed Tiny.tracker_get_final Tiny.sg_is_valid
                Tiny.set_mapped TinyCalls.norm_empty TinyCalls.norm_pop_event
                TinyCalls.get_max_events Tiny.o2 TinyCalls.no_timeout
                TinyCalls.m1_waiting) as H.
  cbv zeta in H. destruct H as (_ & _ & _ & H). exact (H H0 H1).
Defined.

Lemma reset_blocks_chunk_calls_witness :
  reset_ TinyCalls.m1_reset = true
  /\ TinyCalls.t_calls Tiny.o2 TinyCalls.m1_reset
       [CProcessChunk; CSwapChunk (7, []); CMapChunk TinyCalls.no_timeout;
        CProcessChunk]
     = set_state FAILURE TinyCalls.m1_reset.
Proof.
  split; [reflexivity|].
  pose proof (reset_blocks_chunk_calls Tiny.TYPE_BITS Tiny.ALPH_SIZE
                Tiny.sort_paths
                Tiny.tracker_reset Tiny.tracker_add_seed
                Tiny.tracker_get_final Tiny.sg_is_valid Tiny.ed_add_sample
                Tiny.ed_get_mean Tiny.ed_reset Tiny.norm_add_event
                Tiny.norm_skip_unread Tiny.chunk_clear Tiny.read_of_chunk
                Tiny.read_add_chunk Tiny.set_mapped TinyCalls.norm_empty
                TinyCalls.norm_pop_event TinyCalls.get_max_events Tiny.o2
                TinyCalls.m1_reset eq_refl)
    as (_ & _ & _ & H & _).
  exact (H [CProcessChunk; CSwapChunk (7, []); CMapChunk TinyCalls.no_timeout;
            CProcessChunk] eq_refl).
Defined.

Lemma process_chunk_frame_witness :
  Z.of_nat (length (chunk_ (read_ Tiny.m2_chunk))) < 2 ^ 16
  /\ 0 <= snd (Tiny.t_process_chunk Tiny.m2_chunk)
       <= Z.of_nat (length (chunk_ (read_ Tiny.m2_chunk))).
Proof.
  assert (H0 : Z.of_nat (length (chunk_ (read_ Tiny.m2_chunk))) < 2 ^ 16)
    by (vm_compute; reflexivity).
  split; [exact H0|].
  pose proof (process_chunk_frame Tiny.ed_add_sample Tiny.ed_get_mean
                Tiny.norm_add_event Tiny.norm_skip_unread Tiny.m2_chunk) as H.
  cbv zeta in H. destruct H as (_ & _ & H & _). exact (H H0).
Defined.

Lemma fill_kmer_probs_table_witness :
  length (kmer_probs_ Tiny.m1) = Z.to_nat (kmer_count (model_ Tiny.o2))
  /\ kmer_probs_ (fill_kmer_probs Tiny.o2 Tiny.m1 (f32_of_Z 10))
     = map (event_match_prob (model_ Tiny.o2) (f32_of_Z 10))
         (zrange (kmer_count (model_ Tiny.o2))).
Proof.
  assert (H0 : length (kmer_probs_ Tiny.m1)
               = Z.to_nat (kmer_count (model_ Tiny.o2)))
    by (vm_compute; reflexivity).
  split; [exact H0|].
  exact (fill_kmer_probs_table Tiny.o2 Tiny.m1 (f32_of_Z 10) H0).
Defined.

Lemma source_loop_clears_flags_witness :
  snd (source_loop Tiny.TYPE_BITS Tiny.o6
         (Z.to_nat (kmer_count (model_ Tiny.o6))) 0
         (fst Tiny.after_dedup) (snd Tiny.after_dedup))
  <> next_end (fst (source_loop Tiny.TYPE_BITS Tiny.o6
                      (Z.to_nat (kmer_count (model_ Tiny.o6))) 0
                      (fst Tiny.after_dedup) (snd Tiny.after_dedup)))
  /\ zget false
       (sources_added_
          (fst (source_loop Tiny.TYPE_BITS Tiny.o6
                  (Z.to_nat (kmer_count (model_ Tiny.o6))) 0
                  (fst Tiny.after_dedup) (snd Tiny.after_dedup)))) 1
     = false.
Proof.
  assert (H0 :
    snd (source_loop Tiny.TYPE_BITS Tiny.o6
           (Z.to_nat (kmer_count (model_ Tiny.o6))) 0
           (fst Tiny.after_dedup) (snd Tiny.after_dedup))
    <> next_end (fst (source_loop Tiny.TYPE_BITS Tiny.o6
                        (Z.to_nat (kmer_count (model_ Tiny.o6))) 0
                        (fst Tiny.after_dedup) (snd Tiny.after_dedup))))
    by (vm_compute; discriminate).
  split; [exact H0|].
  apply (source_loop_clears_flags Tiny.TYPE_BITS Tiny.o6
           (fst Tiny.after_dedup) (snd Tiny.after_dedup) H0 1).
  vm_compute. split; [discriminate | reflexivity].
Defined.

Lemma source_loop_appends_sources_witness :
  0 <= 0 <= next_end Tiny.m1
  /\ snd (source_loop Tiny.TYPE_BITS Tiny.o2
           (Z.to_nat (kmer_count (model_ Tiny.o2))) 0 Tiny.m1 0)
     = 0 + Z.of_nat
             (length
                (take (Z.to_nat (next_end Tiny.m1 - 0))
                   (List.filter (wants_source Tiny.o2 Tiny.m1)
                      (zrange (kmer_count (model_ Tiny.o2)))))).
Proof.
  assert (H0 : 0 <= 0 <= next_end Tiny.m1)
    by (vm_compute; split; discriminate).
  split; [exact H0|].
  exact (proj1 (source_loop_appends_sources Tiny.TYPE_BITS Tiny.o2 Tiny.m1 0
                  H0)).
Defined.

Lemma event_on_empty_beam_witness :
  (prev_size_ Tiny.m0 = 0 /\ reset_ Tiny.m0 = false
   /\ event_i_ Tiny.m0 < max_events_proc_ Tiny.o2)
  /\ prev_size_
       (fst (add_event Tiny.TYPE_BITS Tiny.ALPH_SIZE Tiny.sort_paths
               Tiny.tracker_add_seed Tiny.tracker_get_final Tiny.sg_is_valid
               Tiny.set_mapped Tiny.o2 Tiny.m0 (f32_of_Z 0)))
     = Z.of_nat
         (length
            (take (length (next_paths_ Tiny.m0))
               (List.filter
                  (wants_source Tiny.o2
                     (fill_kmer_probs Tiny.o2 Tiny.m0 (f32_of_Z 0)))
                  (zrange (kmer_count (model_ Tiny.o2)))))).
Proof.
  assert (H0 : prev_size_ Tiny.m0 = 0) by (vm_compute; reflexivity).
  assert (Hr : reset_ Tiny.m0 = false) by (vm_compute; reflexivity).
  assert (Hi : event_i_ Tiny.m0 < max_events_proc_ Tiny.o2)
    by (vm_compute; reflexivity).
  split; [split; [exact H0 | split; [exact Hr | exact Hi]]|].
  exact (proj1 (event_on_empty_beam Tiny.TYPE_BITS Tiny.ALPH_SIZE
                  Tiny.sort_paths Tiny.tracker_add_seed
                  Tiny.tracker_get_final Tiny.sg_is_valid Tiny.set_mapped
                  Tiny.o2 Tiny.m0 (f32_of_Z 0) H0 Hr Hi)).
Defined.

